(** * coolecode.py: Pokemon objects, the battle arena and the roster
      aggregations, as a shallow embedding.

    Python objects are mutable and passed by reference, so the embedding
    keeps a store of objects addressed by location: a [Pokemon] argument of
    the source is a location here, and two arguments may be the same
    location.  Every function of the source that prints, mutates or raises
    is a computation in the monad [M] below. *)

From Stdlib Require Import ZArith QArith Qabs Lia OrderedTypeEx.
From stdpp Require Import gmap strings list fin_maps pretty sorting.

Local Open Scope string_scope.
Local Open Scope list_scope.
Local Open Scope Z_scope.

(** ** Objects *)

Abbreviation loc := nat (only parsing).

(** [class Pokemon]: the dataclass fields in declaration order, then the
    attribute [id] that [__post_init__] adds. *)
Record Pokemon := mkPokemon {
  sort_index : Z;
  name : string;
  type_ : string;
  hp : Z;
  attack : Z;
  defense : Z;
  speed : Z;
  moves : list string;
  id : string
}.

(** One entry of [BattleArena.history]: the dict literal of [battle], keys
    in insertion order. *)
Abbreviation Dict := (list (string * string)) (only parsing).

(** [class BattleArena] *)
Record BattleArena := mkArena {
  history : list Dict
}.

(** ** Printed lines

    Each [print] of the source is one event carrying the values that the
    f-string interpolates.  [log_action] prints the positional arguments
    with their [repr]; for a Pokemon that is the field values at the time
    of the call. *)
#[local] Unset Elimination Schemes.
Inductive value :=
  | VNone
  | VStr (s : string)
  | VInt (z : Z)
  | VFloat (x : Q)
  | VPokemon (p : Pokemon)
  | VObject (l : loc)
  | VList (vs : list value)
  | VDict (d : list (string * value)).
#[local] Set Elimination Schemes.

Inductive event :=
  | DebugCalling (fname : string) (args : list value)
  | DebugReturned (fname : string) (result : value)
  | InfoCreated (pname pid ptype : string)
  | Receives (pname : string) (damage hp_now : Z)
  | Uses (pname move : string) (damage : Z) (oname : string)
  | BattleStarts (name1 name2 : string)
  | WinnerIs (wname : string).

(** ** The state of the process *)
Record World := mkWorld {
  pokes : gmap loc Pokemon;      (* the Pokemon objects *)
  arenas : gmap loc BattleArena; (* the BattleArena objects *)
  id_gen : nat;                  (* [counter] of the generator [id_gen] *)
  stdout : list event;           (* what has been printed, oldest first *)
  entropy : nat -> nat;          (* the draws of module [random] *)
  draws : nat                    (* how many draws were consumed *)
}.

Definition set_pokes (f : gmap loc Pokemon -> gmap loc Pokemon) (w : World) : World :=
  mkWorld (f (pokes w)) (arenas w) (id_gen w) (stdout w) (entropy w) (draws w).
Definition set_arenas (f : gmap loc BattleArena -> gmap loc BattleArena) (w : World) : World :=
  mkWorld (pokes w) (f (arenas w)) (id_gen w) (stdout w) (entropy w) (draws w).
Definition set_id_gen (n : nat) (w : World) : World :=
  mkWorld (pokes w) (arenas w) n (stdout w) (entropy w) (draws w).
Definition emit (e : event) (w : World) : World :=
  mkWorld (pokes w) (arenas w) (id_gen w) (stdout w ++ [e]) (entropy w) (draws w).
Definition set_draws (n : nat) (w : World) : World :=
  mkWorld (pokes w) (arenas w) (id_gen w) (stdout w) (entropy w) n.

(** ** Computations

    [Raise] is a Python exception left uncaught.  [Wrong] is a location
    that holds no object, which no Python program can produce; [Timeout]
    is the fuel of a [while] loop running out. *)
Inductive exn :=
  | IndexError       (* random.choice on an empty sequence *)
  | StatisticsError  (* statistics.mean on no data *)
  | ValueError       (* max / min of an empty sequence *)
  | OverflowError.   (* an int quotient too large for a float *)

Inductive res (A : Type) :=
  | Ret (a : A) (w : World)
  | Raise (e : exn) (w : World)
  | Wrong
  | Timeout.
Arguments Ret {A} a w.
Arguments Raise {A} e w.
Arguments Wrong {A}.
Arguments Timeout {A}.

Definition M (A : Type) := World -> res A.

Definition ret {A} (a : A) : M A := fun w => Ret a w.
Definition bind {A B} (m : M A) (k : A -> M B) : M B :=
  fun w => match m w with
           | Ret a w' => k a w'
           | Raise e w' => Raise e w'
           | Wrong => Wrong
           | Timeout => Timeout
           end.
Definition raise {A} (e : exn) : M A := fun w => Raise e w.
Definition timeout {A} : M A := fun _ => Timeout.
Definition print (e : event) : M unit := fun w => Ret tt (emit e w).
Definition get_world : M World := fun w => Ret w w.

#[export] Instance M_ret : MRet M := @ret.
#[export] Instance M_bind : MBind M := fun A B k m => bind m k.

(** Attribute access [p.field] through a reference. *)
Definition deref (l : loc) : M Pokemon :=
  fun w => match pokes w !! l with
           | Some p => Ret p w
           | None => Wrong
           end.

(** [p.hp = v] *)
Definition set_hp (v : Z) (p : Pokemon) : Pokemon :=
  mkPokemon (sort_index p) (name p) (type_ p) v (attack p) (defense p)
            (speed p) (moves p) (id p).
Definition store_hp (l : loc) (v : Z) : M unit :=
  fun w => match pokes w !! l with
           | Some p => Ret tt (set_pokes <[l := set_hp v p]> w)
           | None => Wrong
           end.

(** A new object gets a location that is not in use. *)
Definition alloc (p : Pokemon) : M loc :=
  fun w => let l := fresh (dom (pokes w)) in Ret l (set_pokes <[l := p]> w).

(** ** Utilities *)

(** [log_action]: the wrapper prints the call, runs the function and
    prints what it returned; when the function raises, the second line is
    never printed. *)
Definition log_action {A} (fname : string) (args : list value)
    (show : A -> value) (body : M A) : M A :=
  print (DebugCalling fname args);;
  result ← body;
  print (DebugReturned fname (show result));;
  ret result.

(** [infinite_id_generator(prefix)], one resumption: the generator yields
    the prefix followed by the counter in decimal, and goes on with the
    counter one higher. *)
Definition infinite_id_generator (prefix : string) (counter : nat) : string * nat :=
  (prefix +:+ pretty counter, S counter).

(** [next(id_gen)], where [id_gen = infinite_id_generator("PKMN-")] *)
Definition next_id : M string :=
  fun w => let (i, counter) := infinite_id_generator "PKMN-" (id_gen w) in
           Ret i (set_id_gen counter w).

(** [random.choice(seq)]: raises IndexError on an empty sequence, and
    otherwise returns the element at an index below [len(seq)] taken from
    the generator. *)
Definition random_choice (seq : list string) : M string :=
  fun w => match seq !! (entropy w (draws w) mod length seq)%nat with
           | Some x => Ret x (set_draws (S (draws w)) w)
           | None => Raise IndexError w
           end.

(** ** Pokemon *)

(** [Pokemon(name, type_, hp, attack, defense, speed, moves)]: the
    generated [__init__] stores the arguments and calls [__post_init__]. *)
Definition Pokemon_new (name0 type0 : string) (hp0 attack0 defense0 speed0 : Z)
    (moves0 : list string) : M loc :=
  i ← next_id;
  let self := mkPokemon hp0 name0 type0 hp0 attack0 defense0 speed0 moves0 i in
  l ← alloc self;
  print (InfoCreated name0 i type0);;
  ret l.

(** [power_level] *)
Definition power_level (p : Pokemon) : Z := attack p + defense p + speed p.

(** [receive_damage] *)
Definition receive_damage (self : loc) (damage : Z) : M unit :=
  p ← deref self;
  store_hp self (Z.max (hp p - damage) 0);;
  p' ← deref self;
  print (Receives (name p') damage (hp p')).

(** The right-hand side of [damage = ...] in [attack_opponent]; [//] is
    floor division, as [Z.div] is for a positive divisor. *)
Definition attack_damage (self opponent : Pokemon) : Z :=
  Z.max (attack self - defense opponent / 2) 1.

(** The body of [attack_opponent] *)
Definition attack_opponent_body (self opponent : loc) : M unit :=
  s ← deref self;
  move ← random_choice (moves s);
  o ← deref opponent;
  let damage := attack_damage s o in
  print (Uses (name s) move damage (name o));;
  receive_damage opponent damage.

(** [attack_opponent], decorated with [log_action] *)
Definition attack_opponent (self opponent : loc) : M unit :=
  s ← deref self;
  o ← deref opponent;
  log_action "attack_opponent" [VPokemon s; VPokemon o] (fun _ => VNone)
    (attack_opponent_body self opponent).

(** ** The order of Pokemon

    [@dataclass(order=True)] gives the class [__eq__], [__lt__] and the
    like, which compare the tuples of the fields in declaration order;
    [id] is set in [__post_init__] and is no field.  Tuples and lists are
    compared at the first position where they differ. *)

(** The first of two comparisons that is not an equality. *)
Definition lex (c c' : comparison) : comparison :=
  match c with
  | Eq => c'
  | _ => c
  end.

(** Comparison of two lists of strings. *)
Fixpoint list_compare (l l' : list string) : comparison :=
  match l, l' with
  | [], [] => Eq
  | [], _ :: _ => Lt
  | _ :: _, [] => Gt
  | x :: l, y :: l' => lex (String.compare x y) (list_compare l l')
  end.

(** Comparison of the field tuples of two Pokemon. *)
Definition Pokemon_compare (p q : Pokemon) : comparison :=
  lex (sort_index p ?= sort_index q)
 (lex (String.compare (name p) (name q))
 (lex (String.compare (type_ p) (type_ q))
 (lex (hp p ?= hp q)
 (lex (attack p ?= attack q)
 (lex (defense p ?= defense q)
 (lex (speed p ?= speed q)
      (list_compare (moves p) (moves q)))))))).

(** [p == q] and [p < q] *)
Definition Pokemon_eq (p q : Pokemon) : bool :=
  match Pokemon_compare p q with Eq => true | _ => false end.
Definition Pokemon_lt (p q : Pokemon) : bool :=
  match Pokemon_compare p q with Lt => true | _ => false end.

(** ** Complex Battle Simulation *)

(** [BattleArena()] *)
Definition BattleArena_new : M loc :=
  fun w => let l := fresh (dom (arenas w)) in
           Ret l (set_arenas <[l := mkArena []]> w).

(** [self.history.append(d)] *)
Definition history_append (self : loc) (d : Dict) : M unit :=
  fun w => match arenas w !! self with
           | Some a => Ret tt (set_arenas <[self := mkArena (history a ++ [d])]> w)
           | None => Wrong
           end.

(** How one pass through the body of the [while] loop ends. *)
Inductive flow := Continue | Break.

(** The body of the loop of [battle]. *)
Definition battle_round (pkmn1 pkmn2 : loc) : M flow :=
  p1 ← deref pkmn1;
  p2 ← deref pkmn2;
  if speed p1 >=? speed p2 then
    attack_opponent pkmn1 pkmn2;;
    p2 ← deref pkmn2;
    if hp p2 <=? 0 then ret Break else
    attack_opponent pkmn2 pkmn1;;
    ret Continue
  else
    attack_opponent pkmn2 pkmn1;;
    p1 ← deref pkmn1;
    if hp p1 <=? 0 then ret Break else
    attack_opponent pkmn1 pkmn2;;
    ret Continue.

(** [while pkmn1.hp > 0 and pkmn2.hp > 0: ...]; [fuel] bounds the number
    of passes through the body. *)
Fixpoint battle_loop (fuel : nat) (pkmn1 pkmn2 : loc) : M unit :=
  p1 ← deref pkmn1;
  p2 ← deref pkmn2;
  if (hp p1 >? 0) && (hp p2 >? 0) then
    match fuel with
    | O => timeout
    | S fuel' =>
        f ← battle_round pkmn1 pkmn2;
        match f with
        | Break => ret tt
        | Continue => battle_loop fuel' pkmn1 pkmn2
        end
    end
  else ret tt.

(** The body of [battle]: the loop, the choice of the winner, the record. *)
Definition battle_body (fuel : nat) (self pkmn1 pkmn2 : loc) : M string :=
  p1 ← deref pkmn1;
  p2 ← deref pkmn2;
  print (BattleStarts (name p1) (name p2));;
  battle_loop fuel pkmn1 pkmn2;;
  p1 ← deref pkmn1;
  let winner := if hp p1 >? 0 then pkmn1 else pkmn2 in
  wp ← deref winner;
  print (WinnerIs (name wp));;
  p1 ← deref pkmn1;
  p2 ← deref pkmn2;
  wp ← deref winner;
  history_append self
    [("pkmn1", name p1); ("pkmn2", name p2); ("winner", name wp)];;
  wp ← deref winner;
  ret (name wp).

(** [BattleArena.battle], decorated with [log_action] *)
Definition battle (fuel : nat) (self pkmn1 pkmn2 : loc) : M string :=
  p1 ← deref pkmn1;
  p2 ← deref pkmn2;
  log_action "battle" [VObject self; VPokemon p1; VPokemon p2] VStr
    (battle_body fuel self pkmn1 pkmn2).

(** ** Data Analysis *)

(** A number that [statistics.mean] can return for int data: an int, or a
    float, which is given by the rational that the float is. *)
Inductive number :=
  | Int (z : Z)
  | Float (x : Q).

Definition show_number (n : number) : value :=
  match n with
  | Int z => VInt z
  | Float x => VFloat x
  end.

(** The integer nearest to [n / d], for [d > 0], the even one of two that
    are equally near. *)
Definition round_half_even (n d : Z) : Z :=
  let q := n / d in
  let r := n mod d in
  if 2 * r <? d then q
  else if d <? 2 * r then q + 1
  else if Z.even q then q else q + 1.

(** [2 ^ k] for an exponent of either sign is [up k / dn k]; one of the
    two is 1. *)
Definition up (k : Z) : Z := 2 ^ Z.max 0 k.
Definition dn (k : Z) : Z := 2 ^ Z.max 0 (- k).

(** The rational [m * 2 ^ k]. *)
Definition dyadic (m k : Z) : Q := Qmake (m * up k) (Z.to_pos (dn k)).

(** [floor (log2 (a / d))] for [a > 0] and [d > 0]. *)
Definition ilog2_ratio (a d : Z) : Z :=
  let e := Z.log2 a - Z.log2 d in
  if a * dn e <? d * up e then e - 1 else e.

(** [n / d] for two ints with [d > 0], as [float(Fraction(n, d))] computes
    it: the quotient rounded to the nearest binary64 number, ties to even.
    The binary64 numbers around a quotient of magnitude in
    [2 ^ e, 2 ^ (e + 1)) are the multiples of [2 ^ k] with [k = e - 52],
    and of [2 ^ -1074] below the normal range.  [None] is the
    [OverflowError] of a quotient that rounds to [2 ^ 1024] or more. *)
Definition binary64_of_ratio (n d : Z) : option Q :=
  if n =? 0 then Some 0%Q else
  let a := Z.abs n in
  let k := Z.max (ilog2_ratio a d - 52) (- 1074) in
  let m := round_half_even (a * dn k) (d * up k) in
  if 2 ^ 1024 * dn k <=? m * up k then None
  else Some (Qred (dyadic (Z.sgn n * m) k)).

(** [sum(data)] *)
Definition sum (data : list Z) : Z := foldl Z.add 0 data.

(** [statistics.mean(data)] for a list of ints: the sum is exact; no data
    raises StatisticsError; the quotient by the count is returned as an int
    when it is one, and converted to a float when it is not. *)
Definition mean (data : list Z) : M number :=
  let total := sum data in
  let n := Z.of_nat (length data) in
  if n <? 1 then raise StatisticsError
  else if total mod n =? 0 then mret (Int (total / n))
  else match binary64_of_ratio total n with
       | Some x => mret (Float x)
       | None => raise OverflowError
       end.

(** [max(data)] and [min(data)] *)
Definition py_max (data : list Z) : M Z :=
  match data with
  | [] => raise ValueError
  | x :: rest => mret (foldl Z.max x rest)
  end.
Definition py_min (data : list Z) : M Z :=
  match data with
  | [] => raise ValueError
  | x :: rest => mret (foldl Z.min x rest)
  end.

(** [[p.attr for p in pokemon_list]]: reads each object in turn. *)
Fixpoint deref_all (pokemon_list : list loc) : M (list Pokemon) :=
  match pokemon_list with
  | [] => mret []
  | l :: rest => p ← deref l; ps ← deref_all rest; mret (p :: ps)
  end.

(** The body of [pokemon_statistics] *)
Definition pokemon_statistics_body (pokemon_list : list loc)
    : M (list (string * number)) :=
  ps ← deref_all pokemon_list;
  let hp_values := map hp ps in
  average_hp ← mean hp_values;
  max_hp ← py_max hp_values;
  min_hp ← py_min hp_values;
  let stats := [("average_hp", average_hp); ("max_hp", Int max_hp);
                ("min_hp", Int min_hp)] in
  mret stats.

(** [pokemon_statistics], decorated with [log_action] *)
Definition pokemon_statistics (pokemon_list : list loc)
    : M (list (string * number)) :=
  ps ← deref_all pokemon_list;
  log_action "pokemon_statistics" [VList (map VPokemon ps)]
    (fun stats => VDict (map (fun kv => (kv.1, show_number kv.2)) stats))
    (pokemon_statistics_body pokemon_list).

(** A Python dict: the items in insertion order, each key once.
    [d[k] = v] replaces the value of a key that is there and appends a
    new key at the end. *)
Fixpoint dict_set {V} (k : string) (v : V) (d : list (string * V))
    : list (string * V) :=
  match d with
  | [] => [(k, v)]
  | (k', v') :: d' =>
      if String.eqb k' k then (k', v) :: d' else (k', v') :: dict_set k v d'
  end.

Fixpoint dict_get {V} (k : string) (d : list (string * V)) : option V :=
  match d with
  | [] => None
  | (k', v') :: d' => if String.eqb k' k then Some v' else dict_get k d'
  end.

(** [sorted(l, key=key)] for string keys.  Python compares strings by
    code point, which on their UTF-8 bytes is the order of
    [String.ltb].  The sort is stable, and uses only [<] on the keys: an
    element goes in front of the first one whose key is not smaller than
    its own. *)
Fixpoint insert_by {A} (key : A -> string) (x : A) (l : list A) : list A :=
  match l with
  | [] => [x]
  | y :: l' =>
      if String.ltb (key y) (key x) then y :: insert_by key x l'
      else x :: y :: l'
  end.

Definition sorted {A} (key : A -> string) (l : list A) : list A :=
  foldr (insert_by key) [] l.

(** [itertools.groupby(l, key=key)], each group made a list: the runs of
    consecutive elements with equal keys, each with its key. *)
Fixpoint groupby {A} (key : A -> string) (l : list A) : list (string * list A) :=
  match l with
  | [] => []
  | x :: l' =>
      match groupby key l' with
      | (k, g) :: groups =>
          if String.eqb (key x) k then (k, x :: g) :: groups
          else (key x, [x]) :: (k, g) :: groups
      | [] => [(key x, [x])]
      end
  end.

(** The loop of [group_by_type], for any way [key] of reading the type. *)
Definition grouped_by {A} (key : A -> string) (l : list A)
    : list (string * list A) :=
  foldl (fun grouped '(type_, group) => dict_set type_ group grouped) []
        (groupby key (sorted key l)).

(** [p.type_] for the object at a location. *)
Definition type_at (w : World) (l : loc) : string :=
  match pokes w !! l with
  | Some p => type_ p
  | None => ""
  end.

(** The body of [group_by_type] *)
Definition group_by_type_body (pokemon_list : list loc)
    : M (list (string * list loc)) :=
  deref_all pokemon_list;;
  w ← get_world;
  mret (grouped_by (type_at w) pokemon_list).

(** The [repr] of a group: that of the objects it refers to. *)
Definition show_group (w : World) (g : list loc) : value :=
  VList (omap (fun l => VPokemon <$> pokes w !! l) g).

(** [group_by_type], decorated with [log_action] *)
Definition group_by_type (pokemon_list : list loc)
    : M (list (string * list loc)) :=
  ps ← deref_all pokemon_list;
  w ← get_world;
  log_action "group_by_type" [VList (map VPokemon ps)]
    (fun grouped => VDict (map (fun kv => (kv.1, show_group w kv.2)) grouped))
    (group_by_type_body pokemon_list).

(** ** Main Simulation *)

(** The process when [main] is entered: no objects yet, the id counter
    at 1, nothing printed. *)
Definition world0 (rnd : nat -> nat) : World := mkWorld ∅ ∅ 1 [] rnd 0.

(** The list [pokemons] of [main]. *)
Definition main_roster : M (list loc) :=
  a ← Pokemon_new "Pikachu" "Electric" 35 55 40 90
        ["Thunderbolt"; "Quick Attack"; "Iron Tail"];
  b ← Pokemon_new "Charmander" "Fire" 39 52 43 65
        ["Flamethrower"; "Scratch"; "Ember"];
  c ← Pokemon_new "Squirtle" "Water" 44 48 65 43
        ["Water Gun"; "Tackle"; "Bubble"];
  d ← Pokemon_new "Bulbasaur" "Grass" 45 49 49 45
        ["Vine Whip"; "Tackle"; "Seed Bomb"];
  mret [a; b; c; d].

(** * Words for the statements *)

(** ** Sample objects for the closed instances *)

Definition pikachu : Pokemon :=
  mkPokemon 35 "Pikachu" "Electric" 35 55 40 90
    ["Thunderbolt"; "Quick Attack"; "Iron Tail"] "PKMN-1".
Definition charmander : Pokemon :=
  mkPokemon 39 "Charmander" "Fire" 39 52 43 65
    ["Flamethrower"; "Scratch"; "Ember"] "PKMN-2".
(** A Pokemon built without [moves]: the field's default is the empty list. *)
Definition magikarp : Pokemon :=
  mkPokemon 20 "Magikarp" "Water" 20 10 55 80 [] "PKMN-3".

Definition sample_pokes : gmap loc Pokemon :=
  {[ 0%nat := pikachu; 1%nat := charmander; 2%nat := magikarp ]}.
Definition sample_world : World :=
  mkWorld sample_pokes {[ 0%nat := mkArena [] ]} 4 [] (fun n => n) 0.

Definition squirtle : Pokemon :=
  mkPokemon 44 "Squirtle" "Water" 44 48 65 43
    ["Water Gun"; "Tackle"; "Bubble"] "PKMN-3".
Definition bulbasaur : Pokemon :=
  mkPokemon 45 "Bulbasaur" "Grass" 45 49 49 45
    ["Vine Whip"; "Tackle"; "Seed Bomb"] "PKMN-4".

(** The world of [main] once the roster is built. *)
Definition roster_world : World :=
  mkWorld {[ 0%nat := pikachu; 1%nat := charmander;
             2%nat := squirtle; 3%nat := bulbasaur ]}
          ∅ 5 [] (fun n => n) 0.

(** ** Worlds, relations and roles that the statements name *)

(** The world after a successful [attack_opponent]. *)
Definition after_attack (w : World) (pa pd : Pokemon) (d : loc) (mv : string) : World :=
  let dmg := attack_damage pa pd in
  emit (DebugReturned "attack_opponent" VNone)
    (emit (Receives (name pd) dmg (Z.max (hp pd - dmg) 0))
      (set_pokes <[d := set_hp (Z.max (hp pd - dmg) 0) pd]>
        (emit (Uses (name pa) mv dmg (name pd))
          (set_draws (S (draws w))
            (emit (DebugCalling "attack_opponent" [VPokemon pa; VPokemon pd]) w))))).

(** [preserves R m]: whenever [m] ends, by returning or by raising, the
    world it leaves is related by [R] to the one it started in. *)
Definition preserves {A} (R : World -> World -> Prop) (m : M A) : Prop :=
  forall w, match m w with
            | Ret _ w' | Raise _ w' => R w w'
            | Wrong | Timeout => True
            end.

(** Every attribute of a Pokemon except [hp]. *)
Definition static (p : Pokemon) :=
  (id p, name p, type_ p, attack p, defense p, speed p, moves p, sort_index p).

(** The two worlds hold the same Pokemon objects, equal in every attribute
    except possibly [hp]. *)
Definition only_hp_differs (w w' : World) : Prop :=
  forall l, static <$> pokes w' !! l = static <$> pokes w !! l.

(** The operations that assign to a Pokemon. *)
Inductive operation :=
  | OpReceiveDamage (e : loc) (d : Z)
  | OpAttack (a d : loc)
  | OpBattle (fuel : nat) (arena a b : loc).

Definition run_op (op : operation) : M unit :=
  match op with
  | OpReceiveDamage e d => receive_damage e d
  | OpAttack a d => attack_opponent a d
  | OpBattle fuel arena a b => battle fuel arena a b;; mret tt
  end.

Fixpoint run_ops (ops : list operation) : M unit :=
  match ops with
  | [] => mret tt
  | op :: ops' => run_op op;; run_ops ops'
  end.

(** The same world with another state of the random generator. *)
Definition reseed (rnd : nat -> nat) (n : nat) (w : World) : World :=
  mkWorld (pokes w) (arenas w) (id_gen w) (stdout w) rnd n.

(** What both branches of the round do, with the roles named: [first]
    attacks, and [second] strikes back unless it has fainted. *)
Definition exchange (first second : loc) : M flow :=
  attack_opponent first second;;
  s ← deref second;
  if hp s <=? 0 then mret Break else
  attack_opponent second first;;
  mret Continue.

(** Who attacks first and who second, by the test [pkmn1.speed >=
    pkmn2.speed] of the round. *)
Definition first_of (l1 l2 : loc) (p1 p2 : Pokemon) : loc :=
  if speed p1 >=? speed p2 then l1 else l2.
Definition second_of (l1 l2 : loc) (p1 p2 : Pokemon) : loc :=
  if speed p1 >=? speed p2 then l2 else l1.

(** The computation came to an end: it returned, or raised the error of an
    attacker without moves. *)
Definition ended {A} (r : res A) : Prop :=
  match r with
  | Ret _ _ => True
  | Raise e _ => e = IndexError
  | Wrong | Timeout => False
  end.

(** The world when [battle] returns, given the world [w1] in which the
    loop ended. *)
Definition after_battle (w1 : World) (self : loc) (a : BattleArena)
    (n1 n2 wn : string) : World :=
  emit (DebugReturned "battle" (VStr wn))
    (set_arenas
       <[self := mkArena (history a ++
                  [[("pkmn1", n1); ("pkmn2", n2); ("winner", wn)]])]>
       (emit (WinnerIs wn) w1)).

(** The world in which the loop of [battle] starts. *)
Definition battle_start (w : World) (self : loc) (p1 p2 : Pokemon) : World :=
  emit (BattleStarts (name p1) (name p2))
    (emit (DebugCalling "battle" [VObject self; VPokemon p1; VPokemon p2]) w).

(** What the loop may change: the hp of Pokemon, and what is printed and
    drawn; not the arenas. *)
Definition loop_frame (w w' : World) : Prop :=
  only_hp_differs w w' /\ arenas w' = arenas w.

(** Exactly one of the two has hp above 0; the other is at 0. *)
Definition one_survivor (r1 r2 : Pokemon) : Prop :=
  (0 < hp r1 /\ hp r2 = 0) \/ (hp r1 = 0 /\ 0 < hp r2).

(** The world after Pikachu has battled Charmander. *)
Definition world_after_first_battle : World :=
  match battle 74 0 0 1 sample_world with
  | Ret _ w' => w'
  | _ => sample_world
  end.

(** The exponent [k] and the rounded significand [m] that
    [binary64_of_ratio] computes. *)
Definition exponent_of (n d : Z) : Z :=
  Z.max (ilog2_ratio (Z.abs n) d - 52) (- 1074).
Definition significand_of (n d : Z) : Z :=
  let k := exponent_of n d in
  round_half_even (Z.abs n * dn k) (d * up k).

(** A binary64 number: [m * 2 ^ k] with a significand below [2 ^ 53] and
    an exponent in range. *)
Definition binary64 (x : Q) : Prop :=
  exists m k, Z.abs m < 2 ^ 53 /\ - 1074 <= k <= 971 /\ (x == dyadic m k)%Q.

(** The dict that [pokemon_statistics] returns. *)
Definition stats_of (average_hp : number) (max_hp min_hp : Z)
    : list (string * number) :=
  [("average_hp", average_hp); ("max_hp", Int max_hp); ("min_hp", Int min_hp)].

(** ** Sorted lists and groups *)

(** [a <= b] on keys, said with the [<] that the sort uses. *)
Definition not_after (a b : string) : Prop := String.ltb b a = false.

Section GroupingDefs.
Context {A : Type} (key : A -> string).

(** The keys never go down along the list. *)
Definition key_sorted (l : list A) : Prop :=
  StronglySorted (fun x y => not_after (key x) (key y)) l.

(** The element has the key [t]. *)
Definition has_key (t : string) (x : A) : Prop := key x = t.

#[export] Instance has_key_dec t x : Decision (has_key t x).
Proof. unfold has_key. apply _. Defined.

(** A group is not empty and all its elements have the key of the group. *)
Definition group_ok (kg : string * list A) : Prop :=
  kg.2 <> [] /\ Forall (has_key kg.1) kg.2.
End GroupingDefs.

(** The object at [l] is a Pokemon whose [type_] is [t]. *)
Definition of_type (w : World) (t : string) (l : loc) : Prop :=
  type_ <$> pokes w !! l = Some t.

#[export] Instance of_type_dec w t l : Decision (of_type w t l).
Proof. unfold of_type. apply _. Defined.

(** ** Programs over the objects, and what they keep *)

(** A call into the module: building an object, or running one of the
    functions on objects that exist. *)
Inductive command :=
  | NewPokemon (name0 type0 : string) (hp0 attack0 defense0 speed0 : Z)
               (moves0 : list string)
  | NewArena
  | Do (op : operation)
  | Statistics (pokemon_list : list loc)
  | GroupByType (pokemon_list : list loc).

Definition run_command (c : command) : M unit :=
  match c with
  | NewPokemon name0 type0 hp0 attack0 defense0 speed0 moves0 =>
      Pokemon_new name0 type0 hp0 attack0 defense0 speed0 moves0;; mret tt
  | NewArena => BattleArena_new;; mret tt
  | Do op => run_op op
  | Statistics pokemon_list => pokemon_statistics pokemon_list;; mret tt
  | GroupByType pokemon_list => group_by_type pokemon_list;; mret tt
  end.

(** A program: calls one after the other, up to the first that raises. *)
Fixpoint run_commands (cs : list command) : M unit :=
  match cs with
  | [] => mret tt
  | c :: cs' => run_command c;; run_commands cs'
  end.

(** No history has lost or changed an entry: what an arena held is the
    front of what it holds now. *)
Definition history_grows (w w' : World) : Prop :=
  forall l a, arenas w !! l = Some a ->
    exists a', arenas w' !! l = Some a' /\ history a `prefix_of` history a'.

(** Every Pokemon that was there is still there, with the attributes it
    had, hp apart. *)
Definition keeps_static (w w' : World) : Prop :=
  forall l p, pokes w !! l = Some p ->
    exists p', pokes w' !! l = Some p' /\ static p' = static p.

(** The ids in use are PKMN-k for k from 1 up to the counter of the
    generator, each on one Pokemon, and as many as there are Pokemon. *)
Definition ids_sequential (w : World) : Prop :=
  (forall l p, pokes w !! l = Some p ->
     exists k, (1 <= k < id_gen w)%nat /\ id p = "PKMN-" +:+ pretty k) /\
  (forall l1 l2 p1 p2,
     pokes w !! l1 = Some p1 -> pokes w !! l2 = Some p2 ->
     id p1 = id p2 -> l1 = l2) /\
  S (size (pokes w)) = id_gen w.

(** What a battle between [l1] and [l2] may do to the Pokemon: none comes
    or goes; a Pokemon other than the two is as it was; the hp of one of
    the two is as it was, or lower and not below 0. *)
Definition battle_effect (l1 l2 : loc) (w w' : World) : Prop :=
  forall l,
    match pokes w !! l, pokes w' !! l with
    | Some p, Some p' =>
        static p' = static p /\
        (hp p' = hp p \/ 0 <= hp p' < hp p) /\
        (l <> l1 -> l <> l2 -> p' = p)
    | None, None => True
    | _, _ => False
    end.

(** Two worlds with the same objects: they may differ in what has been
    printed and in the state of the random generator. *)
Definition same_objects (w1 w2 : World) : Prop :=
  pokes w1 = pokes w2 /\ arenas w1 = arenas w2 /\ id_gen w1 = id_gen w2.

(** Two outcomes of the same kind, with related values and the same
    objects. *)
Definition agree {A} (Rv : A -> A -> Prop) (r1 r2 : res A) : Prop :=
  match r1, r2 with
  | Ret a1 w1, Ret a2 w2 => Rv a1 a2 /\ same_objects w1 w2
  | Raise e1 w1, Raise e2 w2 => e1 = e2 /\ same_objects w1 w2
  | Wrong, Wrong => True
  | Timeout, Timeout => True
  | _, _ => False
  end.

(** Two computations that, run on the same objects, agree. *)
Definition related {A} (Rv : A -> A -> Prop) (m1 m2 : M A) : Prop :=
  forall w1 w2, same_objects w1 w2 -> agree Rv (m1 w1) (m2 w2).

(** The second world differs from the first in the printed lines only. *)
Definition only_printed (w w' : World) : Prop :=
  pokes w' = pokes w /\ arenas w' = arenas w /\ id_gen w' = id_gen w /\
  draws w' = draws w /\ entropy w' = entropy w /\
  exists lines, stdout w' = stdout w ++ lines.

(** [p.hp] for the object at a location. *)
Definition hp_at (w : World) (l : loc) : Z :=
  match pokes w !! l with
  | Some p => hp p
  | None => 0
  end.

(** The rational that a number is. *)
Definition value_of (n : number) : Q :=
  match n with
  | Int z => inject_Z z
  | Float x => x
  end.

(** A comparison that is an order: [Eq] is equality, swapping the
    arguments swaps [Lt] and [Gt], and [Lt] is transitive. *)
Record lawful {A} (cmp : A -> A -> comparison) : Prop := {
  law_eq : forall a b, cmp a b = Eq <-> a = b;
  law_opp : forall a b, cmp b a = CompOpp (cmp a b);
  law_trans : forall a b c, cmp a b = Lt -> cmp b c = Lt -> cmp a c = Lt
}.

(** Comparison of pairs, first component first. *)
Definition pair_compare {A B} (cmpA : A -> A -> comparison)
    (cmpB : B -> B -> comparison) (x y : A * B) : comparison :=
  lex (cmpA x.1 y.1) (cmpB x.2 y.2).

(** The fields of a Pokemon, as nested pairs. *)
Definition fields (p : Pokemon) :=
  (sort_index p, (name p, (type_ p, (hp p, (attack p, (defense p,
   (speed p, moves p))))))).

(** * Properties *)

(** ** How the primitive operations run *)

Ltac unfold_M :=
  unfold mbind, M_bind, mret, M_ret, bind, ret, raise, timeout, print in *.

Lemma bind_Ret {A B} (m : M A) (k : A -> M B) w a w' :
  m w = Ret a w' -> (m ≫= k) w = k a w'.
Proof. unfold_M. intros ->. reflexivity. Qed.

Lemma bind_Raise {A B} (m : M A) (k : A -> M B) w e w' :
  m w = Raise e w' -> (m ≫= k) w = Raise e w'.
Proof. unfold_M. intros ->. reflexivity. Qed.

Lemma deref_run w l p : pokes w !! l = Some p -> deref l w = Ret p w.
Proof. unfold deref. intros ->. reflexivity. Qed.

Lemma receive_damage_run w l p d :
  pokes w !! l = Some p ->
  receive_damage l d w =
    Ret tt (emit (Receives (name p) d (Z.max (hp p - d) 0))
             (set_pokes <[l := set_hp (Z.max (hp p - d) 0) p]> w)).
Proof.
  intros H. unfold receive_damage, store_hp, deref. unfold_M.
  rewrite H. cbn. rewrite H. cbn. rewrite lookup_insert_eq. reflexivity.
Qed.

Lemma attack_opponent_run w a d pa pd mv :
  pokes w !! a = Some pa -> pokes w !! d = Some pd ->
  moves pa !! (entropy w (draws w) mod length (moves pa))%nat = Some mv ->
  attack_opponent a d w = Ret tt (after_attack w pa pd d mv).
Proof.
  intros Ha Hd Hm.
  unfold attack_opponent, log_action, attack_opponent_body, random_choice, deref.
  unfold_M. rewrite Ha, Hd. cbn. rewrite Ha. cbn. rewrite Hm. cbn. rewrite Hd.
  rewrite (receive_damage_run _ d pd) by exact Hd. reflexivity.
Qed.

Lemma attack_opponent_unarmed w a d pa pd :
  pokes w !! a = Some pa -> pokes w !! d = Some pd -> moves pa = [] ->
  attack_opponent a d w =
    Raise IndexError (emit (DebugCalling "attack_opponent" [VPokemon pa; VPokemon pd]) w).
Proof.
  intros Ha Hd Hm.
  unfold attack_opponent, log_action, attack_opponent_body, random_choice, deref.
  unfold_M. rewrite Ha, Hd. cbn. rewrite Ha. cbn. rewrite Hm. reflexivity.
Qed.

Lemma choice_index_valid (seq : list string) (n : nat) :
  seq <> [] -> exists x, seq !! (n mod length seq)%nat = Some x.
Proof.
  intros Hne. apply lookup_lt_is_Some_2. apply Nat.mod_upper_bound.
  destruct seq; [congruence | discriminate].
Qed.

(** ** Damage *)

(** C5: after [receive_damage] with a damage [d >= 0] the hp of the entity
    is [max (old_hp - d) 0], so it is not negative. *)
Theorem receive_damage_clamps_at_zero (w : World) (e : loc) (p : Pokemon) (d : Z) :
  pokes w !! e = Some p ->
  0 <= d ->
  exists w' p',
    receive_damage e d w = Ret tt w' /\
    pokes w' !! e = Some p' /\
    hp p' = Z.max (hp p - d) 0 /\
    0 <= hp p'.
Proof.
  intros He _. eexists _, _. split; [apply receive_damage_run, He |].
  cbn. rewrite lookup_insert_eq. cbn. split; [reflexivity |].
  split; [reflexivity | cbn; lia].
Qed.

Lemma receive_damage_clamps_at_zero_witness :
  (pokes sample_world !! 1%nat = Some charmander /\ 0 <= 34) /\
  exists w' p',
    receive_damage 1 34 sample_world = Ret tt w' /\
    pokes w' !! 1%nat = Some p' /\
    hp p' = Z.max (hp charmander - 34) 0 /\
    0 <= hp p'.
Proof.
  split; [split; [reflexivity | lia] |].
  apply (receive_damage_clamps_at_zero sample_world 1%nat charmander 34);
    [reflexivity | lia].
Defined.

Lemma attack_damage_floor (pa pd : Pokemon) :
  exists q, 2 * q <= defense pd < 2 * q + 2 /\
            attack_damage pa pd = Z.max (attack pa - q) 1.
Proof.
  exists (defense pd / 2). split; [| reflexivity].
  pose proof (Z.div_mod (defense pd) 2 ltac:(lia)).
  pose proof (Z.mod_pos_bound (defense pd) 2 ltac:(lia)). lia.
Qed.

Lemma attack_damage_pos (pa pd : Pokemon) : 1 <= attack_damage pa pd.
Proof. unfold attack_damage. lia. Qed.

(** C1: an attack deals [max (attacker.attack - floor (defender.defense / 2)) 1]
    damage, which is at least 1: that is the amount printed, the amount
    handed to [receive_damage], and the amount taken off the defender's hp
    (down to the clamp at 0). *)
Theorem attack_deals_clamped_damage (w : World) (a d : loc) (pa pd : Pokemon) :
  pokes w !! a = Some pa ->
  pokes w !! d = Some pd ->
  moves pa <> [] ->
  exists w' mv dmg q,
    attack_opponent a d w = Ret tt w' /\
    2 * q <= defense pd < 2 * q + 2 /\
    dmg = Z.max (attack pa - q) 1 /\
    1 <= dmg /\
    stdout w' = stdout w ++
      [DebugCalling "attack_opponent" [VPokemon pa; VPokemon pd];
       Uses (name pa) mv dmg (name pd);
       Receives (name pd) dmg (Z.max (hp pd - dmg) 0);
       DebugReturned "attack_opponent" VNone] /\
    hp <$> pokes w' !! d = Some (Z.max (hp pd - dmg) 0).
Proof.
  intros Ha Hd Hm.
  destruct (choice_index_valid (moves pa) (entropy w (draws w)) Hm) as [mv Hmv].
  destruct (attack_damage_floor pa pd) as (q & Hq & Hdmg).
  exists (after_attack w pa pd d mv), mv, (attack_damage pa pd), q.
  split; [apply attack_opponent_run; assumption |].
  split; [exact Hq |]. split; [exact Hdmg |].
  split; [apply attack_damage_pos |].
  split.
  - cbn. rewrite <- !app_assoc. reflexivity.
  - cbn. rewrite lookup_insert_eq. reflexivity.
Qed.

Lemma attack_deals_clamped_damage_witness :
  (pokes sample_world !! 0%nat = Some pikachu /\
   pokes sample_world !! 1%nat = Some charmander /\
   moves pikachu <> []) /\
  exists w' mv dmg q,
    attack_opponent 0 1 sample_world = Ret tt w' /\
    2 * q <= defense charmander < 2 * q + 2 /\
    dmg = Z.max (attack pikachu - q) 1 /\
    1 <= dmg /\
    stdout w' = stdout sample_world ++
      [DebugCalling "attack_opponent" [VPokemon pikachu; VPokemon charmander];
       Uses (name pikachu) mv dmg (name charmander);
       Receives (name charmander) dmg (Z.max (hp charmander - dmg) 0);
       DebugReturned "attack_opponent" VNone] /\
    hp <$> pokes w' !! 1%nat = Some (Z.max (hp charmander - dmg) 0).
Proof.
  split; [split; [reflexivity | split; [reflexivity | discriminate]] |].
  apply (attack_deals_clamped_damage sample_world 0%nat 1%nat pikachu charmander);
    [reflexivity | reflexivity | discriminate].
Defined.

Example attack_pikachu_charmander :
  hp <$> (match attack_opponent 0 1 sample_world with
          | Ret _ w' => pokes w' !! 1%nat
          | _ => None
          end) = Some 5.
Proof. vm_compute. reflexivity. Qed.

(** ** Relations between the world before and after a computation *)

Create HintDb preserves.

Section Preserves.
Variable R : World -> World -> Prop.
Hypothesis R_refl : forall w, R w w.
Hypothesis R_trans : forall w1 w2 w3, R w1 w2 -> R w2 w3 -> R w1 w3.
Hypothesis R_emit : forall e w, R w (emit e w).
Hypothesis R_draw : forall n w, R w (set_draws n w).
Hypothesis R_hp : forall l p v w,
  pokes w !! l = Some p -> R w (set_pokes <[l := set_hp v p]> w).

Lemma preserves_ret {A} (a : A) : preserves R (mret a).
Proof. intros w. apply R_refl. Qed.

Lemma preserves_bind {A B} (m : M A) (k : A -> M B) :
  preserves R m -> (forall a, preserves R (k a)) -> preserves R (m ≫= k).
Proof.
  intros Hm Hk w. unfold_M. specialize (Hm w).
  destruct (m w) as [a w1 | e w1 | |]; auto.
  specialize (Hk a w1). destruct (k a w1); eauto.
Qed.

Lemma preserves_timeout {A} : preserves R (@timeout A).
Proof. intros w. exact I. Qed.

Lemma preserves_deref l : preserves R (deref l).
Proof. intros w. unfold deref. destruct (pokes w !! l); auto. Qed.

Lemma preserves_print e : preserves R (print e).
Proof. intros w. apply R_emit. Qed.

Lemma preserves_store_hp l v : preserves R (store_hp l v).
Proof.
  intros w. unfold store_hp. destruct (pokes w !! l) eqn:E; auto.
Qed.

Lemma preserves_random_choice seq : preserves R (random_choice seq).
Proof.
  intros w. unfold random_choice.
  destruct (seq !! _); [apply R_draw | apply R_refl].
Qed.

#[local] Hint Resolve preserves_ret preserves_timeout preserves_deref preserves_print
  preserves_store_hp preserves_random_choice : preserves.

Ltac preserves_step :=
  first [ apply preserves_bind; [| intros ?]
        | match goal with |- preserves _ (if ?b then _ else _) => destruct b end
        | match goal with |- preserves _ (match ?f with Continue => _ | Break => _ end) =>
            destruct f end
        | solve [auto with preserves] ].

Lemma preserves_log_action {A} fname args (show : A -> value) (body : M A) :
  preserves R body -> preserves R (log_action fname args show body).
Proof. intros Hb. unfold log_action. repeat preserves_step. Qed.

Lemma preserves_receive_damage l d : preserves R (receive_damage l d).
Proof. unfold receive_damage. repeat preserves_step. Qed.

Lemma preserves_attack_opponent a d : preserves R (attack_opponent a d).
Proof.
  unfold attack_opponent, attack_opponent_body. repeat preserves_step.
Qed.

Lemma preserves_battle_round l1 l2 : preserves R (battle_round l1 l2).
Proof.
  unfold battle_round.
  repeat first [ apply preserves_attack_opponent | preserves_step ].
Qed.

Lemma preserves_battle_loop fuel l1 l2 : preserves R (battle_loop fuel l1 l2).
Proof.
  induction fuel as [| fuel IH]; cbn [battle_loop];
    repeat first [ apply preserves_battle_round | exact IH | preserves_step ].
Qed.

(** What [history.append] does is a matter of the relation at hand. *)
Hypothesis R_history : forall l a d w,
  arenas w !! l = Some a ->
  R w (set_arenas <[l := mkArena (history a ++ [d])]> w).

Lemma preserves_history_append l d : preserves R (history_append l d).
Proof.
  intros w. unfold history_append. destruct (arenas w !! l) eqn:E; auto.
Qed.

Lemma preserves_battle fuel self l1 l2 : preserves R (battle fuel self l1 l2).
Proof.
  unfold battle, battle_body, log_action.
  repeat first [ apply preserves_battle_loop | apply preserves_history_append
               | preserves_step ].
Qed.
End Preserves.

(** ** Only hp is ever assigned *)

Lemma only_hp_differs_refl w : only_hp_differs w w.
Proof. intros l. reflexivity. Qed.

Lemma only_hp_differs_trans w1 w2 w3 :
  only_hp_differs w1 w2 -> only_hp_differs w2 w3 -> only_hp_differs w1 w3.
Proof. intros H12 H23 l. rewrite H23. apply H12. Qed.

Lemma only_hp_differs_set_hp l p v w :
  pokes w !! l = Some p -> only_hp_differs w (set_pokes <[l := set_hp v p]> w).
Proof.
  intros Hl l'. cbn. destruct (decide (l = l')) as [<- | Hne].
  - rewrite lookup_insert_eq, Hl. reflexivity.
  - rewrite lookup_insert_ne by exact Hne. reflexivity.
Qed.

Lemma only_hp_differs_same_pokes w w' :
  pokes w' = pokes w -> only_hp_differs w w'.
Proof. intros E l. rewrite E. reflexivity. Qed.

Lemma static_kept w w' l p :
  only_hp_differs w w' -> pokes w !! l = Some p ->
  exists p', pokes w' !! l = Some p' /\ static p' = static p.
Proof.
  intros H Hl. specialize (H l). rewrite Hl in H.
  destruct (pokes w' !! l) as [p' |]; [| discriminate H].
  exists p'. split; [reflexivity |]. cbn in H. congruence.
Qed.

Lemma run_op_only_hp op : preserves only_hp_differs (run_op op).
Proof.
  assert (Hrefl := only_hp_differs_refl).
  assert (Htrans := only_hp_differs_trans).
  assert (Hhp := only_hp_differs_set_hp).
  assert (Hsame := only_hp_differs_same_pokes).
  destruct op as [e d | a d | fuel arena a b]; cbn [run_op].
  - apply preserves_receive_damage; auto.
  - apply preserves_attack_opponent; auto.
  - apply preserves_bind; [exact Htrans | apply preserves_battle; auto |].
    intros ?. apply preserves_ret; auto.
Qed.

Lemma run_ops_only_hp ops : preserves only_hp_differs (run_ops ops).
Proof.
  induction ops as [| op ops IH]; cbn [run_ops].
  - apply preserves_ret, only_hp_differs_refl.
  - apply preserves_bind;
      [apply only_hp_differs_trans | apply run_op_only_hp | intros ?; exact IH].
Qed.

Lemma fresh_loc_unused (m : gmap loc Pokemon) : m !! fresh (dom m) = None.
Proof. apply not_elem_of_dom, is_fresh. Qed.

Lemma Pokemon_new_run name0 type0 hp0 attack0 defense0 speed0 moves0 w :
  let i := "PKMN-" +:+ pretty (id_gen w) in
  let l := fresh (dom (pokes w)) in
  let self := mkPokemon hp0 name0 type0 hp0 attack0 defense0 speed0 moves0 i in
  Pokemon_new name0 type0 hp0 attack0 defense0 speed0 moves0 w =
    Ret l (emit (InfoCreated name0 i type0)
            (set_pokes <[l := self]> (set_id_gen (S (id_gen w)) w))).
Proof. reflexivity. Qed.

(** C10: [receive_damage], [attack_opponent] and [battle] leave every
    attribute other than [hp] of every Pokemon as it was; [sort_index] is
    the hp given at creation and stays so whatever is done afterwards, so
    it can differ from the current hp. *)
Theorem only_hp_is_mutated :
  (forall op, preserves only_hp_differs (run_op op)) /\
  (forall name0 type0 hp0 attack0 defense0 speed0 moves0 w,
     exists l w1,
       Pokemon_new name0 type0 hp0 attack0 defense0 speed0 moves0 w = Ret l w1 /\
       (exists p, pokes w1 !! l = Some p /\ sort_index p = hp0 /\ hp p = hp0) /\
       forall ops,
         match run_ops ops w1 with
         | Ret _ w2 | Raise _ w2 =>
             exists p, pokes w2 !! l = Some p /\ sort_index p = hp0
         | Wrong | Timeout => True
         end) /\
  (exists w l p,
     run_ops [OpAttack 0 1] sample_world = Ret tt w /\
     pokes w !! l = Some p /\ sort_index p = 39 /\ hp p = 5).
Proof.
  split; [exact run_op_only_hp |]. split.
  - intros name0 type0 hp0 attack0 defense0 speed0 moves0 w.
    eexists _, _. split; [apply Pokemon_new_run |]. cbn.
    rewrite lookup_insert_eq. split; [eexists; split; [reflexivity | split; reflexivity] |].
    intros ops. pose proof (run_ops_only_hp ops) as Hops.
    match goal with |- match run_ops ops ?w1 with _ => _ end =>
      specialize (Hops w1); destruct (run_ops ops w1) as [u w2 | e w2 | |]
    end; try exact I;
    (eapply static_kept in Hops; [| cbn; apply lookup_insert_eq]);
    destruct Hops as (p' & Hp' & Hs); exists p'; (split; [exact Hp' |]);
    unfold static in Hs; cbn in Hs; congruence.
  - eexists _, 1%nat, _. split; [vm_compute; reflexivity |].
    split; [vm_compute; reflexivity |]. split; reflexivity.
Qed.

(** ** Attacking without moves *)

(** C9: [attack_opponent] fails, with the error of a choice from an empty
    sequence, exactly when the attacker has no moves.  With moves it
    returns; the move it picks is one of the attacker's, and whatever the
    random generator picks, the Pokemon objects end up the same. *)
Theorem attack_fails_iff_no_moves (w : World) (a d : loc) (pa pd : Pokemon) :
  pokes w !! a = Some pa ->
  pokes w !! d = Some pd ->
  ((exists e w', attack_opponent a d w = Raise e w') <-> moves pa = []) /\
  (moves pa = [] ->
     exists w', attack_opponent a d w = Raise IndexError w' /\
                pokes w' = pokes w) /\
  (moves pa <> [] ->
     exists w' mv,
       attack_opponent a d w = Ret tt w' /\
       mv ∈ moves pa /\
       In (Uses (name pa) mv (attack_damage pa pd) (name pd)) (stdout w') /\
       forall rnd n, exists w'',
         attack_opponent a d (reseed rnd n w) = Ret tt w'' /\
         pokes w'' = pokes w').
Proof.
  intros Ha Hd.
  assert (Hsome : moves pa <> [] ->
            exists w' mv, attack_opponent a d w = Ret tt w' /\ mv ∈ moves pa /\
              In (Uses (name pa) mv (attack_damage pa pd) (name pd)) (stdout w') /\
              forall rnd n, exists w'',
                attack_opponent a d (reseed rnd n w) = Ret tt w'' /\
                pokes w'' = pokes w').
  { intros Hm.
    destruct (choice_index_valid (moves pa) (entropy w (draws w)) Hm) as [mv Hmv].
    exists (after_attack w pa pd d mv), mv.
    split; [apply attack_opponent_run; assumption |].
    split; [eapply list_elem_of_lookup_2; exact Hmv |].
    split.
    - cbn. apply in_or_app. left. apply in_or_app. left.
      apply in_or_app. right. left. reflexivity.
    - intros rnd n.
      destruct (choice_index_valid (moves pa) (rnd n) Hm) as [mv' Hmv'].
      exists (after_attack (reseed rnd n w) pa pd d mv').
      split; [apply attack_opponent_run; assumption | reflexivity]. }
  split; [| split; [| exact Hsome]].
  - split.
    + intros (e & w' & Hr). destruct (moves pa) as [| m ms] eqn:Em; [reflexivity |].
      destruct Hsome as (w1 & mv & Hrun & _); [discriminate |]. congruence.
    + intros Hm. eexists _, _. apply attack_opponent_unarmed; eassumption.
  - intros Hm. eexists. split; [apply attack_opponent_unarmed; eassumption |].
    reflexivity.
Qed.

Lemma attack_fails_iff_no_moves_witness :
  (pokes sample_world !! 2%nat = Some magikarp /\
   pokes sample_world !! 0%nat = Some pikachu) /\
  ((exists e w', attack_opponent 2 0 sample_world = Raise e w') <->
   moves magikarp = []).
Proof.
  split; [split; reflexivity |].
  apply (attack_fails_iff_no_moves sample_world 2%nat 0%nat magikarp pikachu);
    reflexivity.
Defined.

Example attack_magikarp_raises :
  attack_opponent 2 0 sample_world =
    Raise IndexError
      (emit (DebugCalling "attack_opponent" [VPokemon magikarp; VPokemon pikachu])
         sample_world).
Proof. reflexivity. Qed.

(** ** One round of the battle *)

Lemma attack_opponent_cases w a d pa pd :
  pokes w !! a = Some pa -> pokes w !! d = Some pd ->
  (moves pa = [] /\
   attack_opponent a d w =
     Raise IndexError
       (emit (DebugCalling "attack_opponent" [VPokemon pa; VPokemon pd]) w)) \/
  (exists mv, mv ∈ moves pa /\
     attack_opponent a d w = Ret tt (after_attack w pa pd d mv)).
Proof.
  intros Ha Hd. destruct (moves pa) as [| m ms] eqn:Em.
  - left. split; [reflexivity |]. apply attack_opponent_unarmed; assumption.
  - right.
    destruct (choice_index_valid (moves pa) (entropy w (draws w))) as [mv Hmv];
      [rewrite Em; discriminate |].
    exists mv. split.
    + rewrite <- Em. eapply list_elem_of_lookup_2. exact Hmv.
    + apply attack_opponent_run; assumption.
Qed.

Lemma battle_round_run w l1 l2 p1 p2 :
  pokes w !! l1 = Some p1 -> pokes w !! l2 = Some p2 ->
  battle_round l1 l2 w =
    exchange (first_of l1 l2 p1 p2) (second_of l1 l2 p1 p2) w.
Proof.
  intros H1 H2. unfold battle_round, first_of, second_of.
  rewrite (bind_Ret _ _ _ _ _ (deref_run _ _ _ H1)).
  rewrite (bind_Ret _ _ _ _ _ (deref_run _ _ _ H2)).
  destruct (speed p1 >=? speed p2); reflexivity.
Qed.

Lemma battle_loop_unfold fuel w l1 l2 p1 p2 :
  pokes w !! l1 = Some p1 -> pokes w !! l2 = Some p2 ->
  battle_loop fuel l1 l2 w =
    if (hp p1 >? 0) && (hp p2 >? 0) then
      match fuel with
      | O => Timeout
      | S fuel' =>
          (f ← battle_round l1 l2;
           match f with
           | Break => mret tt
           | Continue => battle_loop fuel' l1 l2
           end) w
      end
    else Ret tt w.
Proof.
  intros H1 H2. destruct fuel as [| fuel]; cbn [battle_loop];
    rewrite (bind_Ret _ _ _ _ _ (deref_run _ _ _ H1));
    rewrite (bind_Ret _ _ _ _ _ (deref_run _ _ _ H2));
    destruct ((hp p1 >? 0) && (hp p2 >? 0)); reflexivity.
Qed.

(** The outcome of an exchange between two Pokemon that can both still
    fight.  The two locations may be the same object. *)
Lemma exchange_spec w f s pf ps :
  pokes w !! f = Some pf -> pokes w !! s = Some ps ->
  0 < hp pf -> 0 < hp ps ->
  match exchange f s w with
  | Ret fl w' =>
      exists rf rs,
        pokes w' !! f = Some rf /\ pokes w' !! s = Some rs /\
        0 <= hp rf /\ 0 <= hp rs /\
        hp rf + hp rs < hp pf + hp ps /\
        (f <> s ->
           (fl = Break -> hp rf = hp pf /\ hp rs = 0) /\
           (fl = Continue -> 0 < hp rs))
  | Raise e w' => e = IndexError /\ (moves pf = [] \/ moves ps = [])
  | Wrong | Timeout => False
  end.
Proof.
  intros Hf Hs Hpf Hps. unfold exchange.
  pose proof (attack_damage_pos pf ps) as Hd1.
  destruct (attack_opponent_cases w f s pf ps Hf Hs) as [[Hm Hr] | (mv & _ & Hr)].
  { rewrite (bind_Raise _ _ _ _ _ Hr). auto. }
  rewrite (bind_Ret _ _ _ _ _ Hr).
  set (w1 := after_attack w pf ps s mv).
  set (ps1 := set_hp (Z.max (hp ps - attack_damage pf ps) 0) ps).
  assert (Hs1 : pokes w1 !! s = Some ps1) by (cbn; apply lookup_insert_eq).
  rewrite (bind_Ret _ _ _ _ _ (deref_run _ _ _ Hs1)).
  destruct (decide (f = s)) as [-> | Hne].
  - (* a Pokemon fighting itself *)
    assert (pf = ps) by congruence. subst pf.
    destruct (hp ps1 <=? 0) eqn:Ehp.
    + cbn. exists ps1, ps1. cbn in *. repeat split; try assumption; lia.
    + apply Z.leb_gt in Ehp.
      pose proof (attack_damage_pos ps1 ps1) as Hd2.
      destruct (attack_opponent_cases w1 s s ps1 ps1 Hs1 Hs1)
        as [[Hm Hr2] | (mv2 & _ & Hr2)].
      { rewrite (bind_Raise _ _ _ _ _ Hr2). auto. }
      rewrite (bind_Ret _ _ _ _ _ Hr2). cbn.
      rewrite lookup_insert_eq. eexists _, _.
      split; [reflexivity |]. split; [reflexivity |].
      cbn in *. repeat split; lia.
  - assert (Hf1 : pokes w1 !! f = Some pf)
      by (cbn; rewrite lookup_insert_ne by congruence; exact Hf).
    destruct (hp ps1 <=? 0) eqn:Ehp.
    + apply Z.leb_le in Ehp. cbn. exists pf, ps1. cbn in *.
      repeat split; try assumption; try lia; intros; discriminate.
    + apply Z.leb_gt in Ehp.
      pose proof (attack_damage_pos ps1 pf) as Hd2.
      destruct (attack_opponent_cases w1 s f ps1 pf Hs1 Hf1)
        as [[Hm Hr2] | (mv2 & _ & Hr2)].
      { rewrite (bind_Raise _ _ _ _ _ Hr2). auto. }
      rewrite (bind_Ret _ _ _ _ _ Hr2). cbn.
      rewrite lookup_insert_eq.
      rewrite lookup_insert_ne by congruence. rewrite lookup_insert_eq.
      eexists _, _. split; [reflexivity |]. split; [reflexivity |].
      cbn in *. repeat split; try lia; intros; discriminate.
Qed.

Lemma battle_round_spec w l1 l2 p1 p2 :
  pokes w !! l1 = Some p1 -> pokes w !! l2 = Some p2 ->
  0 < hp p1 -> 0 < hp p2 ->
  match battle_round l1 l2 w with
  | Ret fl w' =>
      exists r1 r2,
        pokes w' !! l1 = Some r1 /\ pokes w' !! l2 = Some r2 /\
        0 <= hp r1 /\ 0 <= hp r2 /\
        hp r1 + hp r2 < hp p1 + hp p2 /\
        (l1 <> l2 ->
           (fl = Break ->
              (0 < hp r1 /\ hp r2 = 0) \/ (hp r1 = 0 /\ 0 < hp r2)) /\
           (fl = Continue -> 0 < hp r1 \/ 0 < hp r2))
  | Raise e w' => e = IndexError /\ (moves p1 = [] \/ moves p2 = [])
  | Wrong | Timeout => False
  end.
Proof.
  intros H1 H2 Hp1 Hp2. rewrite (battle_round_run w l1 l2 p1 p2 H1 H2).
  unfold first_of, second_of. destruct (speed p1 >=? speed p2).
  - pose proof (exchange_spec w l1 l2 p1 p2 H1 H2 Hp1 Hp2) as He.
    destruct (exchange l1 l2 w) as [fl w' | e w' | |]; try exact He.
    + destruct He as (r1 & r2 & Hr1 & Hr2 & Hn1 & Hn2 & Hlt & Hd).
      exists r1, r2. repeat split; try assumption.
      * intros HB. left. destruct (Hd H) as [HdB _]. specialize (HdB HB). lia.
      * intros HC. right. destruct (Hd H) as [_ HdC]. exact (HdC HC).
  - pose proof (exchange_spec w l2 l1 p2 p1 H2 H1 Hp2 Hp1) as He.
    destruct (exchange l2 l1 w) as [fl w' | e w' | |]; try exact He.
    + destruct He as (r2 & r1 & Hr2 & Hr1 & Hn2 & Hn1 & Hlt & Hd).
      exists r1, r2. repeat split; try assumption; try lia.
      * intros HB. right. destruct (Hd (not_eq_sym H)) as [HdB _].
        specialize (HdB HB). lia.
      * intros HC. left. destruct (Hd (not_eq_sym H)) as [_ HdC]. exact (HdC HC).
    + destruct He as [-> [Hm | Hm]]; auto.
Qed.

(** ** The loop ends *)

Lemma battle_loop_ends l1 l2 fuel :
  forall w p1 p2,
    pokes w !! l1 = Some p1 -> pokes w !! l2 = Some p2 ->
    (Z.to_nat (hp p1 + hp p2) <= fuel)%nat ->
    ended (battle_loop fuel l1 l2 w).
Proof.
  induction fuel as [| fuel IH]; intros w p1 p2 H1 H2 Hfuel;
    rewrite (battle_loop_unfold _ w l1 l2 p1 p2 H1 H2);
    destruct (hp p1 >? 0) eqn:E1; try exact I;
    destruct (hp p2 >? 0) eqn:E2; try exact I; cbn [andb];
    apply Z.gtb_lt in E1; apply Z.gtb_lt in E2.
  - lia.
  - pose proof (battle_round_spec w l1 l2 p1 p2 H1 H2 E1 E2) as Hr.
    unfold_M. destruct (battle_round l1 l2 w) as [fl w' | e w' | |];
      try contradiction.
    + destruct Hr as (r1 & r2 & Hr1 & Hr2 & _ & _ & Hlt & _).
      destruct fl; [| exact I]. apply (IH w' r1 r2 Hr1 Hr2). lia.
    + exact (proj1 Hr).
Qed.

(** ** The whole battle *)

Lemma battle_run fuel w self l1 l2 p1 p2 :
  pokes w !! l1 = Some p1 -> pokes w !! l2 = Some p2 ->
  battle fuel self l1 l2 w =
    match battle_loop fuel l1 l2 (battle_start w self p1 p2) with
    | Ret _ w1 =>
        match pokes w1 !! l1, pokes w1 !! l2, arenas w1 !! self with
        | Some r1, Some r2, Some a =>
            let wn := name (if hp r1 >? 0 then r1 else r2) in
            Ret wn (after_battle w1 self a (name r1) (name r2) wn)
        | _, _, _ => Wrong
        end
    | Raise e w1 => Raise e w1
    | Wrong => Wrong
    | Timeout => Timeout
    end.
Proof.
  intros H1 H2. unfold battle, battle_body, log_action, deref, history_append.
  unfold_M. repeat first [rewrite H1 | rewrite H2 | progress cbn].
  fold (battle_start w self p1 p2).
  destruct (battle_loop fuel l1 l2 (battle_start w self p1 p2))
    as [[] w1 | e w1 | |]; try reflexivity.
  destruct (pokes w1 !! l1) as [r1 |] eqn:E1; [| reflexivity].
  destruct (pokes w1 !! l2) as [r2 |] eqn:E2;
    [| destruct (hp r1 >? 0); cbn; rewrite ?E1, ?E2; cbn; rewrite ?E2; reflexivity].
  destruct (arenas w1 !! self) as [a |] eqn:Ea;
    destruct (hp r1 >? 0);
    repeat first [rewrite E1 | rewrite E2 | rewrite Ea | progress cbn];
    reflexivity.
Qed.

Lemma battle_loop_frame fuel l1 l2 : preserves loop_frame (battle_loop fuel l1 l2).
Proof.
  apply preserves_battle_loop.
  - intros w. split; [apply only_hp_differs_refl | reflexivity].
  - intros w1 w2 w3 [Ha Hb] [Hc Hd]. split.
    + eapply only_hp_differs_trans; eassumption.
    + congruence.
  - intros e w. split; [apply only_hp_differs_same_pokes |]; reflexivity.
  - intros n w. split; [apply only_hp_differs_same_pokes |]; reflexivity.
  - intros l p v w Hl. split; [apply only_hp_differs_set_hp, Hl | reflexivity].
Qed.

Lemma battle_loop_more_fuel l1 l2 fuel :
  forall w fuel',
    (fuel <= fuel')%nat ->
    battle_loop fuel l1 l2 w <> Timeout ->
    battle_loop fuel' l1 l2 w = battle_loop fuel l1 l2 w.
Proof.
  induction fuel as [| fuel IH]; intros w fuel' Hle Hnt.
  - destruct fuel' as [| fuel']; [reflexivity |].
    revert Hnt. cbn [battle_loop]. unfold_M.
    destruct (deref l1 w) as [p1 w1 | | |]; try reflexivity.
    destruct (deref l2 w1) as [p2 w2 | | |]; try reflexivity.
    destruct ((hp p1 >? 0) && (hp p2 >? 0)); [| reflexivity].
    intros Hnt. elim Hnt. reflexivity.
  - destruct fuel' as [| fuel']; [lia |].
    revert Hnt. cbn [battle_loop]. unfold_M.
    destruct (deref l1 w) as [p1 w1 | | |]; try reflexivity.
    destruct (deref l2 w1) as [p2 w2 | | |]; try reflexivity.
    destruct ((hp p1 >? 0) && (hp p2 >? 0)); [| reflexivity].
    destruct (battle_round l1 l2 w2) as [[] w3 | | |]; try reflexivity.
    intros Hnt. apply IH; [lia | exact Hnt].
Qed.

Lemma battle_loop_keeps fuel l1 l2 w w1 u l p :
  battle_loop fuel l1 l2 w = Ret u w1 ->
  pokes w !! l = Some p ->
  arenas w1 = arenas w /\
  exists r, pokes w1 !! l = Some r /\ static r = static p.
Proof.
  intros Hrun Hl. pose proof (battle_loop_frame fuel l1 l2 w) as Hf.
  rewrite Hrun in Hf. destruct Hf as [Hs Ha]. split; [exact Ha |].
  eapply static_kept; eassumption.
Qed.

(** C2: a battle between two Pokemon with positive hp ends, by returning
    or with the error of an attacker without moves: a pass through the
    loop body that completes leaves the sum of the two hp strictly
    smaller, so no more passes than that sum are needed. *)
Theorem battle_terminates (w : World) (self l1 l2 : loc) (a : BattleArena)
    (p1 p2 : Pokemon) :
  arenas w !! self = Some a ->
  pokes w !! l1 = Some p1 ->
  pokes w !! l2 = Some p2 ->
  0 < hp p1 ->
  0 < hp p2 ->
  (forall w0 q1 q2 fl w0',
     pokes w0 !! l1 = Some q1 -> pokes w0 !! l2 = Some q2 ->
     0 < hp q1 -> 0 < hp q2 ->
     battle_round l1 l2 w0 = Ret fl w0' ->
     exists r1 r2, pokes w0' !! l1 = Some r1 /\ pokes w0' !! l2 = Some r2 /\
                   hp r1 + hp r2 < hp q1 + hp q2) /\
  forall fuel, (Z.to_nat (hp p1 + hp p2) <= fuel)%nat ->
    (exists n w', battle fuel self l1 l2 w = Ret n w') \/
    (exists w', battle fuel self l1 l2 w = Raise IndexError w').
Proof.
  intros Ha H1 H2 Hp1 Hp2. split.
  - intros w0 q1 q2 fl w0' Hq1 Hq2 Hh1 Hh2 Hrun.
    pose proof (battle_round_spec w0 l1 l2 q1 q2 Hq1 Hq2 Hh1 Hh2) as Hr.
    rewrite Hrun in Hr. destruct Hr as (r1 & r2 & Hr1 & Hr2 & _ & _ & Hlt & _).
    exists r1, r2. auto.
  - intros fuel Hfuel. rewrite (battle_run fuel w self l1 l2 p1 p2 H1 H2).
    pose proof (battle_loop_ends l1 l2 fuel (battle_start w self p1 p2) p1 p2
                  H1 H2 Hfuel) as Hend.
    destruct (battle_loop fuel l1 l2 (battle_start w self p1 p2))
      as [u w1 | e w1 | |] eqn:Hloop; try contradiction.
    + left.
      destruct (battle_loop_keeps _ _ _ _ _ _ l1 p1 Hloop H1) as (Har & r1 & -> & _).
      destruct (battle_loop_keeps _ _ _ _ _ _ l2 p2 Hloop H2) as (_ & r2 & -> & _).
      rewrite Har. cbn. rewrite Ha. eexists _, _. reflexivity.
    + right. cbn in Hend. subst e. eexists. reflexivity.
Qed.

Lemma battle_terminates_witness :
  (arenas sample_world !! 0%nat = Some (mkArena []) /\
   pokes sample_world !! 0%nat = Some pikachu /\
   pokes sample_world !! 1%nat = Some charmander /\
   0 < hp pikachu /\ 0 < hp charmander) /\
  forall fuel, (Z.to_nat (hp pikachu + hp charmander) <= fuel)%nat ->
    (exists n w', battle fuel 0 0 1 sample_world = Ret n w') \/
    (exists w', battle fuel 0 0 1 sample_world = Raise IndexError w').
Proof.
  split.
  - split; [reflexivity |]. split; [reflexivity |]. split; [reflexivity |].
    split; reflexivity.
  - apply (battle_terminates sample_world 0%nat 0%nat 1%nat (mkArena [])
             pikachu charmander); reflexivity.
Defined.

(** ** Who wins *)

Lemma battle_loop_decides l1 l2 fuel :
  l1 <> l2 ->
  forall w p1 p2,
    pokes w !! l1 = Some p1 -> pokes w !! l2 = Some p2 ->
    moves p1 <> [] -> moves p2 <> [] ->
    0 <= hp p1 -> 0 <= hp p2 -> 0 < hp p1 \/ 0 < hp p2 ->
    (Z.to_nat (hp p1 + hp p2) <= fuel)%nat ->
    exists w' r1 r2,
      battle_loop fuel l1 l2 w = Ret tt w' /\
      pokes w' !! l1 = Some r1 /\ pokes w' !! l2 = Some r2 /\
      one_survivor r1 r2.
Proof.
  intros Hne. induction fuel as [| fuel IH];
    intros w p1 p2 H1 H2 Hm1 Hm2 Hn1 Hn2 Halive Hfuel;
    rewrite (battle_loop_unfold _ w l1 l2 p1 p2 H1 H2);
    destruct (Z.gtb_spec (hp p1) 0) as [E1 | E1];
    destruct (Z.gtb_spec (hp p2) 0) as [E2 | E2]; cbn [andb];
    try (exists w, p1, p2; repeat split; try assumption;
         unfold one_survivor; lia).
  - pose proof (battle_round_spec w l1 l2 p1 p2 H1 H2 E1 E2) as Hr.
    pose proof (preserves_battle_round only_hp_differs only_hp_differs_refl
                  only_hp_differs_trans
                  (fun e w => only_hp_differs_same_pokes w _ eq_refl)
                  (fun n w => only_hp_differs_same_pokes w _ eq_refl)
                  only_hp_differs_set_hp l1 l2 w) as Hst.
    unfold_M. destruct (battle_round l1 l2 w) as [fl w' | e w' | |];
      try contradiction.
    + destruct Hr as (r1 & r2 & Hr1 & Hr2 & Hn1' & Hn2' & Hlt & Hd).
      destruct (Hd Hne) as [HB HC].
      destruct fl.
      * destruct (static_kept _ _ _ _ Hst H1) as (r1' & Hr1' & Hs1).
        destruct (static_kept _ _ _ _ Hst H2) as (r2' & Hr2' & Hs2).
        assert (r1' = r1) by congruence. assert (r2' = r2) by congruence.
        subst r1' r2'. unfold static in Hs1, Hs2.
        apply (IH w' r1 r2 Hr1 Hr2); try assumption; try congruence.
        -- exact (HC eq_refl).
        -- lia.
      * exists w', r1, r2. repeat split; try assumption. exact (HB eq_refl).
    + destruct Hr as [_ [Hm | Hm]]; contradiction.
Qed.

(** C3, as the code has it: a battle between two different Pokemon objects
    that both have a move and positive hp returns; when it does exactly
    one of the two has hp above 0, and the name returned is that one's,
    which is the name one of the two had when the battle started. *)
Theorem battle_returns_survivor (w : World) (self l1 l2 : loc)
    (a : BattleArena) (p1 p2 : Pokemon) :
  arenas w !! self = Some a ->
  pokes w !! l1 = Some p1 ->
  pokes w !! l2 = Some p2 ->
  l1 <> l2 ->
  moves p1 <> [] ->
  moves p2 <> [] ->
  0 < hp p1 ->
  0 < hp p2 ->
  exists n w' r1 r2,
    (forall fuel, (Z.to_nat (hp p1 + hp p2) <= fuel)%nat ->
       battle fuel self l1 l2 w = Ret n w') /\
    pokes w' !! l1 = Some r1 /\ pokes w' !! l2 = Some r2 /\
    ((0 < hp r1 /\ hp r2 = 0 /\ n = name r1) \/
     (hp r1 = 0 /\ 0 < hp r2 /\ n = name r2)) /\
    name r1 = name p1 /\ name r2 = name p2 /\
    (n = name p1 \/ n = name p2).
Proof.
  intros Ha H1 H2 Hne Hm1 Hm2 Hp1 Hp2.
  set (fuel0 := Z.to_nat (hp p1 + hp p2)).
  destruct (battle_loop_decides l1 l2 fuel0 Hne (battle_start w self p1 p2) p1 p2
              H1 H2 Hm1 Hm2 ltac:(lia) ltac:(lia) ltac:(lia) ltac:(lia))
    as (w1 & r1 & r2 & Hloop & Hr1 & Hr2 & Hone).
  destruct (battle_loop_keeps _ _ _ _ _ _ l1 p1 Hloop H1) as (Har & r1' & Hr1' & Hs1).
  destruct (battle_loop_keeps _ _ _ _ _ _ l2 p2 Hloop H2) as (_ & r2' & Hr2' & Hs2).
  assert (r1' = r1) by congruence. assert (r2' = r2) by congruence.
  subst r1' r2'. unfold static in Hs1, Hs2.
  assert (Hn1 : name r1 = name p1) by congruence.
  assert (Hn2 : name r2 = name p2) by congruence.
  set (wn := name (if hp r1 >? 0 then r1 else r2)).
  exists wn, (after_battle w1 self a (name r1) (name r2) wn), r1, r2.
  split.
  { intros fuel Hfuel. rewrite (battle_run fuel w self l1 l2 p1 p2 H1 H2).
    rewrite (battle_loop_more_fuel l1 l2 fuel0 _ fuel Hfuel)
      by (rewrite Hloop; discriminate).
    rewrite Hloop, Hr1, Hr2, Har. cbn. rewrite Ha. reflexivity. }
  split; [exact Hr1 |]. split; [exact Hr2 |].
  assert (Hwho : (0 < hp r1 /\ hp r2 = 0 /\ wn = name r1) \/
                 (hp r1 = 0 /\ 0 < hp r2 /\ wn = name r2)).
  { unfold wn. destruct Hone as [[Hx Hy] | [Hx Hy]].
    - left. replace (hp r1 >? 0) with true by (symmetry; apply Z.gtb_lt; lia).
      auto.
    - right. replace (hp r1 >? 0) with false
        by (symmetry; rewrite Z.gtb_ltb; apply Z.ltb_ge; lia).
      auto. }
  split; [exact Hwho |]. split; [exact Hn1 |]. split; [exact Hn2 |].
  destruct Hwho as [(_ & _ & ->) | (_ & _ & ->)]; auto.
Qed.

Lemma battle_returns_survivor_witness :
  (arenas sample_world !! 0%nat = Some (mkArena []) /\
   pokes sample_world !! 0%nat = Some pikachu /\
   pokes sample_world !! 1%nat = Some charmander /\
   0%nat <> 1%nat /\ moves pikachu <> [] /\ moves charmander <> [] /\
   0 < hp pikachu /\ 0 < hp charmander) /\
  exists n w' r1 r2,
    (forall fuel, (Z.to_nat (hp pikachu + hp charmander) <= fuel)%nat ->
       battle fuel 0 0 1 sample_world = Ret n w') /\
    pokes w' !! 0%nat = Some r1 /\ pokes w' !! 1%nat = Some r2 /\
    ((0 < hp r1 /\ hp r2 = 0 /\ n = name r1) \/
     (hp r1 = 0 /\ 0 < hp r2 /\ n = name r2)) /\
    name r1 = name pikachu /\ name r2 = name charmander /\
    (n = name pikachu \/ n = name charmander).
Proof.
  split.
  - split; [reflexivity |]. split; [reflexivity |]. split; [reflexivity |].
    split; [discriminate |]. split; [discriminate |]. split; [discriminate |].
    split; reflexivity.
  - apply (battle_returns_survivor sample_world 0%nat 0%nat 1%nat (mkArena [])
             pikachu charmander);
      first [reflexivity | discriminate].
Defined.

(** The battle of [main] between the first two Pokemon of the roster. *)
Example battle_pikachu_charmander :
  match battle 74 0 0 1 sample_world with
  | Ret n w' => Some (n, hp <$> pokes w' !! 0%nat, hp <$> pokes w' !! 1%nat)
  | _ => None
  end = Some ("Pikachu", Some 3, Some 0).
Proof. vm_compute. reflexivity. Qed.

(** C3 as stated fails: Magikarp has positive hp and no moves; it is the
    faster of the two, attacks first, and the battle raises instead of
    returning a name. *)
Lemma battle_without_moves_raises :
  (pokes sample_world !! 2%nat = Some magikarp /\
   pokes sample_world !! 1%nat = Some charmander /\
   0 < hp magikarp /\ 0 < hp charmander) /\
  (forall fuel, ~ exists n w', battle fuel 0 2 1 sample_world = Ret n w') /\
  exists w', battle 59 0 2 1 sample_world = Raise IndexError w'.
Proof.
  split; [split; [reflexivity |]; split; [reflexivity |]; split; reflexivity |].
  split.
  - intros fuel (n & w' & H). destruct fuel; vm_compute in H; discriminate H.
  - eexists. vm_compute. reflexivity.
Qed.

(** A Pokemon sent to battle itself: the loop ends with the one object at
    hp 0, so neither argument has hp above 0. *)
Example battle_against_itself :
  match battle 70 0 0 0 sample_world with
  | Ret n w' => Some (n, hp <$> pokes w' !! 0%nat)
  | _ => None
  end = Some ("Pikachu", Some 0).
Proof. vm_compute. reflexivity. Qed.

(** ** The order of attacks *)

Lemma battle_loop_exchange fuel w l1 l2 p1 p2 :
  pokes w !! l1 = Some p1 -> pokes w !! l2 = Some p2 ->
  0 < hp p1 -> 0 < hp p2 ->
  battle_loop (S fuel) l1 l2 w =
    (f ← exchange (first_of l1 l2 p1 p2) (second_of l1 l2 p1 p2);
     match f with
     | Break => mret tt
     | Continue => battle_loop fuel l1 l2
     end) w.
Proof.
  intros H1 H2 Hp1 Hp2. rewrite (battle_loop_unfold _ w l1 l2 p1 p2 H1 H2).
  destruct (Z.gtb_spec (hp p1) 0); [| lia].
  destruct (Z.gtb_spec (hp p2) 0); [| lia]. cbn [andb].
  unfold_M. rewrite (battle_round_run w l1 l2 p1 p2 H1 H2). reflexivity.
Qed.

(** C4: in a pass through the loop with both Pokemon at positive hp, the
    one whose speed is at least the other's attacks first, the first
    argument on equal speed.  If that attack raises, so does the loop.  If
    it leaves the defender at hp 0, the loop is over in that very state,
    with no counter-attack.  Otherwise the defender attacks back, and only
    then is the loop condition looked at again. *)
Theorem faster_attacks_first (fuel : nat) (w : World) (l1 l2 : loc)
    (p1 p2 : Pokemon) :
  pokes w !! l1 = Some p1 ->
  pokes w !! l2 = Some p2 ->
  0 < hp p1 ->
  0 < hp p2 ->
  exists first second pf ps,
    pokes w !! first = Some pf /\ pokes w !! second = Some ps /\
    speed pf >= speed ps /\
    ((speed p1 >= speed p2 /\ first = l1 /\ second = l2) \/
     (speed p1 < speed p2 /\ first = l2 /\ second = l1)) /\
    ((exists w1, attack_opponent first second w = Raise IndexError w1) \/
     (exists w1 s1, attack_opponent first second w = Ret tt w1 /\
                    pokes w1 !! second = Some s1)) /\
    (forall e w1,
       attack_opponent first second w = Raise e w1 ->
       battle_loop (S fuel) l1 l2 w = Raise e w1) /\
    (forall w1 s1,
       attack_opponent first second w = Ret tt w1 ->
       pokes w1 !! second = Some s1 ->
       hp s1 <= 0 ->
       hp s1 = 0 /\ battle_loop (S fuel) l1 l2 w = Ret tt w1) /\
    (forall w1 s1,
       attack_opponent first second w = Ret tt w1 ->
       pokes w1 !! second = Some s1 ->
       0 < hp s1 ->
       battle_loop (S fuel) l1 l2 w =
         (attack_opponent second first;; battle_loop fuel l1 l2) w1).
Proof.
  intros H1 H2 Hp1 Hp2.
  pose proof (battle_loop_exchange fuel w l1 l2 p1 p2 H1 H2 Hp1 Hp2) as Hloop.
  assert (Hgen : forall first second pf ps,
    pokes w !! first = Some pf -> pokes w !! second = Some ps ->
    battle_loop (S fuel) l1 l2 w =
      (f ← exchange first second;
       match f with Break => mret tt | Continue => battle_loop fuel l1 l2 end) w ->
    ((exists w1, attack_opponent first second w = Raise IndexError w1) \/
     (exists w1 s1, attack_opponent first second w = Ret tt w1 /\
                    pokes w1 !! second = Some s1)) /\
    (forall e w1,
       attack_opponent first second w = Raise e w1 ->
       battle_loop (S fuel) l1 l2 w = Raise e w1) /\
    (forall w1 s1,
       attack_opponent first second w = Ret tt w1 ->
       pokes w1 !! second = Some s1 ->
       hp s1 <= 0 ->
       hp s1 = 0 /\ battle_loop (S fuel) l1 l2 w = Ret tt w1) /\
    (forall w1 s1,
       attack_opponent first second w = Ret tt w1 ->
       pokes w1 !! second = Some s1 ->
       0 < hp s1 ->
       battle_loop (S fuel) l1 l2 w =
         (attack_opponent second first;; battle_loop fuel l1 l2) w1)).
  { intros first second pf ps Hf Hs ->. unfold exchange. split; [| split; [| split]].
    - destruct (attack_opponent_cases w first second pf ps Hf Hs)
        as [[_ Hr] | (mv & _ & Hr)].
      + left. eexists. exact Hr.
      + right. eexists _, _. split; [exact Hr |]. cbn. apply lookup_insert_eq.
    - intros e w1 Hr. unfold_M. rewrite Hr. reflexivity.
    - intros w1 s1 Hr Hs1 Hle.
      destruct (attack_opponent_cases w first second pf ps Hf Hs)
        as [[_ Hr'] | (mv & _ & Hr')]; [congruence |].
      assert (w1 = after_attack w pf ps second mv) by congruence. subst w1.
      cbn in Hs1. rewrite lookup_insert_eq in Hs1.
      injection Hs1 as <-. cbn in Hle |- *. split; [lia |].
      unfold_M. rewrite Hr'. unfold deref. cbn. rewrite lookup_insert_eq. cbn.
      destruct (Z.leb_spec (Z.max (hp ps - attack_damage pf ps) 0) 0);
        [reflexivity | lia].
    - intros w1 s1 Hr Hs1 Hlt. unfold_M. rewrite Hr. unfold deref.
      rewrite Hs1. destruct (Z.leb_spec (hp s1) 0); [lia |].
      destruct (attack_opponent second first w1) as [[] w2 | | |]; reflexivity. }
  unfold first_of, second_of in Hloop.
  destruct (Z.geb_spec (speed p1) (speed p2)) as [Hge | Hlt].
  - exists l1, l2, p1, p2. split; [exact H1 |]. split; [exact H2 |].
    split; [lia |]. split; [left; repeat split; lia |].
    apply (Hgen l1 l2 p1 p2 H1 H2 Hloop).
  - exists l2, l1, p2, p1. split; [exact H2 |]. split; [exact H1 |].
    split; [lia |]. split; [right; repeat split; lia |].
    apply (Hgen l2 l1 p2 p1 H2 H1 Hloop).
Qed.

Lemma faster_attacks_first_witness :
  (pokes sample_world !! 0%nat = Some pikachu /\
   pokes sample_world !! 1%nat = Some charmander /\
   0 < hp pikachu /\ 0 < hp charmander) /\
  exists first second pf ps,
    pokes sample_world !! first = Some pf /\
    pokes sample_world !! second = Some ps /\
    speed pf >= speed ps /\
    ((speed pikachu >= speed charmander /\ first = 0%nat /\ second = 1%nat) \/
     (speed pikachu < speed charmander /\ first = 1%nat /\ second = 0%nat)) /\
    ((exists w1, attack_opponent first second sample_world = Raise IndexError w1) \/
     (exists w1 s1, attack_opponent first second sample_world = Ret tt w1 /\
                    pokes w1 !! second = Some s1)) /\
    (forall e w1,
       attack_opponent first second sample_world = Raise e w1 ->
       battle_loop 3 0 1 sample_world = Raise e w1) /\
    (forall w1 s1,
       attack_opponent first second sample_world = Ret tt w1 ->
       pokes w1 !! second = Some s1 ->
       hp s1 <= 0 ->
       hp s1 = 0 /\ battle_loop 3 0 1 sample_world = Ret tt w1) /\
    (forall w1 s1,
       attack_opponent first second sample_world = Ret tt w1 ->
       pokes w1 !! second = Some s1 ->
       0 < hp s1 ->
       battle_loop 3 0 1 sample_world =
         (attack_opponent second first;; battle_loop 2 0 1) w1).
Proof.
  split.
  - split; [reflexivity |]. split; [reflexivity |]. split; reflexivity.
  - apply (faster_attacks_first 2 sample_world 0%nat 1%nat pikachu charmander);
      reflexivity.
Defined.

(** ** The battle history *)

(** C6: a battle that returns has appended one record to the history of
    its arena, holding the names of the two Pokemon and the name returned;
    what the history held before is still there, in front of it, and every
    other arena is as it was. *)
Theorem battle_appends_one_record (fuel : nat) (w w' : World)
    (self l1 l2 : loc) (a : BattleArena) (p1 p2 : Pokemon) (n : string) :
  arenas w !! self = Some a ->
  pokes w !! l1 = Some p1 ->
  pokes w !! l2 = Some p2 ->
  battle fuel self l1 l2 w = Ret n w' ->
  exists a',
    arenas w' !! self = Some a' /\
    history a' = history a ++
      [[("pkmn1", name p1); ("pkmn2", name p2); ("winner", n)]] /\
    length (history a') = S (length (history a)) /\
    (forall i, (i < length (history a))%nat -> history a' !! i = history a !! i) /\
    (forall other, other <> self -> arenas w' !! other = arenas w !! other).
Proof.
  intros Ha H1 H2 Hrun.
  rewrite (battle_run fuel w self l1 l2 p1 p2 H1 H2) in Hrun.
  destruct (battle_loop fuel l1 l2 (battle_start w self p1 p2))
    as [u w1 | e w1 | |] eqn:Hloop; try discriminate Hrun.
  destruct (battle_loop_keeps _ _ _ _ _ _ l1 p1 Hloop H1) as (Har & r1 & Hr1 & Hs1).
  destruct (battle_loop_keeps _ _ _ _ _ _ l2 p2 Hloop H2) as (_ & r2 & Hr2 & Hs2).
  rewrite Hr1, Hr2, Har in Hrun. cbn in Hrun. rewrite Ha in Hrun.
  injection Hrun as Hn Hw'. subst w'. unfold static in Hs1, Hs2.
  assert (Hn1 : name r1 = name p1) by congruence.
  assert (Hn2 : name r2 = name p2) by congruence.
  rewrite Hn1, Hn2, Hn. cbn. rewrite lookup_insert_eq.
  eexists. split; [reflexivity |]. cbn. split; [reflexivity |].
  split; [rewrite length_app; cbn; lia |]. split.
  - intros i Hi. apply lookup_app_l. exact Hi.
  - intros other Hother. rewrite Har. cbn.
    apply lookup_insert_ne. congruence.
Qed.

Lemma battle_appends_one_record_witness :
  (arenas sample_world !! 0%nat = Some (mkArena []) /\
   pokes sample_world !! 0%nat = Some pikachu /\
   pokes sample_world !! 1%nat = Some charmander /\
   battle 74 0 0 1 sample_world = Ret "Pikachu" world_after_first_battle) /\
  exists a',
    arenas world_after_first_battle !! 0%nat = Some a' /\
    history a' = history (mkArena []) ++
      [[("pkmn1", name pikachu); ("pkmn2", name charmander);
        ("winner", "Pikachu")]] /\
    length (history a') = S (length (history (mkArena []))) /\
    (forall i, (i < length (history (mkArena [])))%nat ->
               history a' !! i = history (mkArena []) !! i) /\
    (forall other, other <> 0%nat ->
       arenas world_after_first_battle !! other = arenas sample_world !! other).
Proof.
  split.
  - split; [reflexivity |]. split; [reflexivity |]. split; [reflexivity |].
    vm_compute. reflexivity.
  - apply (battle_appends_one_record 74 sample_world world_after_first_battle
             0%nat 0%nat 1%nat (mkArena []) pikachu charmander "Pikachu");
      [reflexivity | reflexivity | reflexivity | vm_compute; reflexivity].
Defined.

(** ** Sorting and grouping by a string key *)

Lemma ltb_lt (a b : string) : String.ltb a b = true <-> String_as_OT.lt a b.
Proof.
  unfold String.ltb. rewrite <- String_as_OT.cmp_lt. unfold String_as_OT.cmp.
  destruct (String.compare a b); split; congruence.
Qed.

Lemma ltb_irrefl (a : string) : String.ltb a a = false.
Proof.
  destruct (String.ltb a a) eqn:E; [| reflexivity].
  apply ltb_lt in E. elim (String_as_OT.lt_not_eq _ _ E). reflexivity.
Qed.

Lemma ltb_trans (a b c : string) :
  String.ltb a b = true -> String.ltb b c = true -> String.ltb a c = true.
Proof. rewrite !ltb_lt. apply String_as_OT.lt_trans. Qed.

Lemma ltb_trichotomy (a b : string) :
  String.ltb a b = false -> String.ltb b a = false -> a = b.
Proof.
  unfold String.ltb. rewrite (String.compare_antisym b a).
  destruct (String.compare a b) eqn:E; cbn; try discriminate.
  intros _ _. apply String.compare_eq_iff. exact E.
Qed.

Lemma ltb_asym (a b : string) : String.ltb a b = true -> String.ltb b a = false.
Proof.
  intros Hab. destruct (String.ltb b a) eqn:Hba; [| reflexivity].
  pose proof (ltb_trans _ _ _ Hab Hba) as H. rewrite ltb_irrefl in H.
  discriminate.
Qed.

Lemma not_after_trans (a b c : string) :
  not_after a b -> not_after b c -> not_after a c.
Proof.
  unfold not_after. intros Hab Hbc.
  destruct (String.ltb c a) eqn:Hca; [| reflexivity].
  destruct (String.ltb a b) eqn:E.
  - rewrite (ltb_trans _ _ _ Hca E) in Hbc. discriminate.
  - pose proof (ltb_trichotomy _ _ E Hab). subst b. congruence.
Qed.

Section Grouping.
Context {A : Type} (key : A -> string).

Lemma insert_by_perm x l : insert_by key x l ≡ₚ x :: l.
Proof.
  induction l as [| y l IH]; cbn; [reflexivity |].
  destruct (String.ltb (key y) (key x)); [| reflexivity].
  rewrite IH. apply Permutation_swap.
Qed.

Lemma sorted_perm l : sorted key l ≡ₚ l.
Proof.
  induction l as [| x l IH]; cbn; [reflexivity |].
  fold (sorted key l). rewrite insert_by_perm, IH. reflexivity.
Qed.

Lemma insert_by_sorted x l : key_sorted key l -> key_sorted key (insert_by key x l).
Proof.
  unfold key_sorted. induction l as [| y l IH]; intros Hs; cbn.
  - constructor; [constructor | constructor].
  - apply StronglySorted_inv in Hs. destruct Hs as [Hs Hy].
    destruct (String.ltb (key y) (key x)) eqn:E.
    + constructor; [apply IH, Hs |].
      rewrite insert_by_perm. constructor; [| exact Hy].
      unfold not_after. apply ltb_asym, E.
    + constructor; [constructor; assumption |].
      constructor; [exact E |].
      eapply Forall_impl; [exact Hy |]. cbn. intros z Hz.
      eapply not_after_trans; [exact E | exact Hz].
Qed.

Lemma sorted_sorted l : key_sorted key (sorted key l).
Proof.
  induction l as [| x l IH]; cbn; [constructor |].
  apply insert_by_sorted, IH.
Qed.

Lemma insert_by_stable t x l :
  filter (has_key key t) (insert_by key x l) = filter (has_key key t) (x :: l).
Proof.
  induction l as [| y l IH]; cbn; [reflexivity |].
  destruct (String.ltb (key y) (key x)) eqn:E; [| reflexivity].
  rewrite filter_cons, IH, !filter_cons. unfold has_key.
  destruct (decide (key y = t)) as [Hy | Hy];
    destruct (decide (key x = t)) as [Hx | Hx]; try reflexivity.
  rewrite Hy, Hx, ltb_irrefl in E. discriminate.
Qed.

(** The sort is stable: the elements with a given key keep their order. *)
Lemma sorted_stable t l :
  filter (has_key key t) (sorted key l) = filter (has_key key t) l.
Proof.
  induction l as [| x l IH]; cbn; [reflexivity |].
  fold (sorted key l). rewrite insert_by_stable, !filter_cons, IH. reflexivity.
Qed.

Lemma groupby_concat l : concat (map snd (groupby key l)) = l.
Proof.
  induction l as [| x l IH]; cbn; [reflexivity |].
  destruct (groupby key l) as [| [k g] groups]; cbn in *.
  - subst l. reflexivity.
  - destruct (String.eqb (key x) k); cbn; rewrite <- IH; reflexivity.
Qed.

Lemma groupby_head x l :
  exists g groups, groupby key (x :: l) = (key x, x :: g) :: groups.
Proof.
  cbn. destruct (groupby key l) as [| [k g] groups]; [eauto |].
  destruct (String.eqb_spec (key x) k) as [<- | Hne]; eauto.
Qed.

Lemma groupby_ok l : Forall (group_ok key) (groupby key l).
Proof.
  induction l as [| x l IH]; cbn; [constructor |].
  destruct (groupby key l) as [| [k g] groups].
  - constructor; [| constructor]. split; cbn; [discriminate |].
    constructor; [reflexivity | constructor].
  - apply Forall_cons in IH. destruct IH as [[Hne Hall] IH]. cbn in Hne, Hall.
    destruct (String.eqb_spec (key x) k) as [Hk | Hk].
    + constructor; [| exact IH]. split; cbn; [discriminate |].
      constructor; assumption.
    + constructor; [| constructor; [split; assumption | exact IH]].
      split; cbn; [discriminate |]. constructor; [reflexivity | constructor].
Qed.

(** On a sorted list the keys of the groups go strictly up. *)
Lemma groupby_keys_increase l :
  key_sorted key l ->
  StronglySorted (fun a b => String.ltb a b = true) (map fst (groupby key l)).
Proof.
  unfold key_sorted. induction l as [| x l IH]; intros Hs; cbn; [constructor |].
  apply StronglySorted_inv in Hs. destruct Hs as [Hs Hx].
  specialize (IH Hs).
  destruct l as [| y l]; [cbn; constructor; constructor |].
  destruct (groupby_head y l) as (g & groups & Hg).
  rewrite Hg in IH |- *. cbn in IH |- *.
  apply Forall_cons in Hx. destruct Hx as [Hxy _].
  destruct (String.eqb_spec (key x) (key y)) as [Hk | Hk]; cbn; [exact IH |].
  assert (Hlt : String.ltb (key x) (key y) = true).
  { destruct (String.ltb (key x) (key y)) eqn:E; [reflexivity |].
    elim Hk. apply ltb_trichotomy; assumption. }
  constructor; [exact IH |].
  apply StronglySorted_inv in IH. destruct IH as [_ IH].
  constructor; [exact Hlt |].
  eapply Forall_impl; [exact IH |]. cbn. intros k. apply ltb_trans, Hlt.
Qed.

Lemma increasing_NoDup (ks : list string) :
  StronglySorted (fun a b => String.ltb a b = true) ks -> NoDup ks.
Proof.
  induction 1 as [| k ks Hs IH Hk]; constructor; [| exact IH].
  intros Hin. rewrite Forall_forall in Hk. specialize (Hk k Hin).
  rewrite ltb_irrefl in Hk. discriminate.
Qed.

Lemma dict_set_fresh {V} k (v : V) d :
  k ∉ map fst d -> dict_set k v d = d ++ [(k, v)].
Proof.
  induction d as [| [k' v'] d IH]; cbn; intros Hk; [reflexivity |].
  rewrite not_elem_of_cons in Hk. destruct Hk as [Hne Hk].
  destruct (String.eqb_spec k' k) as [-> | _]; [congruence |].
  rewrite IH by exact Hk. reflexivity.
Qed.

Lemma foldl_dict_set {V} (groups acc : list (string * V)) :
  NoDup (map fst (acc ++ groups)) ->
  foldl (fun grouped '(type_, group) => dict_set type_ group grouped) acc groups
  = acc ++ groups.
Proof.
  revert acc. induction groups as [| [k g] groups IH]; intros acc Hnd; cbn.
  - rewrite app_nil_r. reflexivity.
  - assert (Hk : k ∉ map fst acc).
    { rewrite map_app in Hnd. apply NoDup_app in Hnd.
      destruct Hnd as (_ & Hdis & _). intros Hin. apply (Hdis k Hin).
      cbn. left. }
    rewrite (dict_set_fresh k g acc Hk).
    rewrite IH; rewrite <- app_assoc; [reflexivity | exact Hnd].
Qed.

Lemma dict_get_elem_of {V} t (g : V) d : dict_get t d = Some g -> (t, g) ∈ d.
Proof.
  induction d as [| [k' v'] d IH]; cbn; [discriminate |].
  destruct (String.eqb_spec k' t) as [-> | _].
  - intros [= ->]. left.
  - intros H. right. exact (IH H).
Qed.

Lemma dict_get_None {V} t (d : list (string * V)) :
  t ∉ map fst d -> dict_get t d = None.
Proof.
  induction d as [| [k' v'] d IH]; cbn; [reflexivity |].
  rewrite not_elem_of_cons. intros [Hne Hk].
  destruct (String.eqb_spec k' t); [congruence | exact (IH Hk)].
Qed.

Lemma grouped_by_groupby l :
  grouped_by key l = groupby key (sorted key l).
Proof.
  unfold grouped_by. rewrite foldl_dict_set; [reflexivity |]. cbn.
  apply increasing_NoDup, groupby_keys_increase, sorted_sorted.
Qed.

Lemma filter_all (t : string) (g : list A) :
  Forall (has_key key t) g -> filter (has_key key t) g = g.
Proof.
  induction 1 as [| x g Hx Hg IH]; [reflexivity |].
  rewrite filter_cons, IH. destruct (decide (has_key key t x)); [reflexivity | contradiction].
Qed.

Lemma filter_none (t k : string) (g : list A) :
  k <> t -> Forall (has_key key k) g -> filter (has_key key t) g = [].
Proof.
  intros Hne. induction 1 as [| x g Hx Hg IH]; [reflexivity |].
  rewrite filter_cons, IH. destruct (decide (has_key key t x)) as [Ht |]; [| reflexivity].
  unfold has_key in *. congruence.
Qed.

(** With each key once, the elements of key [t] are those of its group. *)
Lemma groups_filter (groups : list (string * list A)) t :
  NoDup (map fst groups) -> Forall (group_ok key) groups ->
  filter (has_key key t) (concat (map snd groups)) = default [] (dict_get t groups).
Proof.
  induction groups as [| [k g] groups IH]; cbn; intros Hnd Hok; [reflexivity |].
  apply NoDup_cons in Hnd. destruct Hnd as [Hk Hnd].
  apply Forall_cons in Hok. destruct Hok as [[_ Hg] Hok]. cbn in Hg.
  rewrite filter_app, (IH Hnd Hok).
  destruct (String.eqb_spec k t) as [-> | Hne].
  - rewrite (filter_all t g Hg), (dict_get_None t groups Hk). cbn.
    apply app_nil_r.
  - rewrite (filter_none t k g Hne Hg). reflexivity.
Qed.

(** The dict that [group_by_type] builds: the group of a type is there
    exactly when some element has the type, and holds the elements of that
    type in the order of the sorted list. *)
Lemma grouped_by_spec l t g :
  dict_get t (grouped_by key l) = Some g <->
  g <> [] /\ g = filter (has_key key t) (sorted key l).
Proof.
  rewrite grouped_by_groupby.
  pose proof (groupby_ok (sorted key l)) as Hok.
  pose proof (increasing_NoDup _
                (groupby_keys_increase _ (sorted_sorted l))) as Hnd.
  pose proof (groups_filter _ t Hnd Hok) as Hf.
  rewrite groupby_concat in Hf. split.
  - intros Hget. rewrite Hget in Hf. cbn in Hf. split; [| congruence].
    apply dict_get_elem_of in Hget. rewrite Forall_forall in Hok.
    exact (proj1 (Hok _ Hget)).
  - intros [Hne ->]. rewrite Hf in Hne |- *.
    destruct (dict_get t (groupby key (sorted key l))); [reflexivity |].
    elim Hne. reflexivity.
Qed.
End Grouping.

(** ** Grouping the roster *)

Lemma deref_all_run w roster :
  Forall (fun l => is_Some (pokes w !! l)) roster ->
  exists ps, deref_all roster w = Ret ps w.
Proof.
  induction 1 as [| l roster [p Hl] _ [ps IH]]; cbn.
  - eexists. reflexivity.
  - exists (p :: ps). unfold_M. rewrite (deref_run w l p Hl), IH. reflexivity.
Qed.

Lemma group_by_type_run w roster :
  Forall (fun l => is_Some (pokes w !! l)) roster ->
  exists w', group_by_type roster w = Ret (grouped_by (type_at w) roster) w' /\
             pokes w' = pokes w /\ arenas w' = arenas w.
Proof.
  intros Hv. destruct (deref_all_run w roster Hv) as [ps Hps].
  unfold group_by_type, group_by_type_body, log_action, get_world. unfold_M.
  rewrite Hps.
  match goal with |- context [deref_all roster ?w0] =>
    destruct (deref_all_run w0 roster Hv) as [ps' ->]
  end.
  eexists. split; [reflexivity |]. split; reflexivity.
Qed.

(** The groups that [group_by_type] returns, said with the key that it
    sorts and groups by. *)
Lemma group_by_type_by_key (w : World) (roster : list loc) :
  Forall (fun l => is_Some (pokes w !! l)) roster ->
  exists w' grouped,
    group_by_type roster w = Ret grouped w' /\
    let view := sorted (type_at w) roster in
    (view ≡ₚ roster /\ key_sorted (type_at w) view /\
     forall t, filter (fun l => type_at w l = t) view =
               filter (fun l => type_at w l = t) roster) /\
    NoDup (map fst grouped) /\
    (forall t g, dict_get t grouped = Some g <->
                 g <> [] /\ g = filter (fun l => type_at w l = t) view) /\
    (forall x, x ∈ roster ->
       exists g, dict_get (type_at w x) grouped = Some g /\ x ∈ g) /\
    (forall x t g, (t, g) ∈ grouped -> x ∈ g -> x ∈ roster /\ t = type_at w x) /\
    concat (map snd grouped) ≡ₚ roster.
Proof.
  intros Hv. destruct (group_by_type_run w roster Hv) as (w' & Hrun & _).
  exists w', (grouped_by (type_at w) roster). split; [exact Hrun |].
  set (key := type_at w). cbn zeta.
  pose proof (groupby_ok key (sorted key roster)) as Hok.
  pose proof (increasing_NoDup _
                (groupby_keys_increase key _ (sorted_sorted key roster))) as Hnd.
  pose proof (groupby_concat key (sorted key roster)) as Hcat.
  rewrite <- (grouped_by_groupby key roster) in Hok, Hnd, Hcat.
  split; [split; [apply sorted_perm |]; split; [apply sorted_sorted |];
          intros t; apply (sorted_stable key t roster) |].
  split; [exact Hnd |].
  split; [intros t g; apply (grouped_by_spec key roster t g) |].
  split; [| split].
  - intros x Hx. exists (filter (has_key key (key x)) (sorted key roster)).
    assert (Hin : x ∈ filter (has_key key (key x)) (sorted key roster)).
    { apply list_elem_of_filter. split; [reflexivity |].
      rewrite sorted_perm. exact Hx. }
    split; [| exact Hin].
    apply grouped_by_spec. split; [| reflexivity].
    intros E. rewrite E in Hin. inversion Hin.
  - intros x t g Hg Hx. split.
    + rewrite <- (sorted_perm key roster), <- Hcat.
      apply list_elem_of_In, in_concat. exists g.
      split; [| apply list_elem_of_In, Hx].
      apply in_map_iff. exists (t, g).
      split; [reflexivity | apply list_elem_of_In, Hg].
    + rewrite Forall_forall in Hok. destruct (Hok _ Hg) as [_ Hall].
      rewrite Forall_forall in Hall. symmetry. exact (Hall x Hx).
  - rewrite Hcat. apply sorted_perm.
Qed.

(** The key is the [type_] of the object in the store. *)
Lemma of_type_spec w t l :
  of_type w t l <-> exists p, pokes w !! l = Some p /\ type_ p = t.
Proof.
  unfold of_type. destruct (pokes w !! l) as [p |]; cbn; split.
  - intros [= E]. exists p. auto.
  - intros (q & [= <-] & E). congruence.
  - discriminate.
  - intros (q & E & _). discriminate.
Qed.

Lemma type_at_lookup w l p : pokes w !! l = Some p -> type_at w l = type_ p.
Proof. unfold type_at. intros ->. reflexivity. Qed.

Lemma of_type_type_at w t l :
  is_Some (pokes w !! l) -> of_type w t l <-> type_at w l = t.
Proof.
  intros [p Hp]. rewrite of_type_spec, (type_at_lookup w l p Hp). split.
  - intros (q & Hq & E). congruence.
  - intros E. exists p. auto.
Qed.

Lemma filter_of_type w t l :
  Forall (fun x => is_Some (pokes w !! x)) l ->
  filter (of_type w t) l = filter (fun x => type_at w x = t) l.
Proof.
  induction 1 as [| x l Hx _ IH]; [reflexivity |].
  rewrite !filter_cons, IH.
  destruct (decide (of_type w t x)) as [H1 | H1];
    destruct (decide (type_at w x = t)) as [H2 | H2]; try reflexivity;
    apply (of_type_type_at w t x Hx) in H2 || apply (of_type_type_at w t x Hx) in H1;
    contradiction.
Qed.

Lemma key_sorted_by_type w l :
  key_sorted (type_at w) l ->
  StronglySorted (fun x y => forall p q,
      pokes w !! x = Some p -> pokes w !! y = Some q ->
      not_after (type_ p) (type_ q)) l.
Proof.
  induction 1 as [| x l _ IH Hall]; constructor; [exact IH |].
  eapply Forall_impl; [exact Hall |]. cbn. intros y Hxy p q Hp Hq.
  rewrite <- (type_at_lookup w x p Hp), <- (type_at_lookup w y q Hq). exact Hxy.
Qed.

(** C8: [group_by_type] partitions the roster by the [type_] of the
    Pokemon.  There is a view of the roster, sorted by type with the order
    of the roster kept among equal types, such that: each type has at most
    one group; the group of a type holds exactly the entries of the view
    whose Pokemon has that type, in the order of the view; so every entry
    is in the group of the type of its own Pokemon and in no other, and the
    groups together hold the roster's entries. *)
Theorem group_by_type_partitions (w : World) (roster : list loc) :
  Forall (fun l => is_Some (pokes w !! l)) roster ->
  exists w' grouped view,
    group_by_type roster w = Ret grouped w' /\
    (view ≡ₚ roster /\
     StronglySorted (fun x y => forall p q,
         pokes w !! x = Some p -> pokes w !! y = Some q ->
         not_after (type_ p) (type_ q)) view /\
     forall t, filter (of_type w t) view = filter (of_type w t) roster) /\
    NoDup (map fst grouped) /\
    (forall t g, dict_get t grouped = Some g <->
                 g <> [] /\ g = filter (of_type w t) view) /\
    (forall x p, x ∈ roster -> pokes w !! x = Some p ->
       exists g, dict_get (type_ p) grouped = Some g /\ x ∈ g) /\
    (forall x t g, (t, g) ∈ grouped -> x ∈ g ->
       x ∈ roster /\ exists p, pokes w !! x = Some p /\ type_ p = t) /\
    concat (map snd grouped) ≡ₚ roster.
Proof.
  intros Hv.
  destruct (group_by_type_by_key w roster Hv)
    as (w' & grouped & Hrun & (Hperm & Hsorted & Hstable) & Hnd & Hget & Hin
        & Hback & Hcat).
  exists w', grouped, (sorted (type_at w) roster).
  assert (Hv' : Forall (fun l => is_Some (pokes w !! l)) (sorted (type_at w) roster)).
  { rewrite Forall_forall. intros x Hx. rewrite Hperm in Hx.
    rewrite Forall_forall in Hv. exact (Hv x Hx). }
  split; [exact Hrun |].
  split; [split; [exact Hperm |]; split; [apply key_sorted_by_type, Hsorted |] |].
  { intros t. rewrite (filter_of_type w t _ Hv'), (filter_of_type w t _ Hv).
    apply Hstable. }
  split; [exact Hnd |].
  split; [intros t g; rewrite (filter_of_type w t _ Hv'); apply Hget |].
  split; [| split; [| exact Hcat]].
  - intros x p Hx Hp. rewrite <- (type_at_lookup w x p Hp). exact (Hin x Hx).
  - intros x t g Hg Hx. destruct (Hback x t g Hg Hx) as [Hr ->].
    split; [exact Hr |]. rewrite Forall_forall in Hv.
    destruct (Hv x Hr) as [p Hp]. exists p.
    split; [exact Hp |]. symmetry. exact (type_at_lookup w x p Hp).
Qed.

Lemma group_by_type_partitions_witness :
  Forall (fun l => is_Some (pokes sample_world !! l)) [2%nat; 0%nat; 1%nat; 2%nat] /\
  exists w' grouped view,
    group_by_type [2%nat; 0%nat; 1%nat; 2%nat] sample_world = Ret grouped w' /\
    (view ≡ₚ [2%nat; 0%nat; 1%nat; 2%nat] /\
     StronglySorted (fun x y => forall p q,
         pokes sample_world !! x = Some p -> pokes sample_world !! y = Some q ->
         not_after (type_ p) (type_ q)) view /\
     forall t, filter (of_type sample_world t) view =
               filter (of_type sample_world t) [2%nat; 0%nat; 1%nat; 2%nat]) /\
    NoDup (map fst grouped) /\
    (forall t g, dict_get t grouped = Some g <->
                 g <> [] /\ g = filter (of_type sample_world t) view) /\
    (forall x p, x ∈ [2%nat; 0%nat; 1%nat; 2%nat] ->
       pokes sample_world !! x = Some p ->
       exists g, dict_get (type_ p) grouped = Some g /\ x ∈ g) /\
    (forall x t g, (t, g) ∈ grouped -> x ∈ g ->
       x ∈ [2%nat; 0%nat; 1%nat; 2%nat] /\
       exists p, pokes sample_world !! x = Some p /\ type_ p = t) /\
    concat (map snd grouped) ≡ₚ [2%nat; 0%nat; 1%nat; 2%nat].
Proof.
  assert (Hv : Forall (fun l => is_Some (pokes sample_world !! l))
                 [2%nat; 0%nat; 1%nat; 2%nat]).
  { repeat constructor; eexists; reflexivity. }
  split; [exact Hv |].
  apply (group_by_type_partitions sample_world [2%nat; 0%nat; 1%nat; 2%nat] Hv).
Defined.

Example group_by_type_sample :
  match group_by_type [2%nat; 0%nat; 1%nat; 2%nat] sample_world with
  | Ret grouped _ => grouped
  | _ => []
  end = [("Electric", [0%nat]); ("Fire", [1%nat]); ("Water", [2%nat; 2%nat])].
Proof. vm_compute. reflexivity. Qed.

(** ** Rounding a quotient to binary64 *)

Lemma up_pos k : 0 < up k.
Proof. unfold up. apply Z.pow_pos_nonneg; lia. Qed.

Lemma dn_pos k : 0 < dn k.
Proof. unfold dn. apply Z.pow_pos_nonneg; lia. Qed.

Lemma up_nonneg k : 0 <= k -> up k = 2 ^ k /\ dn k = 1.
Proof.
  intros Hk. unfold up, dn. rewrite Z.max_r by lia.
  rewrite Z.max_l by lia. split; reflexivity.
Qed.

Lemma up_neg k : k <= 0 -> up k = 1 /\ dn k = 2 ^ (- k).
Proof.
  intros Hk. unfold up, dn. rewrite Z.max_l by lia.
  rewrite Z.max_r by lia. split; reflexivity.
Qed.

(** [2 ^ k / 2 ^ j = 2 ^ (k - j)], without fractions. *)
Lemma up_dn_shift j k : j <= k -> up k * dn j = 2 ^ (k - j) * up j * dn k.
Proof.
  intros Hjk. destruct (Z.le_gt_cases 0 j) as [Hj | Hj].
  - destruct (up_nonneg j Hj) as [-> ->].
    destruct (up_nonneg k ltac:(lia)) as [-> ->].
    rewrite <- Z.pow_add_r by lia. replace (k - j + j) with k by lia. lia.
  - destruct (up_neg j ltac:(lia)) as [-> ->].
    destruct (Z.le_gt_cases 0 k) as [Hk | Hk].
    + destruct (up_nonneg k Hk) as [-> ->].
      rewrite <- Z.pow_add_r by lia. replace (k + - j) with (k - j) by lia. lia.
    + destruct (up_neg k ltac:(lia)) as [-> ->].
      rewrite Z.mul_1_l, Z.mul_1_r, <- Z.pow_add_r by lia.
      replace (k - j + - k) with (- j) by lia. reflexivity.
Qed.

Lemma pow2_ratio p q : 0 <= p -> 0 <= q -> 2 ^ p * dn (p - q) = 2 ^ q * up (p - q).
Proof.
  intros Hp Hq. destruct (Z.le_gt_cases q p) as [H | H].
  - destruct (up_nonneg (p - q) ltac:(lia)) as [-> ->].
    rewrite <- Z.pow_add_r by lia. replace (q + (p - q)) with p by lia. lia.
  - destruct (up_neg (p - q) ltac:(lia)) as [-> ->].
    rewrite <- Z.pow_add_r by lia. replace (p + - (p - q)) with q by lia. lia.
Qed.

Lemma ilog2_ratio_spec a d :
  0 < a -> 0 < d ->
  let e := ilog2_ratio a d in
  d * up e <= a * dn e /\ a * dn (e + 1) < d * up (e + 1).
Proof.
  intros Ha Hd. unfold ilog2_ratio.
  destruct (Z.log2_spec a Ha) as [Ha1 Ha2].
  destruct (Z.log2_spec d Hd) as [Hd1 Hd2].
  pose proof (Z.log2_nonneg a) as Hla. pose proof (Z.log2_nonneg d) as Hld.
  set (la := Z.log2 a) in *. set (ld := Z.log2 d) in *.
  rewrite <- !Z.add_1_r in *.
  destruct (Z.ltb_spec (a * dn (la - ld)) (d * up (la - ld))) as [Hlt | Hge]; cbn zeta.
  - replace (la - ld - 1 + 1) with (la - ld) by lia. split; [| exact Hlt].
    pose proof (pow2_ratio la (ld + 1) Hla ltac:(lia)) as E.
    replace (la - (ld + 1)) with (la - ld - 1) in E by lia.
    pose proof (up_pos (la - ld - 1)). pose proof (dn_pos (la - ld - 1)). nia.
  - split; [exact Hge |].
    pose proof (pow2_ratio (la + 1) ld ltac:(lia) Hld) as E.
    replace (la + 1 - ld) with (la - ld + 1) in E by lia.
    pose proof (up_pos (la - ld + 1)). pose proof (dn_pos (la - ld + 1)). nia.
Qed.

Lemma round_half_even_near N D :
  0 < D -> 2 * Z.abs (round_half_even N D * D - N) <= D.
Proof.
  intros HD. unfold round_half_even.
  pose proof (Z.div_mod N D ltac:(lia)) as E.
  pose proof (Z.mod_pos_bound N D HD) as B.
  destruct (Z.ltb_spec (2 * (N mod D)) D); [nia |].
  destruct (Z.ltb_spec D (2 * (N mod D))); [nia |].
  destruct (Z.even (N / D)); nia.
Qed.

Lemma round_half_even_exact J D : 0 < D -> round_half_even (J * D) D = J.
Proof.
  intros HD. unfold round_half_even.
  rewrite Z.mod_mul, Z.div_mul by lia.
  destruct (Z.ltb_spec (2 * 0) D); [reflexivity | lia].
Qed.

Lemma round_half_even_ge J N D :
  0 < D -> J * D <= N -> J <= round_half_even N D.
Proof.
  intros HD HJ. pose proof (round_half_even_near N D HD) as Hn.
  set (m := round_half_even N D) in *.
  destruct (Z.le_gt_cases J m) as [H | H]; [exact H |]. nia.
Qed.

Lemma round_half_even_le J N D :
  0 < D -> N <= J * D -> round_half_even N D <= J.
Proof.
  intros HD HJ. pose proof (round_half_even_near N D HD) as Hn.
  set (m := round_half_even N D) in *.
  destruct (Z.le_gt_cases m J) as [H | H]; [exact H |]. nia.
Qed.

(** [a / d < 2 ^ (k + c)] is [a / d < 2 ^ c * 2 ^ k], and the same for
    [>=]. *)
Lemma ratio_lt_scale a d k c :
  0 <= c ->
  a * dn (k + c) < d * up (k + c) <-> a * dn k < 2 ^ c * (d * up k).
Proof.
  intros Hc. pose proof (up_dn_shift k (k + c) ltac:(lia)) as E.
  replace (k + c - k) with c in E by lia.
  pose proof (dn_pos k). pose proof (dn_pos (k + c)).
  pose proof (up_pos k). pose proof (up_pos (k + c)).
  split; intros H3.
  - apply (Z.mul_lt_mono_pos_r (dn (k + c))); [assumption |].
    replace (2 ^ c * (d * up k) * dn (k + c))
      with (d * (2 ^ c * up k * dn (k + c))) by ring.
    rewrite <- E. apply (Z.mul_lt_mono_pos_r (dn k)) in H3; [| assumption].
    replace (d * (up (k + c) * dn k)) with (d * up (k + c) * dn k) by ring.
    replace (a * dn k * dn (k + c)) with (a * dn (k + c) * dn k) by ring.
    exact H3.
  - apply (Z.mul_lt_mono_pos_r (dn k)); [assumption |].
    replace (d * up (k + c) * dn k) with (d * (up (k + c) * dn k)) by ring.
    rewrite E. apply (Z.mul_lt_mono_pos_r (dn (k + c))) in H3; [| assumption].
    replace (d * (2 ^ c * up k * dn (k + c)))
      with (2 ^ c * (d * up k) * dn (k + c)) by ring.
    replace (a * dn (k + c) * dn k) with (a * dn k * dn (k + c)) by ring.
    exact H3.
Qed.

Lemma ratio_ge_scale a d k c :
  0 <= c ->
  d * up (k + c) <= a * dn (k + c) <-> 2 ^ c * (d * up k) <= a * dn k.
Proof.
  intros Hc. pose proof (ratio_lt_scale a d k c Hc) as [H1 H2].
  split; intros H; apply Z.nlt_ge; intros Hlt;
    [apply H2 in Hlt | apply H1 in Hlt]; lia.
Qed.

Lemma ratio_lt_mono a d j t :
  0 < a -> 0 < d -> j <= t ->
  a * dn j < d * up j -> a * dn t < d * up t.
Proof.
  intros Ha Hd Hjt H. replace t with (j + (t - j)) by lia.
  apply ratio_lt_scale; [lia |].
  pose proof (Z.pow_pos_nonneg 2 (t - j) ltac:(lia) ltac:(lia)).
  pose proof (up_pos j). nia.
Qed.

Lemma binary64_of_ratio_unfold n d :
  n <> 0 ->
  binary64_of_ratio n d =
    if 2 ^ 1024 * dn (exponent_of n d) <=?
       significand_of n d * up (exponent_of n d)
    then None
    else Some (Qred (dyadic (Z.sgn n * significand_of n d) (exponent_of n d))).
Proof.
  intros Hn. unfold binary64_of_ratio.
  destruct (Z.eqb_spec n 0); [contradiction | reflexivity].
Qed.

Lemma rounding_core n d :
  n <> 0 -> 0 < d ->
  let k := exponent_of n d in
  let N := Z.abs n * dn k in
  let D := d * up k in
  let m := significand_of n d in
  0 < D /\ 2 * Z.abs (m * D - N) <= D /\
  0 <= m <= 2 ^ 53 /\ N < 2 ^ 53 * D /\ - 1074 <= k /\
  (k = - 1074 \/ (2 ^ 52 * D <= N /\ 2 ^ 52 <= m)).
Proof.
  intros Hn Hd. cbn zeta. unfold significand_of.
  set (k := exponent_of n d). set (a := Z.abs n).
  assert (Ha : 0 < a) by (unfold a; lia).
  pose proof (up_pos k) as Hup. pose proof (dn_pos k) as Hdn.
  assert (HD : 0 < d * up k) by nia.
  destruct (ilog2_ratio_spec a d Ha Hd) as [Hlo Hhi].
  set (e := ilog2_ratio a d) in *.
  assert (Hk : k = Z.max (e - 52) (- 1074)) by reflexivity.
  assert (HN : a * dn k < 2 ^ 53 * (d * up k)).
  { apply ratio_lt_scale; [lia |].
    apply (ratio_lt_mono a d (e + 1)); [assumption | assumption | lia | exact Hhi]. }
  split; [exact HD |].
  split; [apply round_half_even_near, HD |].
  split; [split |].
  - apply (round_half_even_ge 0); [exact HD | nia].
  - apply round_half_even_le; [exact HD | lia].
  - split; [exact HN |]. split; [lia |].
    destruct (Z.le_gt_cases (e - 52) (- 1074)) as [Hsub | Hnorm]; [left; lia |].
    right. assert (Hke : e = k + 52) by lia.
    assert (H52 : 2 ^ 52 * (d * up k) <= a * dn k).
    { apply ratio_ge_scale; [lia |]. rewrite <- Hke. exact Hlo. }
    split; [exact H52 |].
    apply round_half_even_ge; [exact HD | lia].
Qed.

Lemma ratio_ge_mono a d j t :
  0 < a -> 0 < d -> t <= j ->
  d * up j <= a * dn j -> d * up t <= a * dn t.
Proof.
  intros Ha Hd Htj H. apply Z.nlt_ge. intros Hlt.
  pose proof (ratio_lt_mono a d t j Ha Hd Htj Hlt). lia.
Qed.

Lemma dyadic_den m k : Z.pos (Qden (dyadic m k)) = dn k.
Proof. cbn. apply Z2Pos.id, dn_pos. Qed.

Lemma dyadic_eq m k n d :
  0 < d -> (dyadic m k == n # Z.to_pos d)%Q <-> m * up k * d = n * dn k.
Proof.
  intros Hd. unfold Qeq. rewrite dyadic_den. cbn [Qnum Qden dyadic].
  rewrite Z2Pos.id by exact Hd. reflexivity.
Qed.

Lemma dyadic_shift m k c : 0 <= c -> (dyadic (m * 2 ^ c) k == dyadic m (k + c))%Q.
Proof.
  intros Hc. unfold Qeq. rewrite !dyadic_den. cbn [Qnum dyadic].
  pose proof (up_dn_shift k (k + c) ltac:(lia)) as E.
  replace (k + c - k) with c in E by lia.
  replace (m * 2 ^ c * up k * dn (k + c)) with (m * (2 ^ c * up k * dn (k + c))) by ring.
  rewrite <- E. ring.
Qed.

(** The Z side of exactness: when [n / d = M * 2 ^ K] for a significand
    and exponent of binary64, nothing is rounded away. *)
Lemma exact_core n d M K :
  n <> 0 -> 0 < d -> Z.abs M < 2 ^ 53 -> - 1074 <= K <= 971 ->
  M * up K * d = n * dn K ->
  let k := exponent_of n d in
  let m := significand_of n d in
  m * (d * up k) = Z.abs n * dn k /\ m * up k < 2 ^ 1024 * dn k.
Proof.
  intros Hn Hd HM HK Heq. cbn zeta.
  destruct (rounding_core n d Hn Hd) as (HD & _ & _ & _ & Hk & _).
  unfold significand_of.
  set (k := exponent_of n d) in *. set (a := Z.abs n).
  set (B := Z.abs M).
  assert (Ha : 0 < a) by (unfold a; lia).
  assert (HB : B * up K * d = a * dn K).
  { pose proof (up_pos K). pose proof (dn_pos K). unfold a, B.
    transitivity (Z.abs (M * up K * d)).
    - rewrite !Z.abs_mul, (Z.abs_eq (up K)), (Z.abs_eq d) by lia. reflexivity.
    - rewrite Heq, Z.abs_mul, (Z.abs_eq (dn K)) by lia. reflexivity. }
  pose proof (up_pos K) as HupK. pose proof (dn_pos K) as HdnK.
  pose proof (up_pos k) as Hupk. pose proof (dn_pos k) as Hdnk.
  destruct (ilog2_ratio_spec a d Ha Hd) as [Hlo _].
  set (e := ilog2_ratio a d) in *.
  assert (HkK : k <= K).
  { destruct (Z.le_gt_cases e (K + 52)) as [H | H]; [unfold k, exponent_of; fold a; fold e; lia |].
    exfalso.
    pose proof (ratio_ge_mono a d e (K + 53) Ha Hd ltac:(lia) Hlo) as H1.
    apply ratio_ge_scale in H1; [| lia]. nia. }
  pose proof (up_dn_shift k K HkK) as E.
  pose proof (Z.pow_pos_nonneg 2 (K - k) ltac:(lia) ltac:(lia)) as Hp.
  set (J := B * 2 ^ (K - k)).
  assert (HJ : a * dn k = J * (d * up k)).
  { apply (Z.mul_reg_r _ _ (dn K)); [lia |].
    replace (a * dn k * dn K) with (a * dn K * dn k) by ring.
    rewrite <- HB. unfold J.
    replace (B * 2 ^ (K - k) * (d * up k) * dn K)
      with (B * d * (2 ^ (K - k) * up k * dn K)) by ring.
    rewrite <- E. ring. }
  rewrite HJ, round_half_even_exact by exact HD. split; [reflexivity |].
  apply (Z.mul_lt_mono_pos_r (dn K)); [exact HdnK |].
  replace (J * up k * dn K) with (B * (2 ^ (K - k) * up k * dn K)) by (unfold J; ring).
  rewrite <- E.
  pose proof (up_dn_shift K 971 ltac:(lia)) as E2.
  destruct (up_nonneg 971 ltac:(lia)) as [E3 E4]. rewrite E3, E4 in E2.
  pose proof (Z.pow_pos_nonneg 2 (971 - K) ltac:(lia) ltac:(lia)) as Hp2.
  assert (HupK2 : up K <= 2 ^ 971 * dn K) by nia.
  assert (B >= 0) by (unfold B; lia).
  replace (2 ^ 1024) with (2 ^ 53 * 2 ^ 971) by (rewrite <- Z.pow_add_r by lia; reflexivity).
  assert (B * up K < 2 ^ 53 * (2 ^ 971 * dn K)) by nia.
  nia.
Qed.

(** A quotient that is a binary64 number is returned as it is. *)
Lemma binary64_of_ratio_exact n d :
  0 < d -> binary64 (n # Z.to_pos d) ->
  exists x, binary64_of_ratio n d = Some x /\ (x == n # Z.to_pos d)%Q.
Proof.
  intros Hd (M & K & HM & HK & Heq).
  destruct (Z.eq_dec n 0) as [-> | Hn].
  - exists 0%Q. split; [reflexivity |]. unfold Qeq. cbn. reflexivity.
  - symmetry in Heq. apply dyadic_eq in Heq; [| exact Hd].
    destruct (exact_core n d M K Hn Hd HM HK Heq) as [Hm Hno].
    rewrite (binary64_of_ratio_unfold n d Hn).
    destruct (Z.leb_spec (2 ^ 1024 * dn (exponent_of n d))
                (significand_of n d * up (exponent_of n d))); [lia |].
    eexists. split; [reflexivity |]. rewrite Qred_correct.
    apply dyadic_eq; [exact Hd |].
    replace (Z.sgn n * significand_of n d * up (exponent_of n d) * d)
      with (Z.sgn n * (significand_of n d * (d * up (exponent_of n d)))) by ring.
    rewrite Hm, Z.mul_assoc. f_equal. destruct n; reflexivity.
Qed.

Lemma dyadic_binary64 m k :
  0 <= m <= 2 ^ 53 -> - 1074 <= k ->
  k = - 1074 \/ 2 ^ 52 <= m ->
  m * up k < 2 ^ 1024 * dn k ->
  forall s, Z.abs s <= 1 -> binary64 (dyadic (s * m) k).
Proof.
  intros Hm Hk Hnorm Hno s Hs.
  pose proof (up_pos k) as Hup. pose proof (dn_pos k) as Hdn.
  assert (Hsm : Z.abs (s * m) <= m) by nia.
  assert (Hk971 : k <= 971).
  { destruct (Z.le_gt_cases k 971) as [H | H]; [exact H | exfalso].
    destruct Hnorm as [-> | H52]; [lia |].
    destruct (up_nonneg k ltac:(lia)) as [E1 E2]. rewrite E1, E2 in Hno.
    assert (2 ^ 972 <= 2 ^ k) by (apply Z.pow_le_mono_r; lia).
    replace (2 ^ 1024) with (2 ^ 52 * 2 ^ 972) in Hno
      by (rewrite <- Z.pow_add_r by lia; reflexivity). nia. }
  destruct (Z.eq_dec m (2 ^ 53)) as [E53 | Hlt].
  - (* a significand rounded up to 2 ^ 53 is 2 ^ 52 one exponent higher *)
    assert (k <= 970).
    { destruct (Z.le_gt_cases k 970) as [H | H]; [exact H | exfalso].
      assert (k = 971) by lia. subst k. rewrite E53 in Hno.
      vm_compute in Hno. discriminate Hno. }
    exists (s * 2 ^ 52), (k + 1). split; [| split; [lia |]].
    + rewrite Z.abs_mul. change (Z.abs (2 ^ 52)) with (2 ^ 52).
      assert (Z.abs s * 2 ^ 52 <= 2 ^ 52) by nia. lia.
    + rewrite <- dyadic_shift by lia. rewrite E53.
      replace (s * 2 ^ 52 * 2 ^ 1) with (s * 2 ^ 53) by ring.
      reflexivity.
  - exists (s * m), k. split; [lia |]. split; [lia | reflexivity].
Qed.

Lemma binary64_Qeq x y : (x == y)%Q -> binary64 y -> binary64 x.
Proof.
  intros E (m & k & Hm & Hk & Hy). exists m, k.
  split; [exact Hm |]. split; [exact Hk |]. rewrite E. exact Hy.
Qed.

Lemma half_spacing m k n d :
  0 < d ->
  2 * Z.abs (m * (d * up k) - n * dn k) <= d * up k ->
  (2 * Qabs (dyadic m k - (n # Z.to_pos d)) <= dyadic 1 k)%Q.
Proof.
  intros Hd H. pose proof (dn_pos k) as Hdn. pose proof (up_pos k) as Hup.
  unfold Qle, Qabs, Qminus, Qplus, Qopp, Qmult, dyadic. cbn [Qnum Qden].
  rewrite !Pos2Z.inj_mul, !Z2Pos.id by assumption.
  replace (m * up k * d + - n * dn k) with (m * (d * up k) - n * dn k) by ring.
  nia.
Qed.

Lemma above_binade k n d :
  0 < d -> 2 ^ 52 * (d * up k) <= Z.abs n * dn k ->
  (dyadic (2 ^ 52) k <= Qabs (n # Z.to_pos d))%Q.
Proof.
  intros Hd H. pose proof (dn_pos k) as Hdn.
  unfold Qle, Qabs, dyadic. cbn [Qnum Qden].
  rewrite !Z2Pos.id by assumption. lia.
Qed.

(** What is returned is a binary64 number at most half a spacing away
    from the quotient, where the spacing [2 ^ k] is that of the binary64
    numbers of the quotient's magnitude. *)
Lemma binary64_of_ratio_rounds n d x :
  0 < d -> binary64_of_ratio n d = Some x ->
  binary64 x /\
  exists k, - 1074 <= k /\
    (2 * Qabs (x - (n # Z.to_pos d)) <= dyadic 1 k)%Q /\
    (k = - 1074 \/ (dyadic (2 ^ 52) k <= Qabs (n # Z.to_pos d))%Q).
Proof.
  intros Hd Hx. destruct (Z.eq_dec n 0) as [-> | Hn].
  - injection Hx as <-. split.
    + exists 0, 0. split; [reflexivity |]. split; [lia | reflexivity].
    + exists (- 1074). split; [lia |]. split; [| left; reflexivity].
      apply (half_spacing 0 (- 1074) 0 d Hd).
      pose proof (up_pos (- 1074)). cbn [Z.mul Z.sub Z.abs Z.opp Z.add]. nia.
  - rewrite (binary64_of_ratio_unfold n d Hn) in Hx.
    destruct (rounding_core n d Hn Hd) as (HD & Hnear & Hm & HN & Hk & Hnorm).
    set (k := exponent_of n d) in *. set (m := significand_of n d) in *.
    destruct (Z.leb_spec (2 ^ 1024 * dn k) (m * up k)) as [| Hno];
      [discriminate Hx |].
    assert (Ex : x = Qred (dyadic (Z.sgn n * m) k)) by congruence.
    clear Hx. subst x. split.
    + apply (binary64_Qeq _ (dyadic (Z.sgn n * m) k)); [apply Qred_correct |].
      apply dyadic_binary64; try assumption.
      * destruct Hnorm as [-> | [_ H]]; [left; reflexivity | right; exact H].
      * destruct n; cbn; lia.
    + exists k. split; [exact Hk |]. split.
      * assert (E : (Qred (dyadic (Z.sgn n * m) k) == dyadic (Z.sgn n * m) k)%Q)
          by apply Qred_correct.
        rewrite E. apply half_spacing; [exact Hd |].
        replace (Z.sgn n * m * (d * up k) - n * dn k)
          with (Z.sgn n * (m * (d * up k) - Z.abs n * dn k)).
        -- rewrite Z.abs_mul. replace (Z.abs (Z.sgn n)) with 1 by (destruct n; cbn; lia).
           lia.
        -- rewrite Z.mul_sub_distr_l.
           replace (Z.sgn n * (Z.abs n * dn k)) with (Z.sgn n * Z.abs n * dn k) by ring.
           replace (Z.sgn n * Z.abs n) with n by (destruct n; reflexivity). ring.
      * destruct Hnorm as [-> | [H _]]; [left; reflexivity | right].
        apply above_binade; assumption.
Qed.

(** The quotient that overflows is at least half a spacing below
    [2 ^ 1024]. *)
Lemma binary64_of_ratio_overflow n d :
  0 < d -> binary64_of_ratio n d = None ->
  (2 ^ 1024 - 2 ^ 970) * d <= Z.abs n.
Proof.
  intros Hd Hx. destruct (Z.eq_dec n 0) as [-> | Hn]; [discriminate Hx |].
  rewrite (binary64_of_ratio_unfold n d Hn) in Hx.
  destruct (rounding_core n d Hn Hd) as (HD & Hnear & Hm & HN & Hk & Hnorm).
  set (k := exponent_of n d) in *. set (m := significand_of n d) in *.
  destruct (Z.leb_spec (2 ^ 1024 * dn k) (m * up k)) as [Hov |];
    [| discriminate Hx].
  pose proof (up_pos k) as Hup. pose proof (dn_pos k) as Hdn.
  assert (Hk971 : 971 <= k).
  { destruct (Z.le_gt_cases 971 k) as [H | H]; [exact H | exfalso].
    pose proof (up_dn_shift k 970 ltac:(lia)) as E.
    destruct (up_nonneg 970 ltac:(lia)) as [E1 E2]. rewrite E1, E2 in E.
    pose proof (Z.pow_pos_nonneg 2 (970 - k) ltac:(lia) ltac:(lia)).
    assert (up k <= 2 ^ 970 * dn k) by nia.
    replace (2 ^ 1024) with (2 ^ 54 * 2 ^ 970) in Hov
      by (rewrite <- Z.pow_add_r by lia; reflexivity).
    assert (m * up k <= 2 ^ 53 * (2 ^ 970 * dn k)) by nia.
    assert (2 ^ 53 < 2 ^ 54) by (vm_compute; reflexivity). nia. }
  destruct (up_nonneg k ltac:(lia)) as [E1 E2]. rewrite E1, E2 in *.
  destruct Hnorm as [-> | [H52 _]]; [lia |].
  assert (Hp : 2 ^ 971 <= 2 ^ k) by (apply Z.pow_le_mono_r; lia).
  replace (2 ^ 1024 - 2 ^ 970) with (2 ^ 52 * 2 ^ 971 + (2 ^ 52 * 2 ^ 971 - 2 ^ 970))
    by (vm_compute; reflexivity).
  destruct (Z.eq_dec k 971) as [-> | Hne].
  - assert (2 ^ 1024 = 2 ^ 53 * 2 ^ 971) by (vm_compute; reflexivity).
    assert (2 ^ 971 = 2 * 2 ^ 970) by (vm_compute; reflexivity).
    assert (m = 2 ^ 53) by nia. nia.
  - assert (2 ^ 972 <= 2 ^ k) by (apply Z.pow_le_mono_r; lia).
    assert (2 ^ 972 = 2 * 2 ^ 971) by (vm_compute; reflexivity).
    assert (0 < 2 ^ 970) by (vm_compute; reflexivity).
    nia.
Qed.

(** ** Statistics of the roster *)

Lemma foldl_max_spec (x : Z) (rest : list Z) :
  let mx := foldl Z.max x rest in
  mx ∈ x :: rest /\ forall h, h ∈ x :: rest -> h <= mx.
Proof.
  revert x. induction rest as [| y rest IH]; intros x; cbn.
  - split; [left |]. intros h Hh. apply list_elem_of_singleton in Hh. lia.
  - destruct (IH (Z.max x y)) as [Hin Hle]. split.
    + apply elem_of_cons in Hin. destruct Hin as [-> | Hin].
      * destruct (Z.max_spec x y) as [[_ ->] | [_ ->]]; [right; left | left].
      * right. right. exact Hin.
    + intros h Hh. apply elem_of_cons in Hh. destruct Hh as [-> | Hh].
      * specialize (Hle (Z.max x y) ltac:(left)). lia.
      * apply elem_of_cons in Hh. destruct Hh as [-> | Hh].
        -- specialize (Hle (Z.max x y) ltac:(left)). lia.
        -- apply Hle. right. exact Hh.
Qed.

Lemma foldl_min_spec (x : Z) (rest : list Z) :
  let mn := foldl Z.min x rest in
  mn ∈ x :: rest /\ forall h, h ∈ x :: rest -> mn <= h.
Proof.
  revert x. induction rest as [| y rest IH]; intros x; cbn.
  - split; [left |]. intros h Hh. apply list_elem_of_singleton in Hh. lia.
  - destruct (IH (Z.min x y)) as [Hin Hle]. split.
    + apply elem_of_cons in Hin. destruct Hin as [-> | Hin].
      * destruct (Z.min_spec x y) as [[_ ->] | [_ ->]]; [left | right; left].
      * right. right. exact Hin.
    + intros h Hh. apply elem_of_cons in Hh. destruct Hh as [-> | Hh].
      * specialize (Hle (Z.min x y) ltac:(left)). lia.
      * apply elem_of_cons in Hh. destruct Hh as [-> | Hh].
        -- specialize (Hle (Z.min x y) ltac:(left)). lia.
        -- apply Hle. right. exact Hh.
Qed.

Lemma foldl_add_shift (x : Z) (l : list Z) : foldl Z.add x l = x + foldl Z.add 0 l.
Proof.
  revert x. induction l as [| y l IH]; intros x; cbn; [lia |].
  rewrite (IH (x + y)), (IH (0 + y)). lia.
Qed.

Lemma sum_cons (x : Z) (l : list Z) : sum (x :: l) = x + sum l.
Proof. unfold sum. cbn. apply foldl_add_shift. Qed.

Lemma deref_all_lookup w roster ps :
  Forall2 (fun l p => pokes w !! l = Some p) roster ps ->
  deref_all roster w = Ret ps w.
Proof.
  induction 1 as [| l p roster ps Hl _ IH]; cbn; [reflexivity |].
  unfold_M. rewrite (deref_run w l p Hl), IH. reflexivity.
Qed.

(** The three outcomes of [mean], none of which touches the world. *)
Lemma mean_int data w :
  0 < Z.of_nat (length data) ->
  sum data mod Z.of_nat (length data) = 0 ->
  mean data w = Ret (Int (sum data / Z.of_nat (length data))) w.
Proof.
  intros Hn Hmod. unfold mean.
  destruct (Z.ltb_spec (Z.of_nat (length data)) 1); [lia |].
  rewrite Hmod. reflexivity.
Qed.

Lemma mean_float data w x :
  0 < Z.of_nat (length data) ->
  sum data mod Z.of_nat (length data) <> 0 ->
  binary64_of_ratio (sum data) (Z.of_nat (length data)) = Some x ->
  mean data w = Ret (Float x) w.
Proof.
  intros Hn Hmod Hx. unfold mean.
  destruct (Z.ltb_spec (Z.of_nat (length data)) 1); [lia |].
  destruct (Z.eqb_spec (sum data mod Z.of_nat (length data)) 0); [contradiction |].
  rewrite Hx. reflexivity.
Qed.

Lemma mean_overflow data w :
  0 < Z.of_nat (length data) ->
  sum data mod Z.of_nat (length data) <> 0 ->
  binary64_of_ratio (sum data) (Z.of_nat (length data)) = None ->
  mean data w = Raise OverflowError w.
Proof.
  intros Hn Hmod Hx. unfold mean.
  destruct (Z.ltb_spec (Z.of_nat (length data)) 1); [lia |].
  destruct (Z.eqb_spec (sum data mod Z.of_nat (length data)) 0); [contradiction |].
  rewrite Hx. reflexivity.
Qed.

Lemma pokemon_statistics_returns w roster ps x rest avg :
  Forall2 (fun l p => pokes w !! l = Some p) roster ps ->
  map hp ps = x :: rest ->
  (forall w1, mean (map hp ps) w1 = Ret avg w1) ->
  exists w',
    pokemon_statistics roster w =
      Ret (stats_of avg (foldl Z.max x rest) (foldl Z.min x rest)) w' /\
    pokes w' = pokes w.
Proof.
  intros Hps Hhp Hmean. unfold pokemon_statistics, pokemon_statistics_body, log_action.
  unfold_M. rewrite (deref_all_lookup w roster ps Hps). cbn.
  rewrite (deref_all_lookup _ roster ps) by exact Hps.
  rewrite Hmean, Hhp. cbn. eexists. split; reflexivity.
Qed.

Lemma pokemon_statistics_raises w roster ps e :
  Forall2 (fun l p => pokes w !! l = Some p) roster ps ->
  (forall w1, mean (map hp ps) w1 = Raise e w1) ->
  exists w', pokemon_statistics roster w = Raise e w'.
Proof.
  intros Hps Hmean. unfold pokemon_statistics, pokemon_statistics_body, log_action.
  unfold_M. rewrite (deref_all_lookup w roster ps Hps). cbn.
  rewrite (deref_all_lookup _ roster ps) by exact Hps.
  rewrite Hmean. eexists. reflexivity.
Qed.

(** C7, as the code has it: on a roster that is not empty
    [pokemon_statistics] returns the largest and the smallest hp, and for
    the average what [statistics.mean] makes of the exact mean
    [total / n]: the mean itself as an int when it is an integer; the mean
    itself as a float when it is a binary64 number, as 40.75 is; otherwise
    a binary64 number within half a spacing of the mean, or an
    OverflowError when the mean is too large for a float. *)
Theorem pokemon_statistics_mean_max_min (w : World) (roster : list loc)
    (ps : list Pokemon) :
  Forall2 (fun l p => pokes w !! l = Some p) roster ps ->
  roster <> [] ->
  let hp_values := map hp ps in
  let total := sum hp_values in
  let n := Z.of_nat (length hp_values) in
  exists mx mn,
    (mx ∈ hp_values /\ forall h, h ∈ hp_values -> h <= mx) /\
    (mn ∈ hp_values /\ forall h, h ∈ hp_values -> mn <= h) /\
    0 < n /\
    (total mod n = 0 ->
       total / n * n = total /\
       exists w', pokemon_statistics roster w =
                    Ret (stats_of (Int (total / n)) mx mn) w') /\
    (total mod n <> 0 ->
       (exists x w',
          pokemon_statistics roster w = Ret (stats_of (Float x) mx mn) w' /\
          binary64 x /\
          (exists k, - 1074 <= k /\
             (2 * Qabs (x - (total # Z.to_pos n)) <= dyadic 1 k)%Q /\
             (k = - 1074 \/
              (dyadic (2 ^ 52) k <= Qabs (total # Z.to_pos n))%Q)) /\
          (binary64 (total # Z.to_pos n) -> (x == total # Z.to_pos n)%Q)) \/
       ((exists w', pokemon_statistics roster w = Raise OverflowError w') /\
        (2 ^ 1024 - 2 ^ 970) * n <= Z.abs total /\
        ~ binary64 (total # Z.to_pos n))) /\
    (hp_values = [35; 39; 44; 45] ->
       (163 # 4 == 40.75)%Q /\
       exists w', pokemon_statistics roster w =
                    Ret (stats_of (Float (163 # 4)) 45 35) w').
Proof.
  intros Hps Hne. cbn zeta.
  destruct (map hp ps) as [| x rest] eqn:Ehp.
  { destruct Hps; [congruence | discriminate Ehp]. }
  set (data := x :: rest) in *.
  exists (foldl Z.max x rest), (foldl Z.min x rest).
  split; [apply foldl_max_spec |]. split; [apply foldl_min_spec |].
  assert (Hn : 0 < Z.of_nat (length data)) by (cbn; lia).
  split; [exact Hn |]. split; [| split].
  - intros Hmod. split.
    + pose proof (Z.div_mod (sum data) (Z.of_nat (length data)) ltac:(lia)). lia.
    + destruct (pokemon_statistics_returns w roster ps x rest
                  (Int (sum data / Z.of_nat (length data))) Hps Ehp)
        as (w' & Hrun & _).
      * intros w1. rewrite Ehp. apply mean_int; assumption.
      * exists w'. exact Hrun.
  - intros Hmod.
    destruct (binary64_of_ratio (sum data) (Z.of_nat (length data)))
      as [q |] eqn:Eq.
    + left.
      destruct (pokemon_statistics_returns w roster ps x rest (Float q) Hps Ehp)
        as (w' & Hrun & _).
      { intros w1. rewrite Ehp. apply mean_float; assumption. }
      destruct (binary64_of_ratio_rounds _ _ q Hn Eq) as [Hb Hk].
      exists q, w'. split; [exact Hrun |]. split; [exact Hb |].
      split; [exact Hk |].
      intros Hrep.
      destruct (binary64_of_ratio_exact _ _ Hn Hrep) as (q' & Eq' & Hq').
      assert (q' = q) by congruence. subst q'. exact Hq'.
    + right. split; [| split].
      * apply (pokemon_statistics_raises w roster ps OverflowError Hps).
        intros w1. rewrite Ehp. apply mean_overflow; assumption.
      * apply binary64_of_ratio_overflow; assumption.
      * intros Hrep.
        destruct (binary64_of_ratio_exact _ _ Hn Hrep) as (q' & Eq' & _).
        congruence.
  - intros Hdata. split; [reflexivity |].
    injection Hdata as -> ->.
    destruct (pokemon_statistics_returns w roster ps 35 [39; 44; 45]
                (Float (163 # 4)) Hps Ehp) as (w' & Hrun & _).
    + intros w1. rewrite Ehp. apply mean_float;
        [reflexivity | discriminate | vm_compute; reflexivity].
    + exists w'. exact Hrun.
Qed.

Lemma pokemon_statistics_mean_max_min_witness :
  (Forall2 (fun l p => pokes roster_world !! l = Some p)
     [0%nat; 1%nat; 2%nat; 3%nat] [pikachu; charmander; squirtle; bulbasaur] /\
   [0%nat; 1%nat; 2%nat; 3%nat] <> []) /\
  (163 # 4 == 40.75)%Q /\
  exists w', pokemon_statistics [0%nat; 1%nat; 2%nat; 3%nat] roster_world =
               Ret (stats_of (Float (163 # 4)) 45 35) w'.
Proof.
  assert (Hps : Forall2 (fun l p => pokes roster_world !! l = Some p)
                  [0%nat; 1%nat; 2%nat; 3%nat]
                  [pikachu; charmander; squirtle; bulbasaur]).
  { repeat constructor. }
  split; [split; [exact Hps | discriminate] |].
  destruct (pokemon_statistics_mean_max_min roster_world
              [0%nat; 1%nat; 2%nat; 3%nat]
              [pikachu; charmander; squirtle; bulbasaur] Hps ltac:(discriminate))
    as (mx & mn & _ & _ & _ & _ & _ & Hex).
  exact (Hex eq_refl).
Defined.

(** C7 as stated fails: the hp values 35, 39 and 20 have the mean 94/3,
    which no float is; what comes back is the float next to it,
    31.333333333333332. *)
Lemma mean_of_three_is_rounded :
  map hp [pikachu; charmander; magikarp] = [35; 39; 20] /\
  (inject_Z (35 + 39 + 20) / inject_Z 3 == 94 # 3)%Q /\
  (exists w',
     pokemon_statistics [0%nat; 1%nat; 2%nat] sample_world =
       Ret (stats_of (Float (8819549270267221 # 281474976710656)) 39 20) w') /\
  ~ (8819549270267221 # 281474976710656 == 94 # 3)%Q.
Proof.
  split; [reflexivity |]. split; [reflexivity |]. split.
  - eexists. vm_compute. reflexivity.
  - unfold Qeq. cbn. discriminate.
Qed.

(** ** The roster of [main] *)

(** Building the roster from the empty process gives the four objects of
    [roster_world], with the ids PKMN-1 to PKMN-4 in creation order. *)
Example main_roster_builds :
  match main_roster (world0 (fun n => n)) with
  | Ret pokemons w =>
      pokemons = [0%nat; 1%nat; 2%nat; 3%nat] /\
      pokes w = pokes roster_world /\
      id_gen w = 5%nat /\
      stdout w = [InfoCreated "Pikachu" "PKMN-1" "Electric";
                  InfoCreated "Charmander" "PKMN-2" "Fire";
                  InfoCreated "Squirtle" "PKMN-3" "Water";
                  InfoCreated "Bulbasaur" "PKMN-4" "Grass"]
  | _ => False
  end.
Proof. vm_compute. repeat split. Qed.

(** Two hp values around [2 ^ 1024]: their mean is not an integer and is
    beyond the floats, so [statistics.mean] raises. *)
Example mean_overflows (w : World) :
  mean [2 ^ 1024; 2 ^ 1024 + 1] w = Raise OverflowError w.
Proof. vm_compute. reflexivity. Qed.

(** * Further properties *)

(** ** Damage, once more *)

(** Two hits in a row, the second not negative, leave the hp that one hit
    of the summed damage leaves. *)
Theorem receive_damage_twice (w : World) (e : loc) (p : Pokemon) (d1 d2 : Z) :
  pokes w !! e = Some p ->
  0 <= d2 ->
  exists w1 w2 w12,
    receive_damage e d1 w = Ret tt w1 /\
    receive_damage e d2 w1 = Ret tt w2 /\
    receive_damage e (d1 + d2) w = Ret tt w12 /\
    pokes w2 = pokes w12.
Proof.
  intros He Hd2.
  eexists _, _, _. split; [apply (receive_damage_run w e p d1 He) |].
  split; [apply receive_damage_run; cbn; apply lookup_insert_eq |].
  split; [apply (receive_damage_run w e p (d1 + d2) He) |].
  cbn. rewrite insert_insert_eq. f_equal. unfold set_hp. cbn. f_equal. lia.
Qed.

Lemma receive_damage_twice_witness :
  (pokes sample_world !! 1%nat = Some charmander /\ 0 <= 30) /\
  exists w1 w2 w12,
    receive_damage 1 34 sample_world = Ret tt w1 /\
    receive_damage 1 30 w1 = Ret tt w2 /\
    receive_damage 1 (34 + 30) sample_world = Ret tt w12 /\
    pokes w2 = pokes w12.
Proof.
  split; [split; [reflexivity | lia] |].
  apply (receive_damage_twice sample_world 1%nat charmander 34 30);
    [reflexivity | lia].
Defined.

(** A negative damage is taken as it comes: it raises the hp. *)
Theorem receive_damage_negative_heals (w : World) (e : loc) (p : Pokemon) (d : Z) :
  pokes w !! e = Some p ->
  d < 0 ->
  0 <= hp p ->
  exists w' p',
    receive_damage e d w = Ret tt w' /\
    pokes w' !! e = Some p' /\
    hp p' = hp p - d /\
    hp p < hp p'.
Proof.
  intros He Hd Hp. eexists _, _. split; [apply receive_damage_run, He |].
  cbn. rewrite lookup_insert_eq. split; [reflexivity |]. cbn. lia.
Qed.

Lemma receive_damage_negative_heals_witness :
  (pokes sample_world !! 1%nat = Some charmander /\ -10 < 0 /\ 0 <= hp charmander) /\
  exists w' p',
    receive_damage 1 (-10) sample_world = Ret tt w' /\
    pokes w' !! 1%nat = Some p' /\
    hp p' = hp charmander - -10 /\
    hp charmander < hp p'.
Proof.
  split; [split; [reflexivity | split; [lia | cbn; lia]] |].
  apply (receive_damage_negative_heals sample_world 1%nat charmander (-10));
    [reflexivity | lia | cbn; lia].
Defined.

(** More attack never deals less, more defense never deals more, and an
    attack of at most half the defense still deals 1. *)
Theorem attack_damage_monotone (a1 a2 d1 d2 : Pokemon) :
  attack a1 <= attack a2 ->
  defense d2 <= defense d1 ->
  attack_damage a1 d1 <= attack_damage a2 d2 /\
  (2 * attack a1 <= defense d1 -> attack_damage a1 d1 = 1).
Proof.
  intros Ha Hd. unfold attack_damage.
  assert (defense d2 / 2 <= defense d1 / 2) by (apply Z.div_le_mono; lia).
  split; [lia |]. intros Hw.
  assert (attack a1 <= defense d1 / 2) by (apply Z.div_le_lower_bound; lia).
  lia.
Qed.

Lemma attack_damage_monotone_witness :
  (attack charmander <= attack pikachu /\ defense pikachu <= defense charmander) /\
  attack_damage charmander charmander <= attack_damage pikachu pikachu.
Proof.
  split; [split; cbn; lia |].
  apply (attack_damage_monotone charmander pikachu charmander pikachu); cbn; lia.
Defined.

(** ** What an attack touches *)



(** ** A battle with a Pokemon that has already fainted *)

(** When one of the two starts at hp 0 or below, no attack is made, the
    generator is not used, no hp changes, and the battle returns at once,
    whatever the fuel and the moves: the name of the first Pokemon when its
    hp is above 0, and of the second otherwise, also when the second is at
    0 itself. *)
Theorem battle_with_fainted (fuel : nat) (w : World) (self l1 l2 : loc)
    (a : BattleArena) (p1 p2 : Pokemon) :
  arenas w !! self = Some a ->
  pokes w !! l1 = Some p1 ->
  pokes w !! l2 = Some p2 ->
  hp p1 <= 0 \/ hp p2 <= 0 ->
  exists w',
    battle fuel self l1 l2 w = Ret (if hp p1 >? 0 then name p1 else name p2) w' /\
    pokes w' = pokes w /\
    draws w' = draws w /\
    stdout w' = stdout w ++
      [DebugCalling "battle" [VObject self; VPokemon p1; VPokemon p2];
       BattleStarts (name p1) (name p2);
       WinnerIs (if hp p1 >? 0 then name p1 else name p2);
       DebugReturned "battle" (VStr (if hp p1 >? 0 then name p1 else name p2))].
Proof.
  intros Ha H1 H2 Hf.
  rewrite (battle_run fuel w self l1 l2 p1 p2 H1 H2).
  rewrite (battle_loop_unfold fuel (battle_start w self p1 p2) l1 l2 p1 p2 H1 H2).
  assert (Hc : (hp p1 >? 0) && (hp p2 >? 0) = false).
  { destruct (Z.gtb_spec (hp p1) 0); destruct (Z.gtb_spec (hp p2) 0);
      cbn; try reflexivity; lia. }
  rewrite Hc. cbn. rewrite H1, H2, Ha.
  destruct (hp p1 >? 0); cbn; eexists;
    (split; [reflexivity |]); (split; [reflexivity |]);
    (split; [reflexivity |]); unfold after_battle, battle_start; cbn;
    rewrite <- !app_assoc; reflexivity.
Qed.

Lemma battle_with_fainted_witness :
  (arenas world_after_first_battle !! 0%nat =
     Some (mkArena [[("pkmn1", "Pikachu"); ("pkmn2", "Charmander");
                     ("winner", "Pikachu")]]) /\
   pokes world_after_first_battle !! 1%nat = Some (set_hp 0 charmander) /\
   pokes world_after_first_battle !! 2%nat = Some magikarp /\
   (hp (set_hp 0 charmander) <= 0 \/ hp magikarp <= 0)) /\
  exists w',
    battle 0 0 1 2 world_after_first_battle = Ret "Magikarp" w' /\
    pokes w' = pokes world_after_first_battle.
Proof.
  split.
  - split; [vm_compute; reflexivity |]. split; [vm_compute; reflexivity |].
    split; [vm_compute; reflexivity |]. left. cbn. lia.
  - destruct (battle_with_fainted 0 world_after_first_battle 0%nat 1%nat 2%nat
                (mkArena [[("pkmn1", "Pikachu"); ("pkmn2", "Charmander");
                           ("winner", "Pikachu")]])
                (set_hp 0 charmander) magikarp)
      as (w' & Hrun & Hp & _).
    + vm_compute. reflexivity.
    + vm_compute. reflexivity.
    + vm_compute. reflexivity.
    + left. cbn. lia.
    + exists w'. split; [exact Hrun | exact Hp].
Defined.

Section PreservesProgram.
Variable R : World -> World -> Prop.
Hypothesis R_refl : forall w, R w w.
Hypothesis R_trans : forall w1 w2 w3, R w1 w2 -> R w2 w3 -> R w1 w3.
Hypothesis R_emit : forall e w, R w (emit e w).
Hypothesis R_draw : forall n w, R w (set_draws n w).
Hypothesis R_hp : forall l p v w,
  pokes w !! l = Some p -> R w (set_pokes <[l := set_hp v p]> w).
Hypothesis R_history : forall l a d w,
  arenas w !! l = Some a ->
  R w (set_arenas <[l := mkArena (history a ++ [d])]> w).
Hypothesis R_next_id : forall w, R w (set_id_gen (S (id_gen w)) w).
Hypothesis R_alloc : forall p w,
  R w (set_pokes <[fresh (dom (pokes w)) := p]> w).
Hypothesis R_new_arena : forall w,
  R w (set_arenas <[fresh (dom (arenas w)) := mkArena []]> w).

Ltac chain := repeat first [ apply preserves_bind; [exact R_trans | | intros ?]
                           | apply preserves_ret; exact R_refl
                           | apply preserves_print; exact R_emit
                           | apply preserves_deref; exact R_refl ].

Lemma preserves_Pokemon_new name0 type0 hp0 attack0 defense0 speed0 moves0 :
  preserves R (Pokemon_new name0 type0 hp0 attack0 defense0 speed0 moves0).
Proof.
  unfold Pokemon_new. chain.
  - intros w. apply R_next_id.
  - intros w. apply R_alloc.
Qed.

Lemma preserves_BattleArena_new : preserves R BattleArena_new.
Proof. intros w. apply R_new_arena. Qed.

Lemma preserves_deref_all roster : preserves R (deref_all roster).
Proof. induction roster as [| l roster IH]; cbn [deref_all]; chain. exact IH. Qed.

Lemma preserves_mean data : preserves R (mean data).
Proof.
  intros w. unfold mean.
  destruct (Z.of_nat (length data) <? 1); [apply R_refl |].
  destruct (sum data mod Z.of_nat (length data) =? 0); [apply R_refl |].
  destruct (binary64_of_ratio _ _); apply R_refl.
Qed.

Lemma preserves_py_max data : preserves R (py_max data).
Proof. intros w. destruct data; apply R_refl. Qed.

Lemma preserves_py_min data : preserves R (py_min data).
Proof. intros w. destruct data; apply R_refl. Qed.

Lemma preserves_pokemon_statistics roster : preserves R (pokemon_statistics roster).
Proof.
  unfold pokemon_statistics, pokemon_statistics_body, log_action.
  repeat first [ apply preserves_deref_all | apply preserves_mean
               | apply preserves_py_max | apply preserves_py_min
               | apply preserves_bind; [exact R_trans | | intros ?]
               | apply preserves_ret; exact R_refl
               | apply preserves_print; exact R_emit ].
Qed.

Lemma preserves_get_world : preserves R get_world.
Proof. intros w. apply R_refl. Qed.

Lemma preserves_group_by_type roster : preserves R (group_by_type roster).
Proof.
  unfold group_by_type, group_by_type_body, log_action.
  repeat first [ apply preserves_deref_all | apply preserves_get_world
               | apply preserves_bind; [exact R_trans | | intros ?]
               | apply preserves_ret; exact R_refl
               | apply preserves_print; exact R_emit ].
Qed.

Lemma preserves_run_op op : preserves R (run_op op).
Proof.
  destruct op as [e d | a d | fuel arena a b]; cbn [run_op].
  - apply preserves_receive_damage; assumption.
  - apply preserves_attack_opponent; assumption.
  - apply preserves_bind; [exact R_trans | apply preserves_battle; assumption |].
    intros ?. apply preserves_ret, R_refl.
Qed.

Lemma preserves_run_command c : preserves R (run_command c).
Proof.
  destruct c; cbn [run_command];
    first [ apply preserves_run_op
          | apply preserves_bind;
            [ exact R_trans
            | first [ apply preserves_Pokemon_new | apply preserves_BattleArena_new
                    | apply preserves_pokemon_statistics | apply preserves_group_by_type ]
            | intros ?; apply preserves_ret, R_refl ] ].
Qed.

Lemma preserves_run_commands_from cs :
  (forall c, preserves R (run_command c)) -> preserves R (run_commands cs).
Proof.
  intros Hc. induction cs as [| c cs IH]; cbn [run_commands].
  - apply preserves_ret, R_refl.
  - apply preserves_bind; [exact R_trans | apply Hc |].
    intros ?. exact IH.
Qed.

Lemma preserves_run_commands cs : preserves R (run_commands cs).
Proof. apply preserves_run_commands_from, preserves_run_command. Qed.
End PreservesProgram.

(** ** Programs *)

Lemma keeps_static_trans w1 w2 w3 :
  keeps_static w1 w2 -> keeps_static w2 w3 -> keeps_static w1 w3.
Proof.
  intros H12 H23 l p Hl. destruct (H12 l p Hl) as (p' & Hl' & Hs').
  destruct (H23 l p' Hl') as (p'' & Hl'' & Hs''). exists p''.
  split; [exact Hl'' | congruence].
Qed.

Lemma keeps_static_same_pokes w w' : pokes w' = pokes w -> keeps_static w w'.
Proof. intros E l p Hl. exists p. rewrite E. split; [exact Hl | reflexivity]. Qed.

Lemma run_commands_keeps_static cs : preserves keeps_static (run_commands cs).
Proof.
  apply preserves_run_commands.
  - intros w. apply keeps_static_same_pokes. reflexivity.
  - apply keeps_static_trans.
  - intros e w. apply keeps_static_same_pokes. reflexivity.
  - intros n w. apply keeps_static_same_pokes. reflexivity.
  - intros l p v w Hl l' p' Hl'. cbn. destruct (decide (l = l')) as [<- | Hne].
    + rewrite lookup_insert_eq. eexists. split; [reflexivity |].
      assert (p' = p) by congruence. subst p'. reflexivity.
    + rewrite lookup_insert_ne by exact Hne. eauto.
  - intros l a d w _. apply keeps_static_same_pokes. reflexivity.
  - intros w. apply keeps_static_same_pokes. reflexivity.
  - intros p w l p' Hl'. cbn. exists p'. split; [| reflexivity].
    rewrite lookup_insert_ne; [exact Hl' |].
    intros E. rewrite <- E, fresh_loc_unused in Hl'. discriminate.
  - intros w. apply keeps_static_same_pokes. reflexivity.
Qed.

(** Whatever is called on it afterwards, a Pokemon stays in the store with
    the name, type, id, moves, sort_index and combat values it has, and so
    with the power level it has. *)
Theorem power_level_is_constant (cs : list command) (w : World) :
  match run_commands cs w with
  | Ret _ w' | Raise _ w' =>
      forall l p, pokes w !! l = Some p ->
        exists p', pokes w' !! l = Some p' /\
                   static p' = static p /\
                   power_level p' = power_level p
  | Wrong | Timeout => True
  end.
Proof.
  pose proof (run_commands_keeps_static cs w) as H.
  destruct (run_commands cs w) as [u w' | e w' | |]; try exact I;
    intros l p Hl; destruct (H l p Hl) as (p' & Hl' & Hs); exists p';
    (split; [exact Hl' |]); (split; [exact Hs |]);
    unfold static in Hs; unfold power_level; congruence.
Qed.

Lemma history_grows_same_arenas w w' : arenas w' = arenas w -> history_grows w w'.
Proof. intros E l a Hl. exists a. rewrite E. split; [exact Hl | reflexivity]. Qed.

(** No call ever drops or rewrites an entry of a battle history, whether
    it returns or raises. *)
Theorem history_is_append_only (cs : list command) :
  preserves history_grows (run_commands cs).
Proof.
  apply preserves_run_commands.
  - intros w. apply history_grows_same_arenas. reflexivity.
  - intros w1 w2 w3 H12 H23 l a Hl. destruct (H12 l a Hl) as (a' & Hl' & Hp').
    destruct (H23 l a' Hl') as (a'' & Hl'' & Hp''). exists a''.
    split; [exact Hl'' | etrans; eassumption].
  - intros e w. apply history_grows_same_arenas. reflexivity.
  - intros n w. apply history_grows_same_arenas. reflexivity.
  - intros l p v w _. apply history_grows_same_arenas. reflexivity.
  - intros l a d w Hl l' a' Hl'. cbn. destruct (decide (l = l')) as [<- | Hne].
    + rewrite lookup_insert_eq. eexists. split; [reflexivity |]. cbn.
      assert (a' = a) by congruence. subst a'. apply prefix_app_r. reflexivity.
    + rewrite lookup_insert_ne by exact Hne. exists a'. split; [exact Hl' | reflexivity].
  - intros w. apply history_grows_same_arenas. reflexivity.
  - intros p w. apply history_grows_same_arenas. reflexivity.
  - intros w l a Hl. cbn. exists a. split; [| reflexivity].
    rewrite lookup_insert_ne; [exact Hl |].
    intros E. rewrite <- E in Hl.
    assert (arenas w !! fresh (dom (arenas w)) = None)
      by (apply not_elem_of_dom, is_fresh).
    congruence.
Qed.

Lemma ids_sequential_same w w' :
  pokes w' = pokes w -> id_gen w' = id_gen w -> ids_sequential w -> ids_sequential w'.
Proof. unfold ids_sequential. intros -> ->. auto. Qed.

Lemma ids_sequential_set_hp l p v w :
  pokes w !! l = Some p -> ids_sequential w ->
  ids_sequential (set_pokes <[l := set_hp v p]> w).
Proof.
  intros Hl (Hid & Huniq & Hsize).
  assert (Hlook : forall l' q, <[l := set_hp v p]> (pokes w) !! l' = Some q ->
            exists q0, pokes w !! l' = Some q0 /\ id q = id q0).
  { intros l' q. destruct (decide (l = l')) as [<- | Hne].
    - rewrite lookup_insert_eq. intros [= <-]. exists p. split; [exact Hl | reflexivity].
    - rewrite lookup_insert_ne by exact Hne. intros Hq. exists q. auto. }
  split; [| split]; cbn.
  - intros l' q Hq. destruct (Hlook l' q Hq) as (q0 & Hq0 & ->). eauto.
  - intros l1 l2 q1 q2 Hq1 Hq2 E.
    destruct (Hlook l1 q1 Hq1) as (r1 & Hr1 & E1).
    destruct (Hlook l2 q2 Hq2) as (r2 & Hr2 & E2).
    apply (Huniq l1 l2 r1 r2 Hr1 Hr2). congruence.
  - rewrite <- Hsize. f_equal. apply map_size_insert_Some. eauto.
Qed.

Lemma ids_sequential_create hp0 name0 type0 attack0 defense0 speed0 moves0 w :
  ids_sequential w ->
  ids_sequential
    (set_pokes
       <[fresh (dom (pokes (set_id_gen (S (id_gen w)) w))) :=
           mkPokemon hp0 name0 type0 hp0 attack0 defense0 speed0 moves0
             ("PKMN-" +:+ pretty (id_gen w))]>
       (set_id_gen (S (id_gen w)) w)).
Proof.
  intros (Hid & Huniq & Hsize). cbn.
  set (l0 := fresh (dom (pokes w))).
  assert (Hfresh : pokes w !! l0 = None) by apply fresh_loc_unused.
  split; [| split]; cbn.
  - intros l p. destruct (decide (l0 = l)) as [<- | Hne].
    + rewrite lookup_insert_eq. intros [= <-]. exists (id_gen w). cbn.
      split; [lia | reflexivity].
    + rewrite lookup_insert_ne by exact Hne. intros Hp.
      destruct (Hid l p Hp) as (k & Hk & E). exists k. split; [lia | exact E].
  - assert (Hnew : forall l p, pokes w !! l = Some p ->
              id p <> "PKMN-" +:+ pretty (id_gen w)).
    { intros l p Hp E. destruct (Hid l p Hp) as (k & Hk & Ek).
      rewrite Ek in E. apply (inj (String.app "PKMN-")) in E.
      apply (inj pretty) in E. lia. }
    intros l1 l2 p1 p2.
    destruct (decide (l0 = l1)) as [<- | Hne1];
      destruct (decide (l0 = l2)) as [<- | Hne2];
      rewrite ?lookup_insert_eq, ?lookup_insert_ne by assumption.
    + reflexivity.
    + intros [= <-] Hp2 E. cbn in E. symmetry in E. elim (Hnew l2 p2 Hp2 E).
    + intros Hp1 [= <-] E. cbn in E. elim (Hnew l1 p1 Hp1 E).
    + apply Huniq.
  - rewrite map_size_insert_None by exact Hfresh. rewrite Hsize. reflexivity.
Qed.

(** The ids of the Pokemon built by a program that starts in the empty
    process are PKMN-1, PKMN-2, ..., one per Pokemon, and no two Pokemon
    share one; nothing that is called changes that. *)
Theorem ids_are_sequential_and_unique (cs : list command) (rnd : nat -> nat) :
  match run_commands cs (world0 rnd) with
  | Ret _ w | Raise _ w => ids_sequential w
  | Wrong | Timeout => True
  end.
Proof.
  set (R := fun w w' => ids_sequential w -> ids_sequential w').
  assert (Hrefl : forall w, R w w) by (intros w H; exact H).
  assert (Htrans : forall w1 w2 w3, R w1 w2 -> R w2 w3 -> R w1 w3)
    by (intros w1 w2 w3 H12 H23 H; auto).
  assert (Hemit : forall e w, R w (emit e w))
    by (intros e w Hw; exact (ids_sequential_same w _ eq_refl eq_refl Hw)).
  assert (Hdraw : forall n w, R w (set_draws n w))
    by (intros n w Hw; exact (ids_sequential_same w _ eq_refl eq_refl Hw)).
  assert (Hhp : forall l p v w, pokes w !! l = Some p ->
                  R w (set_pokes <[l := set_hp v p]> w))
    by (intros l p v w Hl Hw; exact (ids_sequential_set_hp l p v w Hl Hw)).
  assert (Hhist : forall l a d w, arenas w !! l = Some a ->
                    R w (set_arenas <[l := mkArena (history a ++ [d])]> w))
    by (intros l a d w _ Hw; exact (ids_sequential_same w _ eq_refl eq_refl Hw)).
  assert (Hcmd : forall c, preserves R (run_command c)).
  { intros [name0 type0 hp0 attack0 defense0 speed0 moves0 | | op | roster | roster];
      cbn [run_command].
    - intros w. unfold_M. rewrite Pokemon_new_run. cbn zeta. intros Hw.
      apply (ids_sequential_same _ _ eq_refl eq_refl).
      apply (ids_sequential_create hp0 name0 type0 attack0 defense0 speed0 moves0 w Hw).
    - intros w. unfold_M. unfold BattleArena_new. intros Hw.
      exact (ids_sequential_same w _ eq_refl eq_refl Hw).
    - apply preserves_run_op; assumption.
    - apply preserves_bind; [exact Htrans | apply preserves_pokemon_statistics; assumption |].
      intros ?. apply preserves_ret, Hrefl.
    - apply preserves_bind; [exact Htrans | apply preserves_group_by_type; assumption |].
      intros ?. apply preserves_ret, Hrefl. }
  pose proof (preserves_run_commands_from R Hrefl Htrans cs Hcmd (world0 rnd)) as H.
  assert (Hinit : ids_sequential (world0 rnd)).
  { split; [| split]; cbn.
    - intros l p Hl. rewrite lookup_empty in Hl. discriminate.
    - intros l1 l2 p1 p2 Hl. rewrite lookup_empty in Hl. discriminate.
    - rewrite map_size_empty. reflexivity. }
  destruct (run_commands cs (world0 rnd)); auto.
Qed.

(** ** What a battle does to hp *)

Lemma battle_effect_same l1 l2 w w' : pokes w' = pokes w -> battle_effect l1 l2 w w'.
Proof.
  intros E l. rewrite E. destruct (pokes w !! l); [| exact I].
  split; [reflexivity |]. split; [left; reflexivity | reflexivity].
Qed.

Lemma battle_effect_trans l1 l2 w1 w2 w3 :
  battle_effect l1 l2 w1 w2 -> battle_effect l1 l2 w2 w3 -> battle_effect l1 l2 w1 w3.
Proof.
  intros H12 H23 l. specialize (H12 l). specialize (H23 l).
  destruct (pokes w1 !! l) as [p1 |], (pokes w2 !! l) as [p2 |],
    (pokes w3 !! l) as [p3 |]; try contradiction; try exact I.
  destruct H12 as (Hs1 & Hh1 & Ho1), H23 as (Hs2 & Hh2 & Ho2).
  split; [congruence |]. split; [lia |].
  intros Hn1 Hn2. rewrite (Ho2 Hn1 Hn2). auto.
Qed.

Lemma battle_effect_sym l1 l2 w w' : battle_effect l1 l2 w w' -> battle_effect l2 l1 w w'.
Proof.
  intros H l. specialize (H l).
  destruct (pokes w !! l), (pokes w' !! l); try exact H.
  destruct H as (Hs & Hh & Ho). auto.
Qed.

(** An attack on one of the two, who is above 0. *)
Lemma attack_effect l1 l2 w a d pa pd :
  pokes w !! a = Some pa -> pokes w !! d = Some pd ->
  d = l1 \/ d = l2 -> 0 < hp pd ->
  match attack_opponent a d w with
  | Ret _ w' | Raise _ w' => battle_effect l1 l2 w w'
  | Wrong | Timeout => False
  end.
Proof.
  intros Ha Hd Hwho Hpos. pose proof (attack_damage_pos pa pd) as Hdmg.
  destruct (attack_opponent_cases w a d pa pd Ha Hd) as [[_ ->] | (mv & _ & ->)].
  - apply battle_effect_same. reflexivity.
  - intros l. cbn. destruct (decide (d = l)) as [<- | Hne].
    + rewrite lookup_insert_eq, Hd. cbn. split; [reflexivity |].
      split; [right; lia |]. intros H1 H2. destruct Hwho; congruence.
    + rewrite lookup_insert_ne by exact Hne.
      destruct (pokes w !! l); [| exact I].
      split; [reflexivity |]. split; [left; reflexivity | reflexivity].
Qed.

Lemma exchange_effect w f s pf ps :
  pokes w !! f = Some pf -> pokes w !! s = Some ps ->
  0 < hp pf -> 0 < hp ps ->
  match exchange f s w with
  | Ret _ w' | Raise _ w' => battle_effect f s w w'
  | Wrong | Timeout => False
  end.
Proof.
  intros Hf Hs Hpf Hps. unfold exchange.
  pose proof (attack_effect f s w f s pf ps Hf Hs ltac:(right; reflexivity) Hps) as H1.
  pose proof (attack_damage_pos pf ps) as Hd1.
  destruct (attack_opponent_cases w f s pf ps Hf Hs) as [[_ Hr] | (mv & _ & Hr)];
    rewrite Hr in H1.
  { rewrite (bind_Raise _ _ _ _ _ Hr). exact H1. }
  rewrite (bind_Ret _ _ _ _ _ Hr).
  set (w1 := after_attack w pf ps s mv) in *.
  set (ps1 := set_hp (Z.max (hp ps - attack_damage pf ps) 0) ps).
  assert (Hs1 : pokes w1 !! s = Some ps1) by (cbn; apply lookup_insert_eq).
  rewrite (bind_Ret _ _ _ _ _ (deref_run _ _ _ Hs1)).
  destruct (Z.leb_spec (hp ps1) 0) as [Hle | Hgt]; [exact H1 |].
  assert (Hf1 : exists pf1, pokes w1 !! f = Some pf1 /\ 0 < hp pf1).
  { destruct (decide (s = f)) as [<- | Hne].
    - exists ps1. split; [exact Hs1 | exact Hgt].
    - exists pf. split; [| exact Hpf]. cbn.
      rewrite lookup_insert_ne by exact Hne. exact Hf. }
  destruct Hf1 as (pf1 & Hf1 & Hpf1).
  pose proof (attack_effect f s w1 s f ps1 pf1 Hs1 Hf1 ltac:(left; reflexivity) Hpf1)
    as H2.
  destruct (attack_opponent s f w1) as [[] w2 | e w2 | |] eqn:Hr2; try contradiction.
  - rewrite (bind_Ret _ _ _ _ _ Hr2). cbn.
    eapply battle_effect_trans; eassumption.
  - rewrite (bind_Raise _ _ _ _ _ Hr2).
    eapply battle_effect_trans; eassumption.
Qed.

Lemma battle_round_effect w l1 l2 p1 p2 :
  pokes w !! l1 = Some p1 -> pokes w !! l2 = Some p2 ->
  0 < hp p1 -> 0 < hp p2 ->
  match battle_round l1 l2 w with
  | Ret _ w' | Raise _ w' => battle_effect l1 l2 w w'
  | Wrong | Timeout => False
  end.
Proof.
  intros H1 H2 Hp1 Hp2. rewrite (battle_round_run w l1 l2 p1 p2 H1 H2).
  unfold first_of, second_of. destruct (speed p1 >=? speed p2).
  - apply (exchange_effect w l1 l2 p1 p2); assumption.
  - pose proof (exchange_effect w l2 l1 p2 p1 H2 H1 Hp2 Hp1) as H.
    destruct (exchange l2 l1 w); try exact H; apply battle_effect_sym, H.
Qed.

Lemma battle_loop_wrong fuel l1 l2 w :
  pokes w !! l1 = None \/ pokes w !! l2 = None ->
  battle_loop fuel l1 l2 w = Wrong.
Proof.
  intros H. destruct fuel; cbn [battle_loop]; unfold_M; unfold deref;
    destruct (pokes w !! l1); destruct H as [H | H]; try discriminate H;
    try reflexivity; rewrite H; reflexivity.
Qed.

Lemma battle_loop_effect l1 l2 fuel :
  preserves (battle_effect l1 l2) (battle_loop fuel l1 l2).
Proof.
  induction fuel as [| fuel IH]; intros w;
    (destruct (pokes w !! l1) as [p1 |] eqn:H1;
       [| rewrite battle_loop_wrong by (left; exact H1); exact I]);
    (destruct (pokes w !! l2) as [p2 |] eqn:H2;
       [| rewrite battle_loop_wrong by (right; exact H2); exact I]);
    rewrite (battle_loop_unfold _ w l1 l2 p1 p2 H1 H2);
    destruct (Z.gtb_spec (hp p1) 0) as [Hp1 | Hp1];
    destruct (Z.gtb_spec (hp p2) 0) as [Hp2 | Hp2]; cbn [andb];
    try (apply battle_effect_same; reflexivity); try exact I.
  pose proof (battle_round_effect w l1 l2 p1 p2 H1 H2 Hp1 Hp2) as Hr.
  unfold_M. destruct (battle_round l1 l2 w) as [fl w1 | e w1 | |];
    try contradiction; [| exact Hr].
  destruct fl; [| exact Hr].
  specialize (IH w1). destruct (battle_loop fuel l1 l2 w1); try exact I;
    eapply battle_effect_trans; eassumption.
Qed.

Lemma battle_wrong fuel self l1 l2 w :
  pokes w !! l1 = None \/ pokes w !! l2 = None ->
  battle fuel self l1 l2 w = Wrong.
Proof.
  intros H. unfold battle. unfold_M. unfold deref.
  destruct (pokes w !! l1); destruct H as [H | H]; try discriminate H;
    try reflexivity; rewrite H; reflexivity.
Qed.

(** A battle, however it ends, only lowers hp, never below 0, and only the
    hp of the two Pokemon it is called on: every other Pokemon is as it
    was, and none is added or removed. *)
Theorem battle_only_lowers_hp (fuel : nat) (self l1 l2 : loc) :
  preserves (battle_effect l1 l2) (battle fuel self l1 l2).
Proof.
  intros w.
  destruct (pokes w !! l1) as [p1 |] eqn:H1;
    [| rewrite battle_wrong by (left; exact H1); exact I].
  destruct (pokes w !! l2) as [p2 |] eqn:H2;
    [| rewrite battle_wrong by (right; exact H2); exact I].
  rewrite (battle_run fuel w self l1 l2 p1 p2 H1 H2).
  pose proof (battle_loop_effect l1 l2 fuel (battle_start w self p1 p2)) as Hl.
  destruct (battle_loop fuel l1 l2 (battle_start w self p1 p2))
    as [u w1 | e w1 | |]; try exact I.
  - destruct (pokes w1 !! l1), (pokes w1 !! l2), (arenas w1 !! self);
      try exact I.
    cbn zeta. intros l. specialize (Hl l). exact Hl.
  - exact Hl.
Qed.

(** ** Independence from the random generator and from what was printed *)

Lemma same_objects_refl w : same_objects w w.
Proof. repeat split. Qed.

Lemma related_ret {A} (Rv : A -> A -> Prop) a1 a2 :
  Rv a1 a2 -> related Rv (mret a1) (mret a2).
Proof. intros Ha w1 w2 Hw. split; assumption. Qed.

Lemma related_bind {A B} (Rv : A -> A -> Prop) (Rv' : B -> B -> Prop)
    (m1 m2 : M A) (k1 k2 : A -> M B) :
  related Rv m1 m2 ->
  (forall a1 a2, Rv a1 a2 -> related Rv' (k1 a1) (k2 a2)) ->
  related Rv' (m1 ≫= k1) (m2 ≫= k2).
Proof.
  intros Hm Hk w1 w2 Hw. unfold_M. specialize (Hm w1 w2 Hw).
  destruct (m1 w1) as [a1 w1' | e1 w1' | |], (m2 w2) as [a2 w2' | e2 w2' | |];
    try contradiction; try exact Hm.
  destruct Hm as [Ha Hw']. exact (Hk a1 a2 Ha w1' w2' Hw').
Qed.

Lemma related_timeout {A} (Rv : A -> A -> Prop) : related Rv timeout timeout.
Proof. intros w1 w2 _. exact I. Qed.

Lemma related_print e1 e2 : related eq (print e1) (print e2).
Proof. intros w1 w2 (Hp & Ha & Hi). split; [reflexivity |]. repeat split; assumption. Qed.

Lemma related_deref l : related eq (deref l) (deref l).
Proof.
  intros w1 w2 (Hp & Ha & Hi). unfold deref. rewrite Hp.
  destruct (pokes w2 !! l); [| exact I]. split; [reflexivity |].
  repeat split; assumption.
Qed.

Lemma related_store_hp l v : related eq (store_hp l v) (store_hp l v).
Proof.
  intros w1 w2 (Hp & Ha & Hi). unfold store_hp. rewrite Hp.
  destruct (pokes w2 !! l); [| exact I]. split; [reflexivity |].
  split; [cbn; rewrite Hp; reflexivity |]. split; assumption.
Qed.

(** The draw may differ, not whether there is one. *)
Lemma related_random_choice seq :
  related (fun _ _ => True) (random_choice seq) (random_choice seq).
Proof.
  intros w1 w2 (Hp & Ha & Hi). unfold random_choice.
  destruct seq as [| x seq].
  - cbn. split; [reflexivity |]. repeat split; assumption.
  - destruct (choice_index_valid (x :: seq) (entropy w1 (draws w1))) as [y1 ->];
      [discriminate |].
    destruct (choice_index_valid (x :: seq) (entropy w2 (draws w2))) as [y2 ->];
      [discriminate |].
    split; [exact I |]. repeat split; assumption.
Qed.

Lemma related_history_append l d :
  related eq (history_append l d) (history_append l d).
Proof.
  intros w1 w2 (Hp & Ha & Hi). unfold history_append. rewrite Ha.
  destruct (arenas w2 !! l); [| exact I]. split; [reflexivity |].
  split; [assumption |]. split; [cbn; rewrite Ha; reflexivity | assumption].
Qed.

Ltac related_step :=
  first [ apply related_deref | apply related_store_hp | apply related_print
        | apply related_history_append | apply related_timeout
        | apply (related_ret eq); reflexivity
        | eapply related_bind;
            [ first [ apply related_deref | apply related_store_hp
                    | apply related_print | apply related_history_append ]
            | intros ? ? <- ]
        | match goal with |- related _ (if ?b then _ else _) (if ?b then _ else _) =>
            destruct b end ].

Lemma related_receive_damage l d :
  related eq (receive_damage l d) (receive_damage l d).
Proof. unfold receive_damage. repeat related_step. Qed.

Lemma related_attack_opponent a d :
  related eq (attack_opponent a d) (attack_opponent a d).
Proof.
  unfold attack_opponent, log_action, attack_opponent_body.
  repeat related_step.
  eapply related_bind.
  - repeat related_step. eapply related_bind; [apply related_random_choice |].
    intros mv1 mv2 _. repeat related_step.
  - intros ? ? <-. repeat related_step.
Qed.

Lemma related_battle_round l1 l2 :
  related eq (battle_round l1 l2) (battle_round l1 l2).
Proof.
  unfold battle_round.
  repeat first [ related_step
               | eapply related_bind; [apply related_attack_opponent | intros ? ? <-] ].
Qed.

Lemma related_battle_loop fuel l1 l2 :
  related eq (battle_loop fuel l1 l2) (battle_loop fuel l1 l2).
Proof.
  induction fuel as [| fuel IH]; cbn [battle_loop]; repeat related_step.
  eapply related_bind; [apply related_battle_round |].
  intros f ? <-. destruct f; [exact IH | related_step].
Qed.

Lemma related_battle fuel self l1 l2 :
  related eq (battle fuel self l1 l2) (battle fuel self l1 l2).
Proof.
  unfold battle, log_action, battle_body. repeat related_step.
  eapply related_bind.
  - repeat related_step.
    eapply related_bind; [apply related_battle_loop | intros ? ? <-].
    repeat related_step.
  - intros ? ? <-. repeat related_step.
Qed.

(** Which move is drawn has no part in a battle: with any other state of
    the random generator the battle ends the same way, with the same
    winner, the same hp and the same histories. *)
Theorem battle_ignores_random (fuel : nat) (self l1 l2 : loc) (w : World)
    (rnd : nat -> nat) (n : nat) :
  match battle fuel self l1 l2 w, battle fuel self l1 l2 (reseed rnd n w) with
  | Ret winner w1, Ret winner' w2 =>
      winner = winner' /\ pokes w1 = pokes w2 /\ arenas w1 = arenas w2
  | Raise e w1, Raise e' w2 =>
      e = e' /\ pokes w1 = pokes w2 /\ arenas w1 = arenas w2
  | Wrong, Wrong => True
  | Timeout, Timeout => True
  | _, _ => False
  end.
Proof.
  pose proof (related_battle fuel self l1 l2 w (reseed rnd n w)
                ltac:(repeat split)) as H.
  destruct (battle fuel self l1 l2 w), (battle fuel self l1 l2 (reseed rnd n w));
    try exact H; destruct H as (? & ? & ? & ?); auto.
Qed.

(** ** The aggregations read and do not write *)

Lemma only_printed_refl w : only_printed w w.
Proof. repeat split. exists []. symmetry. apply app_nil_r. Qed.

Lemma only_printed_trans w1 w2 w3 :
  only_printed w1 w2 -> only_printed w2 w3 -> only_printed w1 w3.
Proof.
  intros (Hp & Ha & Hi & Hd & He & k1 & Hk1) (Hp' & Ha' & Hi' & Hd' & He' & k2 & Hk2).
  repeat split; try congruence. exists (k1 ++ k2).
  rewrite Hk2, Hk1, app_assoc. reflexivity.
Qed.

Lemma only_printed_emit e w : only_printed w (emit e w).
Proof. repeat split. exists [e]. reflexivity. Qed.

Lemma only_printed_same_objects w w' : only_printed w w' -> same_objects w w'.
Proof. intros (Hp & Ha & Hi & _). repeat split; congruence. Qed.

Lemma pokemon_statistics_only_prints roster :
  preserves only_printed (pokemon_statistics roster).
Proof.
  apply preserves_pokemon_statistics;
    [apply only_printed_refl | apply only_printed_trans | apply only_printed_emit].
Qed.

Lemma group_by_type_only_prints roster :
  preserves only_printed (group_by_type roster).
Proof.
  apply preserves_group_by_type;
    [apply only_printed_refl | apply only_printed_trans | apply only_printed_emit].
Qed.

Lemma deref_all_cases roster w :
  (exists ps, deref_all roster w = Ret ps w) \/ deref_all roster w = Wrong.
Proof.
  induction roster as [| l roster IH]; cbn [deref_all].
  - left. eexists. reflexivity.
  - unfold_M. unfold deref. destruct (pokes w !! l) as [p |]; [| right; reflexivity].
    destruct IH as [[ps ->] | ->]; [left; eexists; reflexivity | right; reflexivity].
Qed.

Lemma related_deref_all roster : related eq (deref_all roster) (deref_all roster).
Proof.
  induction roster as [| l roster IH]; cbn [deref_all].
  - apply (related_ret eq). reflexivity.
  - eapply related_bind; [apply related_deref | intros p ? <-].
    eapply related_bind; [exact IH | intros ps ? <-].
    apply (related_ret eq). reflexivity.
Qed.

Lemma related_pure {A} (m : M A) :
  (forall w, (exists a, m w = Ret a w /\ forall w', m w' = Ret a w') \/
             (exists e, m w = Raise e w /\ forall w', m w' = Raise e w')) ->
  related eq m m.
Proof.
  intros Hm w1 w2 Hw. destruct (Hm w1) as [(a & -> & Ha) | (e & -> & He)].
  - rewrite (Ha w2). split; [reflexivity | exact Hw].
  - rewrite (He w2). split; [reflexivity | exact Hw].
Qed.

Lemma related_mean data : related eq (mean data) (mean data).
Proof.
  apply related_pure. intros w. unfold mean.
  destruct (Z.of_nat (length data) <? 1); [right; eexists; split; reflexivity |].
  destruct (sum data mod Z.of_nat (length data) =? 0);
    [left; eexists; split; reflexivity |].
  destruct (binary64_of_ratio _ _);
    [left | right]; eexists; split; reflexivity.
Qed.

Lemma related_py_max data : related eq (py_max data) (py_max data).
Proof.
  apply related_pure. intros w.
  destruct data; [right | left]; eexists; split; reflexivity.
Qed.

Lemma related_py_min data : related eq (py_min data) (py_min data).
Proof.
  apply related_pure. intros w.
  destruct data; [right | left]; eexists; split; reflexivity.
Qed.

Lemma related_pokemon_statistics roster :
  related eq (pokemon_statistics roster) (pokemon_statistics roster).
Proof.
  unfold pokemon_statistics, pokemon_statistics_body, log_action.
  eapply related_bind; [apply related_deref_all | intros ps ? <-].
  eapply related_bind; [apply related_print | intros ? ? <-].
  eapply related_bind.
  - eapply related_bind; [apply related_deref_all | intros ps' ? <-].
    eapply related_bind; [apply related_mean | intros ? ? <-].
    eapply related_bind; [apply related_py_max | intros ? ? <-].
    eapply related_bind; [apply related_py_min | intros ? ? <-].
    apply (related_ret eq). reflexivity.
  - intros ? ? <-.
    eapply related_bind; [apply related_print | intros ? ? <-].
    apply (related_ret eq). reflexivity.
Qed.

Lemma type_at_same w1 w2 roster :
  pokes w1 = pokes w2 ->
  grouped_by (type_at w1) roster = grouped_by (type_at w2) roster.
Proof. intros E. unfold type_at. rewrite E. reflexivity. Qed.

Lemma related_group_by_type roster :
  related eq (group_by_type roster) (group_by_type roster).
Proof.
  unfold group_by_type, group_by_type_body, log_action.
  eapply related_bind; [apply related_deref_all | intros ps ? <-].
  eapply (related_bind same_objects).
  { intros w1 w2 Hw. split; exact Hw. }
  intros u1 u2 Hu.
  eapply related_bind; [apply related_print | intros ? ? <-].
  eapply related_bind.
  - eapply related_bind; [apply related_deref_all | intros ps' ? <-].
    eapply (related_bind same_objects).
    { intros w1 w2 Hw. split; exact Hw. }
    intros v1 v2 Hv. apply (related_ret eq).
    apply type_at_same. exact (proj1 Hv).
  - intros ? ? <-.
    eapply related_bind; [apply related_print | intros ? ? <-].
    apply (related_ret eq). reflexivity.
Qed.

(** [pokemon_statistics] changes nothing but the printed lines, and a
    second call right after the first returns, or raises, the same. *)
Theorem pokemon_statistics_reads_only (roster : list loc) (w : World) :
  match pokemon_statistics roster w with
  | Ret stats w' =>
      only_printed w w' /\
      exists w'', pokemon_statistics roster w' = Ret stats w''
  | Raise e w' =>
      only_printed w w' /\
      exists w'', pokemon_statistics roster w' = Raise e w''
  | Wrong | Timeout => True
  end.
Proof.
  pose proof (pokemon_statistics_only_prints roster w) as Hp.
  destruct (pokemon_statistics roster w) as [stats w' | e w' | |] eqn:E;
    try exact I; (split; [exact Hp |]);
    pose proof (related_pokemon_statistics roster w w'
                  (only_printed_same_objects _ _ Hp)) as Hr;
    rewrite E in Hr;
    destruct (pokemon_statistics roster w') as [stats' w'' | e' w'' | |];
    try contradiction; destruct Hr as [<- _]; eexists; reflexivity.
Qed.

(** [group_by_type] changes nothing but the printed lines, and a second
    call right after the first returns the same groups. *)
Theorem group_by_type_reads_only (roster : list loc) (w : World) :
  match group_by_type roster w with
  | Ret grouped w' =>
      only_printed w w' /\
      exists w'', group_by_type roster w' = Ret grouped w''
  | Raise e w' => False
  | Wrong | Timeout => True
  end.
Proof.
  pose proof (group_by_type_only_prints roster w) as Hp.
  destruct (group_by_type roster w) as [grouped w' | e w' | |] eqn:E;
    try exact I.
  - split; [exact Hp |].
    pose proof (related_group_by_type roster w w'
                  (only_printed_same_objects _ _ Hp)) as Hr.
    rewrite E in Hr.
    destruct (group_by_type roster w') as [grouped' w'' | e' w'' | |];
      try contradiction. destruct Hr as [<- _]. eexists. reflexivity.
  - (* no step of [group_by_type] raises *)
    revert E. unfold group_by_type, group_by_type_body, log_action, get_world.
    unfold_M.
    destruct (deref_all_cases roster w) as [[ps ->] | ->]; [| discriminate].
    cbn.
    match goal with |- context [deref_all roster ?w0] =>
      destruct (deref_all_cases roster w0) as [[ps' ->] | ->]
    end; discriminate.
Qed.

(** ** Statistics: the empty roster, the order of the roster, the bounds *)

Lemma deref_all_valid w roster :
  Forall (fun l => is_Some (pokes w !! l)) roster ->
  exists ps, Forall2 (fun l p => pokes w !! l = Some p) roster ps /\
             map hp ps = map (hp_at w) roster.
Proof.
  induction 1 as [| l roster [p Hl] _ (ps & IH & Ehp)].
  - exists []. split; [constructor | reflexivity].
  - exists (p :: ps). split; [constructor; assumption |].
    cbn. unfold hp_at at 1. rewrite Hl, Ehp. reflexivity.
Qed.

(** [mean] leaves the world alone. *)
Lemma mean_pure data :
  (exists avg, forall w', mean data w' = Ret avg w') \/
  (exists e, (e = StatisticsError /\ data = [] \/ e = OverflowError /\ data <> []) /\
             forall w', mean data w' = Raise e w').
Proof.
  unfold mean. destruct (Z.ltb_spec (Z.of_nat (length data)) 1) as [Hn | Hn].
  - right. exists StatisticsError. split; [| reflexivity].
    left. split; [reflexivity |]. destruct data; [reflexivity | cbn in Hn; lia].
  - destruct (sum data mod Z.of_nat (length data) =? 0);
      [left; eexists; reflexivity |].
    destruct (binary64_of_ratio _ _); [left; eexists; reflexivity |].
    right. exists OverflowError. split; [| reflexivity].
    right. split; [reflexivity |]. destruct data; [cbn in Hn; lia | discriminate].
Qed.

(** [pokemon_statistics] in terms of the hp values it reads. *)
Lemma pokemon_statistics_run w roster ps :
  Forall2 (fun l p => pokes w !! l = Some p) roster ps ->
  let w1 := emit (DebugCalling "pokemon_statistics" [VList (map VPokemon ps)]) w in
  pokemon_statistics roster w =
    match mean (map hp ps) w1, map hp ps with
    | Ret avg _, x :: rest =>
        let stats := stats_of avg (foldl Z.max x rest) (foldl Z.min x rest) in
        Ret stats
          (emit (DebugReturned "pokemon_statistics"
                   (VDict (map (fun kv => (kv.1, show_number kv.2)) stats))) w1)
    | Ret _ _, [] => Raise ValueError w1
    | Raise e _, _ => Raise e w1
    | Wrong, _ => Wrong
    | Timeout, _ => Timeout
    end.
Proof.
  intros Hps. cbn zeta.
  unfold pokemon_statistics, pokemon_statistics_body, log_action.
  unfold_M. rewrite (deref_all_lookup w roster ps Hps). cbn.
  rewrite (deref_all_lookup _ roster ps) by exact Hps.
  match goal with |- context [mean (map hp ps) ?w0] =>
    destruct (mean_pure (map hp ps)) as [[avg Hm] | (e & _ & Hm)];
    rewrite !(Hm w0)
  end; [| reflexivity].
  destruct (map hp ps); reflexivity.
Qed.

(** Of the errors, the empty roster gives the one of [statistics.mean],
    which is called first, and only the empty roster gives it; [max] and
    [min] never get to raise. *)
Theorem pokemon_statistics_errors (w : World) (roster : list loc) :
  Forall (fun l => is_Some (pokes w !! l)) roster ->
  match pokemon_statistics roster w with
  | Ret _ _ => roster <> []
  | Raise StatisticsError w' =>
      roster = [] /\
      stdout w' = stdout w ++ [DebugCalling "pokemon_statistics" [VList []]]
  | Raise OverflowError _ => roster <> []
  | Raise _ _ => False
  | Wrong | Timeout => False
  end.
Proof.
  intros Hv. destruct (deref_all_valid w _ Hv) as (ps & Hps & _).
  rewrite (pokemon_statistics_run w roster ps Hps). cbn zeta.
  assert (Hlen : ps = [] <-> roster = []).
  { destruct Hps; split; intros; try reflexivity; discriminate. }
  match goal with |- context [mean (map hp ps) ?w0] =>
    destruct (mean_pure (map hp ps)) as [[avg Hm] | (e & He & Hm)];
    rewrite !(Hm w0)
  end.
  - destruct ps as [| p ps]; cbn.
    + exfalso. specialize (Hm w). cbn in Hm. discriminate Hm.
    + intros E. apply Hlen in E. discriminate.
  - destruct He as [[-> Hd] | [-> Hd]].
    + assert (ps = []) by (destruct ps; [reflexivity | discriminate Hd]).
      subst ps. split; [apply Hlen; reflexivity | reflexivity].
    + intros E. apply Hlen in E. subst ps. apply Hd. reflexivity.
Qed.

Lemma pokemon_statistics_errors_witness :
  Forall (fun l => is_Some (pokes sample_world !! l)) [] /\
  match pokemon_statistics [] sample_world with
  | Raise StatisticsError w' =>
      stdout w' = stdout sample_world ++
                  [DebugCalling "pokemon_statistics" [VList []]]
  | _ => False
  end.
Proof.
  split; [constructor |].
  pose proof (pokemon_statistics_errors sample_world [] ltac:(constructor)) as H.
  destruct (pokemon_statistics [] sample_world) as [? ? | [] ? | |];
    try exact H; try (elim H; reflexivity). exact (proj2 H).
Defined.

Lemma sum_perm (l l' : list Z) : l ≡ₚ l' -> sum l = sum l'.
Proof.
  induction 1 as [| x l l' _ IH | x y l | l l' l'' _ IH1 _ IH2].
  - reflexivity.
  - rewrite !sum_cons, IH. reflexivity.
  - rewrite !sum_cons. lia.
  - congruence.
Qed.

Lemma mean_perm (l l' : list Z) w : l ≡ₚ l' -> mean l w = mean l' w.
Proof.
  intros Hp. unfold mean. rewrite (sum_perm l l' Hp), (Permutation_length Hp).
  reflexivity.
Qed.

Lemma foldl_max_perm x rest x' rest' :
  x :: rest ≡ₚ x' :: rest' -> foldl Z.max x rest = foldl Z.max x' rest'.
Proof.
  intros Hp. destruct (foldl_max_spec x rest) as [Hin Hle].
  destruct (foldl_max_spec x' rest') as [Hin' Hle']. cbn zeta in *.
  rewrite Hp in Hin. rewrite <- Hp in Hin'.
  specialize (Hle _ Hin'). specialize (Hle' _ Hin). lia.
Qed.

Lemma foldl_min_perm x rest x' rest' :
  x :: rest ≡ₚ x' :: rest' -> foldl Z.min x rest = foldl Z.min x' rest'.
Proof.
  intros Hp. destruct (foldl_min_spec x rest) as [Hin Hle].
  destruct (foldl_min_spec x' rest') as [Hin' Hle']. cbn zeta in *.
  rewrite Hp in Hin. rewrite <- Hp in Hin'.
  specialize (Hle _ Hin'). specialize (Hle' _ Hin). lia.
Qed.

(** The statistics do not depend on the order of the roster. *)
Theorem pokemon_statistics_any_order (w : World) (roster roster' : list loc) :
  Forall (fun l => is_Some (pokes w !! l)) roster ->
  roster ≡ₚ roster' ->
  match pokemon_statistics roster w, pokemon_statistics roster' w with
  | Ret stats _, Ret stats' _ => stats = stats'
  | Raise e _, Raise e' _ => e = e'
  | _, _ => False
  end.
Proof.
  intros Hv Hperm.
  assert (Hv' : Forall (fun l => is_Some (pokes w !! l)) roster')
    by (rewrite <- Hperm; exact Hv).
  destruct (deref_all_valid w _ Hv) as (ps & Hps & Ehp).
  destruct (deref_all_valid w _ Hv') as (ps' & Hps' & Ehp').
  rewrite (pokemon_statistics_run w roster ps Hps).
  rewrite (pokemon_statistics_run w roster' ps' Hps'). cbn zeta.
  assert (Hhp : map hp ps ≡ₚ map hp ps').
  { rewrite Ehp, Ehp'. apply Permutation_map, Hperm. }
  set (w1 := emit _ w). set (w1' := emit _ w).
  destruct (mean_pure (map hp ps)) as [[avg Hm] | (e & _ & Hm)];
    rewrite (Hm w1); rewrite <- (mean_perm _ _ w1' Hhp), (Hm w1');
    [| reflexivity].
  destruct (map hp ps) as [| x rest] eqn:E, (map hp ps') as [| x' rest'] eqn:E'.
  - reflexivity.
  - apply Permutation_nil_l in Hhp. discriminate.
  - apply Permutation_nil_r in Hhp. discriminate.
  - cbn zeta. rewrite (foldl_max_perm _ _ _ _ Hhp), (foldl_min_perm _ _ _ _ Hhp).
    reflexivity.
Qed.

Lemma pokemon_statistics_any_order_witness :
  (Forall (fun l => is_Some (pokes roster_world !! l)) [0%nat; 1%nat; 2%nat; 3%nat] /\
   [0%nat; 1%nat; 2%nat; 3%nat] ≡ₚ [3%nat; 1%nat; 0%nat; 2%nat]) /\
  match pokemon_statistics [0%nat; 1%nat; 2%nat; 3%nat] roster_world,
        pokemon_statistics [3%nat; 1%nat; 0%nat; 2%nat] roster_world with
  | Ret stats _, Ret stats' _ => stats = stats'
  | Raise e _, Raise e' _ => e = e'
  | _, _ => False
  end.
Proof.
  assert (Hv : Forall (fun l => is_Some (pokes roster_world !! l))
                 [0%nat; 1%nat; 2%nat; 3%nat])
    by (repeat constructor; eexists; reflexivity).
  assert (Hp : [0%nat; 1%nat; 2%nat; 3%nat] ≡ₚ [3%nat; 1%nat; 0%nat; 2%nat]).
  { apply (Permutation_trans (l' := [1%nat; 0%nat; 2%nat; 3%nat])); [apply perm_swap |].
    apply (Permutation_trans (l' := [1%nat; 0%nat; 3%nat; 2%nat]));
      [do 2 apply perm_skip; apply perm_swap |].
    apply (Permutation_trans (l' := [1%nat; 3%nat; 0%nat; 2%nat]));
      [apply perm_skip, perm_swap |].
    apply perm_swap. }
  split; [split; [exact Hv | exact Hp] |].
  apply (pokemon_statistics_any_order roster_world _ _ Hv Hp).
Defined.

(** Rounding does not cross an integer of at most 53 bits: such an integer
    is a binary64 number itself. *)
Lemma rounding_keeps_side n d J :
  n <> 0 -> 0 < d -> 0 <= J <= 2 ^ 53 ->
  let k := exponent_of n d in
  let m := significand_of n d in
  (Z.abs n <= J * d -> m * up k <= J * dn k) /\
  (J * d <= Z.abs n -> J * dn k <= m * up k).
Proof.
  intros Hn Hd HJ. cbn zeta.
  destruct (rounding_core n d Hn Hd) as (HD & Hnear & Hm & HN & Hk & Hnorm).
  unfold significand_of in *.
  set (k := exponent_of n d) in *. set (a := Z.abs n) in *.
  pose proof (up_pos k) as Hup. pose proof (dn_pos k) as Hdn.
  destruct (Z.le_gt_cases k 0) as [Hk0 | Hk0].
  - destruct (up_neg k Hk0) as [E1 E2]. rewrite E1 in *. split; intros Ha.
    + rewrite Z.mul_1_r. apply round_half_even_le; [exact HD | nia].
    + rewrite Z.mul_1_r. apply round_half_even_ge; [exact HD | nia].
  - destruct (up_nonneg k ltac:(lia)) as [E1 E2]. rewrite E1, E2 in *.
    destruct Hnorm as [-> | [H52 Hm52]]; [lia |].
    assert (Hp : 2 <= 2 ^ k).
    { change 2 with (2 ^ 1) at 1. apply Z.pow_le_mono_r; lia. }
    rewrite !Z.mul_1_r in *. split; intros Ha.
    + (* only [a = 2 ^ 53 * d] is left, which is not rounded *)
      assert (H2k : 2 ^ k = 2) by nia.
      assert (Ea : a = 2 ^ 52 * (d * 2 ^ k)) by nia.
      rewrite Ea, round_half_even_exact by exact HD. nia.
    + set (m := round_half_even a (d * 2 ^ k)) in *. nia.
Qed.

Lemma sum_bounds (l : list Z) (lo hi : Z) :
  (forall h, h ∈ l -> lo <= h <= hi) ->
  lo * Z.of_nat (length l) <= sum l <= hi * Z.of_nat (length l).
Proof.
  induction l as [| x l IH]; intros H; [cbn; lia |].
  rewrite sum_cons. cbn [length]. rewrite Nat2Z.inj_succ.
  assert (lo <= x <= hi) by (apply H; left).
  assert (lo * Z.of_nat (length l) <= sum l <= hi * Z.of_nat (length l))
    by (apply IH; intros h Hh; apply H; right; exact Hh).
  lia.
Qed.

Lemma binary64_of_ratio_between n d x lo hi :
  0 < d -> Z.abs lo <= 2 ^ 53 -> Z.abs hi <= 2 ^ 53 ->
  lo * d <= n <= hi * d ->
  binary64_of_ratio n d = Some x ->
  (inject_Z lo <= x <= inject_Z hi)%Q.
Proof.
  intros Hd Hlo Hhi Hn Hx.
  destruct (Z.eq_dec n 0) as [-> | Hn0].
  - assert (x = 0%Q) by (cbn in Hx; congruence). subst x.
    unfold Qle. cbn. split; nia.
  - rewrite (binary64_of_ratio_unfold n d Hn0) in Hx.
    destruct (Z.leb_spec (2 ^ 1024 * dn (exponent_of n d))
                (significand_of n d * up (exponent_of n d))); [discriminate |].
    assert (Ex : x = Qred (dyadic (Z.sgn n * significand_of n d) (exponent_of n d)))
      by congruence.
    clear Hx. subst x.
    destruct (rounding_core n d Hn0 Hd) as (_ & _ & Hm & _).
    pose proof (up_pos (exponent_of n d)) as Hup.
    pose proof (dn_pos (exponent_of n d)) as Hdn.
    set (k := exponent_of n d) in *. set (m := significand_of n d) in *.
    assert (Hside : forall J, 0 <= J <= 2 ^ 53 ->
              (Z.abs n <= J * d -> m * up k <= J * dn k) /\
              (J * d <= Z.abs n -> J * dn k <= m * up k))
      by (intros J HJ; exact (rounding_keeps_side n d J Hn0 Hd HJ)).
    assert (E : (Qred (dyadic (Z.sgn n * m) k) == dyadic (Z.sgn n * m) k)%Q)
      by apply Qred_correct.
    rewrite E. unfold Qle, dyadic. cbn [Qnum Qden inject_Z].
    rewrite !Z2Pos.id by exact Hdn. rewrite !Z.mul_1_r.
    destruct (Z.lt_trichotomy n 0) as [Hneg | [? | Hpos]]; [| contradiction |].
    + replace (Z.sgn n) with (-1) by (destruct n; cbn; lia).
      assert (Ha : Z.abs n = - n) by lia.
      split.
      * destruct (Hside (- lo)) as [H1 _]; [nia |]. nia.
      * destruct (Z.le_gt_cases 0 hi) as [H0 | H0]; [nia |].
        destruct (Hside (- hi)) as [_ H2]; [lia |]. nia.
    + replace (Z.sgn n) with 1 by (destruct n; cbn; lia).
      assert (Ha : Z.abs n = n) by lia.
      split.
      * destruct (Z.le_gt_cases lo 0) as [H0 | H0]; [nia |].
        destruct (Hside lo) as [_ H2]; [lia |]. nia.
      * destruct (Hside hi) as [H1 _]; [nia |]. nia.
Qed.

(** With hp values of at most 53 bits, the average that comes back lies
    between the minimum and the maximum that come back with it. *)
Theorem average_between_min_and_max (w w' : World) (roster : list loc)
    (average_hp : number) (max_hp min_hp : Z) :
  Forall (fun l => is_Some (pokes w !! l)) roster ->
  Forall (fun l => Z.abs (hp_at w l) <= 2 ^ 53) roster ->
  pokemon_statistics roster w = Ret (stats_of average_hp max_hp min_hp) w' ->
  min_hp <= max_hp /\
  (inject_Z min_hp <= value_of average_hp <= inject_Z max_hp)%Q.
Proof.
  intros Hv Hb Hrun.
  destruct (deref_all_valid w _ Hv) as (ps & Hps & Ehp).
  rewrite (pokemon_statistics_run w roster ps Hps) in Hrun. cbn zeta in Hrun.
  set (w1 := emit _ w) in Hrun.
  destruct (mean (map hp ps) w1) as [avg w2 | e w2 | |] eqn:Em; try discriminate Hrun.
  destruct (map hp ps) as [| x rest] eqn:Edata; [discriminate Hrun |].
  cbn zeta in Hrun. unfold stats_of in Hrun.
  assert (average_hp = avg /\ max_hp = foldl Z.max x rest /\
          min_hp = foldl Z.min x rest) as (-> & -> & ->).
  { injection Hrun as E1 E2 E3 _. auto. }
  clear Hrun.
  destruct (foldl_max_spec x rest) as [Hmax_in Hmax].
  destruct (foldl_min_spec x rest) as [Hmin_in Hmin]. cbn zeta in *.
  set (mx := foldl Z.max x rest) in *. set (mn := foldl Z.min x rest) in *.
  assert (Hbound : forall h, h ∈ x :: rest -> Z.abs h <= 2 ^ 53).
  { intros h Hh. rewrite Ehp in Hh. apply list_elem_of_fmap in Hh.
    destruct Hh as (l & -> & Hl). rewrite Forall_forall in Hb. exact (Hb l Hl). }
  assert (Hsum := sum_bounds (x :: rest) mn mx
                    (fun h Hh => conj (Hmin h Hh) (Hmax h Hh))).
  set (n := Z.of_nat (length (x :: rest))) in *.
  assert (Hn : 0 < n) by (unfold n; cbn; lia).
  split; [apply Hmin, Hmax_in |].
  unfold mean in Em. fold n in Em.
  destruct (Z.ltb_spec n 1); [lia |].
  destruct (Z.eqb_spec (sum (x :: rest) mod n) 0) as [Hmod | Hmod].
  - injection Em as <- _. cbn [value_of].
    pose proof (Z.div_mod (sum (x :: rest)) n ltac:(lia)) as Hdm.
    rewrite <- !Zle_Qle. split; nia.
  - destruct (binary64_of_ratio (sum (x :: rest)) n) as [q |] eqn:Eq;
      [| discriminate Em].
    injection Em as <- _. cbn [value_of].
    apply (binary64_of_ratio_between (sum (x :: rest)) n q mn mx Hn);
      [apply Hbound, Hmin_in | apply Hbound, Hmax_in | lia | exact Eq].
Qed.

Lemma average_between_min_and_max_witness :
  exists w',
    (Forall (fun l => is_Some (pokes roster_world !! l)) [0%nat; 1%nat; 2%nat; 3%nat] /\
     Forall (fun l => Z.abs (hp_at roster_world l) <= 2 ^ 53)
            [0%nat; 1%nat; 2%nat; 3%nat] /\
     pokemon_statistics [0%nat; 1%nat; 2%nat; 3%nat] roster_world =
       Ret (stats_of (Float (163 # 4)) 45 35) w') /\
    35 <= 45 /\
    (inject_Z 35 <= value_of (Float (163 # 4)) <= inject_Z 45)%Q.
Proof.
  assert (Hv : Forall (fun l => is_Some (pokes roster_world !! l))
                 [0%nat; 1%nat; 2%nat; 3%nat])
    by (repeat constructor; eexists; reflexivity).
  assert (Hb : Forall (fun l => Z.abs (hp_at roster_world l) <= 2 ^ 53)
                 [0%nat; 1%nat; 2%nat; 3%nat])
    by (repeat constructor; vm_compute; discriminate).
  eexists. split; [split; [exact Hv |]; split; [exact Hb |] |].
  - vm_compute. reflexivity.
  - eapply (average_between_min_and_max roster_world _ _ _ _ _ Hv Hb).
    vm_compute. reflexivity.
Defined.

(** Beyond 53 bits the bound is lost: the mean of [2 ^ 54 + 1] and
    [2 ^ 54 + 2] comes back as the float [2 ^ 54], below both. *)
Example mean_below_min (w : World) :
  mean [2 ^ 54 + 1; 2 ^ 54 + 2] w = Ret (Float (inject_Z (2 ^ 54))) w.
Proof. vm_compute. reflexivity. Qed.

(** ** The dict of groups, in full *)

Lemma dict_get_of_elem {V} t (g : V) (d : list (string * V)) :
  NoDup (map fst d) -> (t, g) ∈ d -> dict_get t d = Some g.
Proof.
  induction d as [| [k v] d IH]; intros Hnd Hin; [inversion Hin |].
  apply NoDup_cons in Hnd. destruct Hnd as [Hk Hnd]. cbn.
  apply elem_of_cons in Hin. destruct Hin as [[= -> ->] | Hin].
  - rewrite String.eqb_refl. reflexivity.
  - destruct (String.eqb_spec k t) as [-> | _]; [| exact (IH Hnd Hin)].
    elim Hk. apply list_elem_of_fmap. exists (t, g). split; [reflexivity | exact Hin].
Qed.

Lemma length_concat_groups {A} (groups : list (string * list A)) :
  length (concat (map snd groups)) =
  foldr (fun kg n => (length kg.2 + n)%nat) 0%nat groups.
Proof.
  induction groups as [| [k g] groups IH]; cbn; [reflexivity |].
  rewrite length_app, IH. reflexivity.
Qed.

(** The dict that [group_by_type] returns, said with the key that it
    sorts and groups by. *)
Lemma group_by_type_dict (w : World) (roster : list loc) :
  Forall (fun l => is_Some (pokes w !! l)) roster ->
  exists w' grouped,
    group_by_type roster w = Ret grouped w' /\
    StronglySorted (fun t t' => String.ltb t t' = true) (map fst grouped) /\
    (forall t, t ∈ map fst grouped <-> exists x, x ∈ roster /\ type_at w x = t) /\
    (forall t g, (t, g) ∈ grouped ->
       g <> [] /\ g = filter (fun l => type_at w l = t) roster) /\
    foldr (fun kg n => (length kg.2 + n)%nat) 0%nat grouped = length roster /\
    (grouped = [] <-> roster = []).
Proof.
  intros Hv. destruct (group_by_type_run w roster Hv) as (w' & Hrun & _).
  exists w', (grouped_by (type_at w) roster). split; [exact Hrun |].
  set (key := type_at w).
  pose proof (groupby_keys_increase key _ (sorted_sorted key roster)) as Hinc.
  pose proof (increasing_NoDup _ Hinc) as Hnd.
  pose proof (groupby_concat key (sorted key roster)) as Hcat.
  rewrite <- (grouped_by_groupby key roster) in Hinc, Hnd, Hcat.
  assert (Hgroup : forall t g, (t, g) ∈ grouped_by key roster ->
            g <> [] /\ g = filter (has_key key t) roster).
  { intros t g Hin. apply (dict_get_of_elem t g _ Hnd) in Hin.
    apply grouped_by_spec in Hin. destruct Hin as [Hne ->].
    split; [exact Hne |]. apply sorted_stable. }
  split; [exact Hinc |]. split; [| split; [exact Hgroup |]; split].
  - intros t. split.
    + intros Hin. apply list_elem_of_fmap in Hin. destruct Hin as ([t' g] & -> & Hin).
      destruct (Hgroup t' g Hin) as [Hne ->]. cbn.
      destruct (filter (has_key key t') roster) as [| x rest] eqn:E; [congruence |].
      assert (Hx : x ∈ filter (has_key key t') roster) by (rewrite E; left).
      apply list_elem_of_filter in Hx. destruct Hx as [Hk Hx]. exists x. auto.
    + intros (x & Hx & Ht).
      assert (Hin : x ∈ filter (has_key key t) (sorted key roster)).
      { apply list_elem_of_filter. split; [exact Ht |]. rewrite sorted_perm. exact Hx. }
      assert (Hget : dict_get t (grouped_by key roster) =
                     Some (filter (has_key key t) (sorted key roster))).
      { apply grouped_by_spec. split; [| reflexivity].
        intros E. rewrite E in Hin. inversion Hin. }
      apply dict_get_elem_of in Hget.
      apply list_elem_of_fmap. eexists. split; [| exact Hget]. reflexivity.
  - rewrite <- length_concat_groups, Hcat. apply Permutation_length, sorted_perm.
  - split.
    + intros E. rewrite E in Hcat. cbn in Hcat.
      symmetry. apply Permutation_nil_l. rewrite Hcat. apply sorted_perm.
    + intros ->. reflexivity.
Qed.

(** What [group_by_type] returns is fixed by the roster and the [type_]
    of its Pokemon: the keys are the types of the Pokemon in the roster,
    each once, in ascending order, which is the order in which the dict is
    iterated; the group of a type is the roster entries whose Pokemon has
    that type, in roster order, and is never empty; the group sizes add up
    to the size of the roster.  The empty roster gives the empty dict. *)
Theorem group_by_type_in_full (w : World) (roster : list loc) :
  Forall (fun l => is_Some (pokes w !! l)) roster ->
  exists w' grouped,
    group_by_type roster w = Ret grouped w' /\
    StronglySorted (fun t t' => String.ltb t t' = true) (map fst grouped) /\
    (forall t, t ∈ map fst grouped <->
               exists x p, x ∈ roster /\ pokes w !! x = Some p /\ type_ p = t) /\
    (forall t g, (t, g) ∈ grouped ->
       g <> [] /\ g = filter (of_type w t) roster) /\
    foldr (fun kg n => (length kg.2 + n)%nat) 0%nat grouped = length roster /\
    (grouped = [] <-> roster = []).
Proof.
  intros Hv.
  destruct (group_by_type_dict w roster Hv)
    as (w' & grouped & Hrun & Hinc & Hkeys & Hgroup & Hlen & Hnil).
  exists w', grouped. split; [exact Hrun |]. split; [exact Hinc |].
  split; [| split; [| split; [exact Hlen | exact Hnil]]].
  - intros t. rewrite (Hkeys t). rewrite Forall_forall in Hv. split.
    + intros (x & Hx & Ht). destruct (Hv x Hx) as [p Hp]. exists x, p.
      rewrite <- (type_at_lookup w x p Hp). auto.
    + intros (x & p & Hx & Hp & Ht). exists x.
      rewrite (type_at_lookup w x p Hp). auto.
  - intros t g Hg. rewrite (filter_of_type w t _ Hv). exact (Hgroup t g Hg).
Qed.

Lemma group_by_type_in_full_witness :
  Forall (fun l => is_Some (pokes sample_world !! l)) [2%nat; 0%nat; 1%nat; 2%nat] /\
  exists w' grouped,
    group_by_type [2%nat; 0%nat; 1%nat; 2%nat] sample_world = Ret grouped w' /\
    StronglySorted (fun t t' => String.ltb t t' = true) (map fst grouped) /\
    (forall t, t ∈ map fst grouped <->
               exists x p, x ∈ [2%nat; 0%nat; 1%nat; 2%nat] /\
                           pokes sample_world !! x = Some p /\ type_ p = t) /\
    (forall t g, (t, g) ∈ grouped ->
       g <> [] /\
       g = filter (of_type sample_world t) [2%nat; 0%nat; 1%nat; 2%nat]) /\
    foldr (fun kg n => (length kg.2 + n)%nat) 0%nat grouped =
      length [2%nat; 0%nat; 1%nat; 2%nat] /\
    (grouped = [] <-> [2%nat; 0%nat; 1%nat; 2%nat] = []).
Proof.
  assert (Hv : Forall (fun l => is_Some (pokes sample_world !! l))
                 [2%nat; 0%nat; 1%nat; 2%nat])
    by (repeat constructor; eexists; reflexivity).
  split; [exact Hv |].
  apply (group_by_type_in_full sample_world [2%nat; 0%nat; 1%nat; 2%nat] Hv).
Defined.

(** ** A Pokemon sent to battle itself *)

Lemma battle_loop_self l fuel :
  forall w p,
    pokes w !! l = Some p -> moves p <> [] -> 0 <= hp p ->
    (Z.to_nat (hp p) <= fuel)%nat ->
    exists w' r,
      battle_loop fuel l l w = Ret tt w' /\
      pokes w' !! l = Some r /\ hp r = 0 /\ static r = static p /\
      arenas w' = arenas w.
Proof.
  induction fuel as [| fuel IH]; intros w p Hl Hm Hp Hfuel;
    rewrite (battle_loop_unfold _ w l l p p Hl Hl);
    destruct (Z.gtb_spec (hp p) 0) as [Hpos | Hzero]; cbn [andb];
    try (exists w, p; repeat split; [exact Hl | lia]); [lia |].
  unfold_M. rewrite (battle_round_run w l l p p Hl Hl).
  assert (Ef : first_of l l p p = l) by (unfold first_of; destruct (_ >=? _); reflexivity).
  assert (Es : second_of l l p p = l) by (unfold second_of; destruct (_ >=? _); reflexivity).
  rewrite Ef, Es. unfold exchange.
  pose proof (attack_damage_pos p p) as Hd1.
  destruct (attack_opponent_cases w l l p p Hl Hl) as [[Hm' _] | (mv & _ & Hr)];
    [contradiction |].
  rewrite (bind_Ret _ _ _ _ _ Hr).
  set (w1 := after_attack w p p l mv).
  set (p1 := set_hp (Z.max (hp p - attack_damage p p) 0) p).
  assert (Hl1 : pokes w1 !! l = Some p1) by (cbn; apply lookup_insert_eq).
  rewrite (bind_Ret _ _ _ _ _ (deref_run _ _ _ Hl1)).
  destruct (Z.leb_spec (hp p1) 0) as [Hle | Hgt].
  - cbn. exists w1, p1. split; [reflexivity |]. split; [exact Hl1 |].
    split; [cbn in *; lia |]. split; reflexivity.
  - pose proof (attack_damage_pos p1 p1) as Hd2.
    destruct (attack_opponent_cases w1 l l p1 p1 Hl1 Hl1) as [[Hm' _] | (mv2 & _ & Hr2)];
      [contradiction |].
    rewrite (bind_Ret _ _ _ _ _ Hr2). cbn [mret M_ret ret].
    set (w2 := after_attack w1 p1 p1 l mv2).
    set (p2 := set_hp (Z.max (hp p1 - attack_damage p1 p1) 0) p1).
    assert (Hl2 : pokes w2 !! l = Some p2) by (cbn; apply lookup_insert_eq).
    destruct (IH w2 p2 Hl2 Hm ltac:(cbn; lia) ltac:(cbn in *; lia))
      as (w' & r & Hrun & Hr' & Hz & Hs & Ha).
    exists w', r. split; [exact Hrun |]. split; [exact Hr' |].
    split; [exact Hz |]. split; [rewrite Hs; reflexivity | rewrite Ha; reflexivity].
Qed.

(** [battle] called with the same Pokemon twice: it hits itself until its
    hp is 0, and is returned as the winner. *)
Theorem battle_against_oneself (w : World) (self l : loc) (a : BattleArena)
    (p : Pokemon) :
  arenas w !! self = Some a ->
  pokes w !! l = Some p ->
  moves p <> [] ->
  0 < hp p ->
  exists w' r,
    (forall fuel, (Z.to_nat (hp p) <= fuel)%nat ->
       battle fuel self l l w = Ret (name p) w') /\
    pokes w' !! l = Some r /\ hp r = 0 /\ static r = static p.
Proof.
  intros Ha Hl Hm Hp.
  destruct (battle_loop_self l (Z.to_nat (hp p)) (battle_start w self p p) p
              Hl Hm ltac:(lia) ltac:(lia))
    as (w1 & r & Hloop & Hr & Hz & Hs & Har).
  assert (Hn : name r = name p) by (unfold static in Hs; congruence).
  exists (after_battle w1 self a (name r) (name r) (name r)), r.
  split; [| split; [exact Hr | split; [exact Hz | exact Hs]]].
  intros fuel Hfuel. rewrite (battle_run fuel w self l l p p Hl Hl).
  rewrite (battle_loop_more_fuel l l (Z.to_nat (hp p)) _ fuel Hfuel)
    by (rewrite Hloop; discriminate).
  rewrite Hloop, Hr, Har. cbn. rewrite Ha.
  destruct (Z.gtb_spec (hp r) 0); [lia |]. rewrite Hn. reflexivity.
Qed.

Lemma battle_against_oneself_witness :
  (arenas sample_world !! 0%nat = Some (mkArena []) /\
   pokes sample_world !! 0%nat = Some pikachu /\
   moves pikachu <> [] /\ 0 < hp pikachu) /\
  exists w' r,
    (forall fuel, (Z.to_nat (hp pikachu) <= fuel)%nat ->
       battle fuel 0 0 0 sample_world = Ret (name pikachu) w') /\
    pokes w' !! 0%nat = Some r /\ hp r = 0 /\ static r = static pikachu.
Proof.
  split; [split; [reflexivity |]; split; [reflexivity |];
          split; [discriminate | reflexivity] |].
  apply (battle_against_oneself sample_world 0%nat 0%nat (mkArena []) pikachu);
    first [reflexivity | discriminate].
Defined.

(** ** The order that the dataclass generates *)

Lemma lawful_Z : lawful Z.compare.
Proof.
  split.
  - intros a b. apply Z.compare_eq_iff.
  - intros a b. apply Z.compare_antisym.
  - intros a b c. rewrite !Z.compare_lt_iff. lia.
Qed.

Lemma lawful_string : lawful String.compare.
Proof.
  split.
  - intros a b. apply String_as_OT.cmp_eq.
  - intros a b. apply String.compare_antisym.
  - intros a b c Hab Hbc.
    assert (Hl : forall x y, String.compare x y = Lt <-> String.ltb x y = true).
    { intros x y. unfold String.ltb. destruct (String.compare x y); split; congruence. }
    apply Hl. apply (ltb_trans a b c); apply Hl; assumption.
Qed.

Lemma lawful_pair {A B} (cmpA : A -> A -> comparison) (cmpB : B -> B -> comparison) :
  lawful cmpA -> lawful cmpB -> lawful (pair_compare cmpA cmpB).
Proof.
  intros [EA OA TA] [EB OB TB]. unfold pair_compare. split.
  - intros [a b] [a' b']. cbn. split.
    + destruct (cmpA a a') eqn:E; cbn; try discriminate.
      intros Hb. apply EA in E. apply EB in Hb. congruence.
    + intros [= -> ->]. rewrite (proj2 (EA a' a') eq_refl). cbn.
      apply EB. reflexivity.
  - intros [a b] [a' b']. cbn. rewrite (OA a a').
    destruct (cmpA a a'); cbn; [apply OB | reflexivity | reflexivity].
  - intros [a b] [a' b'] [a'' b'']. cbn.
    destruct (cmpA a a') eqn:E1; cbn; try discriminate;
      destruct (cmpA a' a'') eqn:E2; cbn; try discriminate.
    + apply EA in E1, E2. subst a' a''. rewrite (proj2 (EA a a) eq_refl). cbn.
      apply TB.
    + apply EA in E1. subst a'. rewrite E2. reflexivity.
    + apply EA in E2. subst a''. rewrite E1. reflexivity.
    + rewrite (TA _ _ _ E1 E2). reflexivity.
Qed.

Lemma list_compare_pair (x y : string) (l l' : list string) :
  list_compare (x :: l) (y :: l') =
  pair_compare String.compare list_compare (x, l) (y, l').
Proof. reflexivity. Qed.

Lemma lawful_list : lawful list_compare.
Proof.
  destruct lawful_string as [ES OS TS]. split.
  - induction a as [| x a IH]; intros [| y b]; cbn; split; try discriminate;
      try reflexivity.
    + destruct (String.compare x y) eqn:E; cbn; try discriminate.
      intros Hl. apply ES in E. apply IH in Hl. congruence.
    + intros [= -> ->]. rewrite (proj2 (ES y y) eq_refl). cbn.
      apply IH. reflexivity.
  - induction a as [| x a IH]; intros [| y b]; cbn; try reflexivity.
    rewrite (OS x y). destruct (String.compare x y); cbn;
      [apply IH | reflexivity | reflexivity].
  - induction a as [| x a IH]; intros [| y b] [| z c]; cbn; try discriminate;
      try reflexivity.
    destruct (String.compare x y) eqn:E1; cbn; try discriminate;
      destruct (String.compare y z) eqn:E2; cbn; try discriminate.
    + apply ES in E1, E2. subst y z. rewrite (proj2 (ES x x) eq_refl). cbn.
      apply IH.
    + apply ES in E1. subst y. rewrite E2. reflexivity.
    + apply ES in E2. subst z. rewrite E1. reflexivity.
    + rewrite (TS _ _ _ E1 E2). reflexivity.
Qed.

Lemma Pokemon_compare_fields p q :
  Pokemon_compare p q =
  pair_compare Z.compare (pair_compare String.compare
    (pair_compare String.compare (pair_compare Z.compare
      (pair_compare Z.compare (pair_compare Z.compare
        (pair_compare Z.compare list_compare))))))
    (fields p) (fields q).
Proof. reflexivity. Qed.

Lemma lawful_fields :
  lawful (pair_compare Z.compare (pair_compare String.compare
    (pair_compare String.compare (pair_compare Z.compare
      (pair_compare Z.compare (pair_compare Z.compare
        (pair_compare Z.compare list_compare))))))).
Proof.
  repeat apply lawful_pair;
    first [apply lawful_Z | apply lawful_string | apply lawful_list].
Qed.

(** The generated order is a strict total order on the fields, and its
    equality is equality of the fields: the id has no part in it, so two
    Pokemon built alike are equal whatever their ids. *)
Theorem Pokemon_order_is_total :
  (forall p q, Pokemon_eq p q = true <-> fields p = fields q) /\
  (forall p, Pokemon_lt p p = false) /\
  (forall p q r, Pokemon_lt p q = true -> Pokemon_lt q r = true ->
                 Pokemon_lt p r = true) /\
  (forall p q, Pokemon_lt p q = true -> Pokemon_lt q p = false) /\
  (forall p q, Pokemon_lt p q = true \/ Pokemon_eq p q = true \/
               Pokemon_lt q p = true) /\
  (forall p i, Pokemon_eq p (mkPokemon (sort_index p) (name p) (type_ p) (hp p)
                               (attack p) (defense p) (speed p) (moves p) i)
               = true).
Proof.
  destruct lawful_fields as [E O T].
  unfold Pokemon_eq, Pokemon_lt.
  split; [| split; [| split; [| split; [| split]]]].
  - intros p q. rewrite Pokemon_compare_fields, <- E.
    destruct (pair_compare _ _ _ _); split; congruence.
  - intros p. rewrite Pokemon_compare_fields, (proj2 (E _ _) eq_refl). reflexivity.
  - intros p q r. rewrite !Pokemon_compare_fields.
    destruct (pair_compare _ _ (fields p) (fields q)) eqn:E1; try discriminate.
    destruct (pair_compare _ _ (fields q) (fields r)) eqn:E2; try discriminate.
    rewrite (T _ _ _ E1 E2). reflexivity.
  - intros p q. rewrite !Pokemon_compare_fields, (O (fields p) (fields q)).
    destruct (pair_compare _ _ (fields p) (fields q)); cbn; congruence.
  - intros p q. rewrite !Pokemon_compare_fields, (O (fields p) (fields q)).
    destruct (pair_compare _ _ (fields p) (fields q)); cbn; auto.
  - intros p i. rewrite Pokemon_compare_fields.
    rewrite (proj2 (E _ _)); reflexivity.
Qed.

Lemma Pokemon_compare_by_creation p q :
  (sort_index p, name p, type_ p) <> (sort_index q, name q, type_ q) ->
  forall v v', Pokemon_compare (set_hp v p) (set_hp v' q) = Pokemon_compare p q.
Proof.
  intros Hne v v'. unfold Pokemon_compare. cbn.
  destruct (sort_index p ?= sort_index q) eqn:E1; try reflexivity.
  destruct (String.compare (name p) (name q)) eqn:E2; try reflexivity.
  destruct (String.compare (type_ p) (type_ q)) eqn:E3; try reflexivity.
  exfalso. apply Hne. apply Z.compare_eq_iff in E1.
  apply String_as_OT.cmp_eq in E2, E3. congruence.
Qed.

(** The order goes by [sort_index], the hp at creation, before anything
    else, and the current hp comes after name and type: whatever is called
    on them, two Pokemon that differ in sort_index, name or type stay
    ordered as they were, however their hp end up. *)
Theorem order_is_by_creation_hp (cs : list command) (w : World) :
  (forall p q, sort_index p < sort_index q -> Pokemon_lt p q = true) /\
  match run_commands cs w with
  | Ret _ w' | Raise _ w' =>
      forall l1 l2 p1 p2,
        pokes w !! l1 = Some p1 -> pokes w !! l2 = Some p2 ->
        (sort_index p1, name p1, type_ p1) <> (sort_index p2, name p2, type_ p2) ->
        exists p1' p2',
          pokes w' !! l1 = Some p1' /\ pokes w' !! l2 = Some p2' /\
          Pokemon_compare p1' p2' = Pokemon_compare p1 p2
  | Wrong | Timeout => True
  end.
Proof.
  split.
  - intros p q H. unfold Pokemon_lt, Pokemon_compare.
    apply Z.compare_lt_iff in H. rewrite H. reflexivity.
  - pose proof (run_commands_keeps_static cs w) as H.
    destruct (run_commands cs w) as [u w' | e w' | |]; try exact I;
      intros l1 l2 p1 p2 H1 H2 Hne;
      destruct (H l1 p1 H1) as (p1' & H1' & Hs1);
      destruct (H l2 p2 H2) as (p2' & H2' & Hs2);
      exists p1', p2'; (split; [exact H1' |]); (split; [exact H2' |]);
      unfold static in Hs1, Hs2;
      (assert (E1 : p1' = set_hp (hp p1') p1)
         by (destruct p1', p1; cbn in *; unfold set_hp; cbn; congruence));
      (assert (E2 : p2' = set_hp (hp p2') p2)
         by (destruct p2', p2; cbn in *; unfold set_hp; cbn; congruence));
      rewrite E1, E2; apply Pokemon_compare_by_creation; exact Hne.
Qed.
